(** * The CudaSift example program ([examples/mainSift.cpp])

    A shallow embedding of the three pieces of [mainSift.cpp] that carry
    logic of their own: the round-robin slot selection of the
    multithreaded benchmark in [main], the correspondence listing
    [MatchAll], and the overlay renderer [PrintMatchData].

    C++ [int] is a [Z] with its 32-bit wrap-around written out, [float]
    and [double] are IEEE binary32 / binary64 values of [SpecFloat] (the
    executable specification of the Standard Library), arrays are lists
    accessed with stdpp's lookup and insert, and an operation whose
    behaviour C++ leaves undefined (a cast of a value that does not fit
    [int], an access outside an array) is a [None] in the option monad.
    Where a property depends on the value that a [float] stands for, the
    value is a real number of the Standard Library and rounding is
    described by the grid [2^g] on which the result lies. *)

From Stdlib Require Import Reals Lra.
From Stdlib Require Import ZArith List Bool Lia.
From Stdlib Require Import Floats.SpecFloat.
From stdpp Require Import base option list.
Import ListNotations.

Local Open Scope Z_scope.

(** ** 32-bit [int] *)

Module Int32.

Definition min_int : Z := - 2 ^ 31.
Definition max_int : Z := 2 ^ 31 - 1.

Definition in_range (z : Z) : Prop := min_int <= z <= max_int.

Definition in_rangeb (z : Z) : bool := (min_int <=? z) && (z <=? max_int).

(** Two's complement wrap-around of a mathematical result. *)
Definition wrap (z : Z) : Z := (z + 2 ^ 31) mod 2 ^ 32 - 2 ^ 31.

Definition add (a b : Z) : Z := wrap (a + b).
Definition sub (a b : Z) : Z := wrap (a - b).
Definition mul (a b : Z) : Z := wrap (a * b).

(** C++ [%] truncates towards zero, as [Z.rem] does. *)
Definition rem (a b : Z) : Z := Z.rem a b.

(** [std::min] on [int]. *)
Definition min (a b : Z) : Z := if b <? a then b else a.

(** The values [0, 1, ..., n-1] of the control variable of
    [for (int k = 0; k < n; k++)]; none when [n <= 0]. *)
Definition upto (n : Z) : list Z := seqZ 0 n.

End Int32.

(** ** Round-robin slot selection ([main], lines 169-180)

    [std::atomic<int> ctr{0}] is shared by the work units of
    [tbb::parallel_for]; each unit executes [int tid = ctr++ % i].  The
    post-increment is one atomic read-modify-write, so the units draw
    from the counter one after the other in some total order; the model
    lists the units in that order. *)

Module RoundRobin.

(** [ctr++]: the value read, and the counter left behind. *)
Definition fetch_inc (ctr : Z) : Z * Z := (ctr, Int32.add ctr 1).

(** [int tid = ctr++ % i]. *)
Definition select (i : Z) (ctr : Z) : Z * Z :=
  let '(old, ctr') := fetch_inc ctr in (Int32.rem old i, ctr').

(** The [tid]s of [iterations] work units, in the order of their
    increments, and the final counter. *)
Fixpoint run (i : Z) (iterations : nat) (ctr : Z) : list Z * Z :=
  match iterations with
  | O => ([], ctr)
  | S n =>
      let '(tid, ctr') := select i ctr in
      let '(tids, ctr'') := run i n ctr' in
      (tid :: tids, ctr'')
  end.

(** One benchmark round: the counter starts at 0. *)
Definition tids (i : Z) (iterations : nat) : list Z := fst (run i iterations 0).

(** How many of the selections landed on [slot]. *)
Definition visits (slot : Z) (l : list Z) : nat := count_occ Z.eq_dec l slot.

(** The cyclic sequence [c mod w, (c+1) mod w, ...] of length [n]. *)
Fixpoint cyclic (w : Z) (n : nat) (c : Z) : list Z :=
  match n with
  | O => []
  | S n' => c mod w :: cyclic w n' (c + 1)
  end.

End RoundRobin.

(** ** IEEE floating point

    Every arithmetic operation rounds to nearest-even in its own format
    ([FLT_EVAL_METHOD] 0, no contraction into fused multiply-add). *)

Module Float.

(** The integer part of a finite value [(-1)^s * m * 2^e], rounded
    towards zero; NaN and the infinities have none. *)
Definition trunc (x : spec_float) : option Z :=
  match x with
  | S754_zero _ => Some 0
  | S754_finite s m e =>
      Some (cond_Zopp s (match e with
                         | Zneg k => Zpos m / 2 ^ Zpos k
                         | _ => Zpos m * 2 ^ e
                         end))
  | _ => None
  end.

(** The integer part rounded towards minus infinity. *)
Definition floor (x : spec_float) : option Z :=
  match x with
  | S754_zero _ => Some 0
  | S754_finite s m e =>
      Some (match e with
            | Zneg k => cond_Zopp s (Zpos m) / 2 ^ Zpos k
            | _ => cond_Zopp s (Zpos m) * 2 ^ e
            end)
  | _ => None
  end.

(** The C++ conversion [(int)x]: the value is truncated; the behaviour
    is undefined when the truncated value cannot be represented. *)
Definition to_int (x : spec_float) : option Z :=
  z ← trunc x;
  if Int32.in_rangeb z then Some z else None.

Definition is_nan (x : spec_float) : bool :=
  match x with S754_nan => true | _ => false end.

(** Finite values, zeros included. *)
Definition is_finite (x : spec_float) : bool :=
  match x with S754_zero _ | S754_finite _ _ _ => true | _ => false end.

(** The sign bit is clear (NaN has none). *)
Definition nonneg (x : spec_float) : bool :=
  match x with
  | S754_zero s | S754_infinity s | S754_finite s _ _ => negb s
  | S754_nan => false
  end.

(** An infinity of either sign, or NaN. *)
Definition inf_or_nan (x : spec_float) : Prop :=
  (exists s, x = S754_infinity s) \/ x = S754_nan.

(** Plus infinity, or NaN. *)
Definition pinf_or_nan (x : spec_float) : Prop :=
  x = S754_infinity false \/ x = S754_nan.

End Float.

(** C++ [float]: binary32. *)
Module F32.

Definition prec : Z := 24.
Definition emax : Z := 128.

Definition float : Type := spec_float.

Definition valid (x : float) : bool := valid_binary prec emax x.

Definition add : float -> float -> float := SFadd prec emax.
Definition sub : float -> float -> float := SFsub prec emax.
Definition mul : float -> float -> float := SFmul prec emax.
Definition div : float -> float -> float := SFdiv prec emax.
Definition abs : float -> float := SFabs.
Definition ltb : float -> float -> bool := SFltb.

(** Conversion of an [int] to [float]. *)
Definition of_int (z : Z) : float := binary_normalize prec emax z 0 false.

Definition zero : float := S754_zero false.
Definition one : float := Eval cbv in of_int 1.
Definition minus_one : float := Eval cbv in of_int (-1).
Definition c5 : float := Eval cbv in of_int 5.
Definition c100 : float := Eval cbv in of_int 100.
Definition c255 : float := Eval cbv in of_int 255.
Definition c959 : float := Eval cbv in of_int 959.
Definition c1279 : float := Eval cbv in of_int 1279.

End F32.

(** C++ [double]: binary64. *)
Module F64.

Definition prec : Z := 53.
Definition emax : Z := 1024.

Definition double : Type := spec_float.

Definition add : double -> double -> double := SFadd prec emax.
Definition mul : double -> double -> double := SFmul prec emax.
Definition div : double -> double -> double := SFdiv prec emax.
Definition sqrt : double -> double := SFsqrt prec emax.

Definition of_int (z : Z) : double := binary_normalize prec emax z 0 false.

(** Promotion of a [float] operand to [double]; it is exact. *)
Definition of_float (x : F32.float) : double :=
  match x with
  | S754_finite s m e => binary_round prec emax s m e
  | _ => x
  end.

(** The literal [0.5]. *)
Definition half : double := Eval cbv in div (of_int 1) (of_int 2).

(** The literal [1.41]: the double nearest to 141/100. *)
Definition c1_41 : double := Eval cbv in div (of_int 141) (of_int 100).

End F64.

(** ** Feature data *)

(** Modelled from the spec: the declaration of [SiftPoint] is in
    [cudasift/cudaSift.h], which is not part of the sources at hand.
    The record has the fields that [mainSift.cpp] reads: the position,
    scale and orientation, the index of the matched point in the other
    set with the error of that match, and the 128 descriptor values. *)
Record SiftPoint := {
  xpos : F32.float;
  ypos : F32.float;
  scale : F32.float;
  orientation : F32.float;
  score : F32.float;
  ambiguity : F32.float;
  match_ : Z;
  match_error : F32.float;
  data : list F32.float
}.

(** Modelled from the spec: [SiftData] is declared in
    [cudasift/cudaSift.h], not at hand.  It is the number of points and
    the host array that holds them; [numPts] never exceeds the length of
    the array, so the loops over [i < numPts] visit its first [numPts]
    entries. *)
Record SiftData := {
  numPts : Z;
  h_data : list SiftPoint
}.

Definition points (d : SiftData) : list SiftPoint :=
  take (Z.to_nat (numPts d)) (h_data d).

(** ** The correspondence listing [MatchAll] (lines 195-248) *)

Module Evaluator.

(** [homography[k]] for the caller's [float homography[9]]. *)
Definition hom (h : list F32.float) (k : nat) : F32.float :=
  default F32.zero (h !! k).

(** Lines 208-211, in the order of the assignments. *)
Definition overwrite (h : list F32.float) : list F32.float :=
  let h := <[0%nat := F32.minus_one]> (<[4%nat := F32.minus_one]> h) in
  let h := <[1%nat := F32.zero]> (<[3%nat := F32.zero]>
            (<[6%nat := F32.zero]> (<[7%nat := F32.zero]> h))) in
  let h := <[2%nat := F32.c1279]> h in
  <[5%nat := F32.c959]> h.

(** What lines 208-211 make of a nine-element array whose last
    coefficient is [h8]. *)
Definition fixed (h8 : F32.float) : list F32.float :=
  [F32.minus_one; F32.zero; F32.c1279;
   F32.zero; F32.minus_one; F32.c959;
   F32.zero; F32.zero; h8].

(** Lines 219-221: the dot product of the two descriptors. *)
Definition dot (data1 data2 : list F32.float) : F32.float :=
  fold_left
    (fun sum k =>
       F32.add sum (F32.mul (default F32.zero (data1 !! k))
                            (default F32.zero (data2 !! k))))
    (seq 0 128) F32.zero.

(** Line 222. *)
Definition den (h : list F32.float) (p1 : SiftPoint) : F32.float :=
  F32.add (F32.add (F32.mul (hom h 6) (xpos p1)) (F32.mul (hom h 7) (ypos p1)))
          (hom h 8).

(** The projected position: the minuends of lines 223 and 224. *)
Definition proj_x (h : list F32.float) (p1 : SiftPoint) : F32.float :=
  F32.div
    (F32.add (F32.add (F32.mul (hom h 0) (xpos p1)) (F32.mul (hom h 1) (ypos p1)))
             (hom h 2))
    (den h p1).

Definition proj_y (h : list F32.float) (p1 : SiftPoint) : F32.float :=
  F32.div
    (F32.add (F32.add (F32.mul (hom h 3) (xpos p1)) (F32.mul (hom h 4) (ypos p1)))
             (hom h 5))
    (den h p1).

(** Lines 223-225. *)
Definition dx (h : list F32.float) (p1 p2 : SiftPoint) : F32.float :=
  F32.sub (proj_x h p1) (xpos p2).

Definition dy (h : list F32.float) (p1 p2 : SiftPoint) : F32.float :=
  F32.sub (proj_y h p1) (ypos p2).

Definition err (h : list F32.float) (p1 p2 : SiftPoint) : F32.float :=
  F32.add (F32.mul (dx h p1 p2) (dx h p1 p2)) (F32.mul (dy h p1 p2) (dy h p1 p2)).

(** [err<100.0f]. *)
Definition near (h : list F32.float) (p1 p2 : SiftPoint) : bool :=
  F32.ltb (err h p1 p2) F32.c100.

(** The two-character tag in front of a candidate's line
    (lines 229-236). *)
Inductive mark :=
| MatchNear   (* " *": the recorded match, within the threshold *)
| MatchFar    (* " -": the recorded match, outside it *)
| OtherNear   (* " +": another candidate within the threshold *)
| NoMark.     (* "  " *)

Definition mark_of (is_match near : bool) : mark :=
  if is_match && near then MatchNear
  else if is_match then MatchFar
  else if near then OtherNear
  else NoMark.

(** What is sent to [std::cout], one item per line.  A value printed
    through [(int)] is [None] when the cast has no defined result. *)
Inductive out_item :=
| PointLine (i : Z) (scale : F32.float) (orient : option Z) (x y : F32.float)
| CandLine (m : mark) (j : Z) (sum : F32.float) (root_err : option Z)
           (scale : F32.float) (orient : option Z) (x y : F32.float)
           (idx idy : option Z)
| BlankLine
| FindsLine (numFound numPts1 : Z)
| HomLine (a b c : F32.float).

(** Line 237, behind [mark]; the unqualified [sqrt] is the one of the C
    library, on [double]. *)
Definition cand_line (h : list F32.float) (p1 : SiftPoint) (j : Z) (p2 : SiftPoint)
  : out_item :=
  CandLine (mark_of (j =? match_ p1) (near h p1 p2)) j
           (dot (data p1) (data p2))
           (Float.to_int (F64.sqrt (F64.of_float (err h p1 p2))))
           (scale p2) (Float.to_int (orientation p2)) (xpos p2) (ypos p2)
           (Float.to_int (dx h p1 p2)) (Float.to_int (dy h p1 p2)).

(** The loop over [j] (lines 217-239), from index [j] on: the flag
    [found] and the lines printed. *)
Fixpoint candidates (h : list F32.float) (p1 : SiftPoint) (j : Z)
    (pts2 : list SiftPoint) (found : bool) : bool * list out_item :=
  match pts2 with
  | [] => (found, [])
  | p2 :: rest =>
      let found := if near h p1 p2 then true else found in
      let line :=
        if near h p1 p2 || (j =? match_ p1) then [cand_line h p1 j p2] else [] in
      let '(found, out) := candidates h p1 (Int32.add j 1) rest found in
      (found, line ++ out)
  end.

(** The loop over [i] (lines 213-243), from index [i] on: [numFound]
    and the lines printed. *)
Fixpoint each_point (h : list F32.float) (i : Z) (pts1 pts2 : list SiftPoint)
    (numFound : Z) : Z * list out_item :=
  match pts1 with
  | [] => (numFound, [])
  | p1 :: rest =>
      let head := PointLine i (scale p1) (Float.to_int (orientation p1))
                            (xpos p1) (ypos p1) in
      let '(found, lines) := candidates h p1 0 pts2 false in
      let numFound := if found then Int32.add numFound 1 else numFound in
      let '(numFound, out) := each_point h (Int32.add i 1) rest pts2 numFound in
      (numFound, head :: lines ++ BlankLine :: out)
  end.

(** Lines 213-247 for the array contents [h]. *)
Definition listing (siftData1 siftData2 : SiftData) (h : list F32.float)
  : list out_item :=
  let '(numFound, out) :=
    each_point h 0 (points siftData1) (points siftData2) 0 in
  out ++ [FindsLine numFound (numPts siftData1);
          HomLine (hom h 0) (hom h 1) (hom h 2);
          HomLine (hom h 3) (hom h 4) (hom h 5);
          HomLine (hom h 6) (hom h 7) (hom h 8)].

(** [MatchAll]: what it prints, and the caller's array as it leaves
    it. *)
Definition MatchAll (siftData1 siftData2 : SiftData) (homography : list F32.float)
  : list out_item * list F32.float :=
  let homography := overwrite homography in
  (listing siftData1 siftData2 homography, homography).

(** The verdict on the recorded correspondence of a point: the mark of
    the line printed for candidate [match_ p1], if there is one. *)
Inductive verdict := Confirmed | Rejected.

Definition verdict_of_mark (m : mark) : option verdict :=
  match m with
  | MatchNear => Some Confirmed
  | MatchFar => Some Rejected
  | _ => None
  end.

(** The verdicts a listing shows, as [(i, j, verdict)], where [i] is
    the point of the latest [PointLine] and [j] the candidate. *)
Fixpoint verdicts (i : Z) (out : list out_item) : list (Z * Z * verdict) :=
  match out with
  | [] => []
  | PointLine i' _ _ _ _ :: rest => verdicts i' rest
  | CandLine m j _ _ _ _ _ _ _ _ :: rest =>
      match verdict_of_mark m with
      | Some v => (i, j, v) :: verdicts i rest
      | None => verdicts i rest
      end
  | _ :: rest => verdicts i rest
  end.

(** The [numFound] a listing reports. *)
Fixpoint finds (out : list out_item) : option Z :=
  match out with
  | [] => None
  | FindsLine n _ :: _ => Some n
  | _ :: rest => finds rest
  end.

End Evaluator.

(** ** The overlay renderer [PrintMatchData] (lines 250-300) *)

(** Modelled from the spec: [CudaImage] is declared in
    [cudasift/cudaImage.h], not at hand.  [PrintMatchData] uses its
    [width], its [height] and the host buffer [h_data] of
    [width * height] values in row-major order. *)
Record CudaImage := {
  width : Z;
  height : Z;
  h_img : list F32.float
}.

Module Renderer.

(** A store [h_img[off] = v]. *)
Definition write : Type := Z * F32.float.

(** Line 280: [(int)(fabs(dx)>fabs(dy) ? fabs(dx) : fabs(dy))].  The
    absolute value of a [float] is exact, and so is its promotion to
    [double]: whether [fabs] works on [float] or on [double], the
    comparison and the truncated value are these. *)
Definition line_len (dx dy : F32.float) : option Z :=
  Float.to_int (if F32.ltb (F32.abs dy) (F32.abs dx) then F32.abs dx else F32.abs dy).

(** Lines 282-283: [(int)(pos + d*l/len)], with [l] and [len]
    converted to [float] for the product and the quotient. *)
Definition interp (pos d : F32.float) (l len : Z) : option Z :=
  Float.to_int (F32.add pos (F32.div (F32.mul d (F32.of_int l)) (F32.of_int len))).

(** One iteration of the loop of lines 281-285: the store it makes. *)
Definition line_step (w : Z) (p1 : SiftPoint) (dx dy : F32.float) (len l : Z)
  : option write :=
  x ← interp (xpos p1) dx l len;
  y ← interp (ypos p1) dy l len;
  Some (Int32.add (Int32.mul y w) x, F32.c255).

(** Lines 267-268 and 280-285: the stores of the line from [p1] to its
    match [p2]. *)
Definition line_writes (w : Z) (p1 p2 : SiftPoint) : option (list write) :=
  let dx := F32.sub (xpos p2) (xpos p1) in
  let dy := F32.sub (ypos p2) (ypos p1) in
  len ← line_len dx dy;
  mapM (line_step w p1 dx dy len) (Int32.upto len).

(** Lines 288-289: [(int)(pos+0.5)], computed in [double]. *)
Definition round_pos (pos : F32.float) : option Z :=
  Float.to_int (F64.add (F64.of_float pos) F64.half).

(** Line 290, last operand: [(int)(1.41*scale)], computed in
    [double]. *)
Definition scale_radius (scale : F32.float) : option Z :=
  Float.to_int (F64.mul F64.c1_41 (F64.of_float scale)).

(** Line 290. *)
Definition radius (w h x y r : Z) : Z :=
  Int32.min x (Int32.min y (Int32.min (Int32.sub (Int32.sub w x) 2)
                              (Int32.min (Int32.sub (Int32.sub h y) 2) r))).

(** The stores of one iteration of the loops of lines 293-294 and
    296-297; a chained assignment stores from right to left. *)
Definition arm (w p : Z) (v : F32.float) (k : Z) : list write :=
  [(Int32.add p (Int32.mul k w), v); (Int32.sub p (Int32.mul k w), v);
   (Int32.add p k, v); (Int32.sub p k, v)].

(** [for (int k=0;k<s;k++) h_img[p-k] = ... = v]. *)
Definition pass (w p s : Z) (v : F32.float) : list write :=
  flat_map (arm w p v) (Int32.upto s).

(** Lines 291-297 for the rounded position [(x, y)] and radius [s]. *)
Definition marker_passes (w x y s : Z) : list write :=
  let p := Int32.add (Int32.mul y w) x in
  let p := Int32.add p (Int32.add w 1) in
  let first := pass w p s F32.zero in
  let p := Int32.sub p (Int32.add w 1) in
  let second := pass w p s F32.c255 in
  first ++ second.

(** Lines 288-297: the stores of the marker of [p1]. *)
Definition marker_writes (w h : Z) (p1 : SiftPoint) : option (list write) :=
  x ← round_pos (xpos p1);
  y ← round_pos (ypos p1);
  r ← scale_radius (scale p1);
  Some (marker_passes w x y (radius w h x y r)).

(** [sift2[k]] for an [int k]. *)
Definition at_index (pts : list SiftPoint) (k : Z) : option SiftPoint :=
  if k <? 0 then None else pts !! Z.to_nat k.

(** The body of the loop over [j] (lines 265-297). *)
Definition point_writes (w h : Z) (sift2 : list SiftPoint) (p1 : SiftPoint)
  : option (list write) :=
  line ← (if F32.ltb (match_error p1) F32.c5
          then p2 ← at_index sift2 (match_ p1); line_writes w p1 p2
          else Some []);
  marker ← marker_writes w h p1;
  Some (line ++ marker).

(** All the stores of [PrintMatchData], in program order. *)
Definition writes (siftData1 siftData2 : SiftData) (img : CudaImage)
  : option (list write) :=
  per_point ← mapM (point_writes (width img) (height img) (h_data siftData2))
                   (points siftData1);
  Some (concat per_point).

(** A store into the buffer; outside of it the behaviour is
    undefined. *)
Definition store (buf : list F32.float) (wr : write) : option (list F32.float) :=
  if (0 <=? wr.1) && (wr.1 <? Z.of_nat (length buf))
  then Some (<[Z.to_nat wr.1 := wr.2]> buf)
  else None.

Definition store_all (buf : list F32.float) (ws : list write)
  : option (list F32.float) :=
  foldl (fun b wr => b ← b; store b wr) (Some buf) ws.

(** [PrintMatchData]: the image it leaves behind. *)
Definition PrintMatchData (siftData1 siftData2 : SiftData) (img : CudaImage)
  : option CudaImage :=
  ws ← writes siftData1 siftData2 img;
  buf ← store_all (h_img img) ws;
  Some {| width := width img; height := height img; h_img := buf |}.

End Renderer.

(** ** The specification's wording, for comparison with the code *)

Module Spec.

(** §4.3: the evaluation of the correspondence between [a] and its
    recorded match [b] through the homography the caller passes, with
    the guard on the denominator and the threshold of the
    specification. *)
Definition evaluate (homography : list F32.float) (threshold : F32.float)
    (a b : SiftPoint) : Evaluator.verdict :=
  match Evaluator.den homography a with
  | S754_zero _ => Evaluator.Rejected
  | _ =>
      if F32.ltb (Evaluator.err homography a b) threshold
      then Evaluator.Confirmed else Evaluator.Rejected
  end.

(** §4.3: a point whose denominator is zero has infinite error. *)
Definition zero_den_is_infinite_error (homography : list F32.float)
    (a b : SiftPoint) : Prop :=
  (exists s, Evaluator.den homography a = S754_zero s) ->
  Evaluator.err homography a b = S754_infinity false.

(** §8: no value printed for a candidate comes from a NaN. *)
Definition nan_free (h : list F32.float) (a b : SiftPoint) : bool :=
  negb (Float.is_nan (Evaluator.err h a b))
  && negb (Float.is_nan (Evaluator.dx h a b))
  && negb (Float.is_nan (Evaluator.dy h a b)).

(** §7 (d): a store inside the buffer of a [width] x [height] image. *)
Definition in_buffer (width height : Z) (wr : Renderer.write) : Prop :=
  0 <= wr.1 < width * height.

(** §4.4: the outline of maximal intensity is drawn first, then the
    ring of zero intensity one row and one column further. *)
Definition marker_passes (w x y s : Z) : list Renderer.write :=
  let p := Int32.add (Int32.mul y w) x in
  Renderer.pass w p s F32.c255
  ++ Renderer.pass w (Int32.add p (Int32.add w 1)) s F32.zero.

(** §4.4: [min(x, y, width-x-2, height-y-2, floor(1.41 * scale))]. *)
Definition radius (w h x y : Z) (scale : F32.float) : option Z :=
  f ← Float.floor (F64.mul F64.c1_41 (F64.of_float scale));
  Some (Z.min x (Z.min y (Z.min (w - x - 2) (Z.min (h - y - 2) f)))).

(** §8: [ceil(n / w)]. *)
Definition ceil_div (n w : Z) : Z := (n + w - 1) / w.

End Spec.

(** ** Concrete inputs *)

Module Scenario.

(** A feature at the pixel [(x, y)], with an integer scale, a recorded
    match [m] of match error [merr], and a descriptor of 128 ones. *)
Definition feature (x y s m merr : Z) : SiftPoint :=
  {| xpos := F32.of_int x; ypos := F32.of_int y;
     scale := F32.of_int s; orientation := F32.zero;
     score := F32.zero; ambiguity := F32.zero;
     match_ := m; match_error := F32.of_int merr;
     data := repeat F32.one 128 |}.

Definition set_of (pts : list SiftPoint) : SiftData :=
  {| numPts := Z.of_nat (length pts); h_data := pts |}.

(** The identity transform. *)
Definition identity : list F32.float :=
  [F32.one; F32.zero; F32.zero;
   F32.zero; F32.one; F32.zero;
   F32.zero; F32.zero; F32.one].

(** The end-to-end scenario of §8: two points, each matched to the
    point 5 pixels further right and down, match error 1. *)
Definition a0 : SiftPoint := feature 10 10 1 0 1.
Definition a1 : SiftPoint := feature 50 50 1 1 1.
Definition b0 : SiftPoint := feature 15 15 1 0 1.
Definition b1 : SiftPoint := feature 55 55 1 1 1.
Definition setA : SiftData := set_of [a0; a1].
Definition setB : SiftData := set_of [b0; b1].

(** A transform whose last coefficient is zero, and the point at
    which the numerators of [MatchAll] vanish as well. *)
Definition singular : list F32.float :=
  [F32.one; F32.zero; F32.zero;
   F32.zero; F32.one; F32.zero;
   F32.zero; F32.zero; F32.zero].
Definition corner : SiftPoint := feature 1279 959 1 0 1.

(** A blank image of [w] x [h] pixels, all of intensity 7. *)
Definition blank (w h : Z) : CudaImage :=
  {| width := w; height := h; h_img := repeat (F32.of_int 7) (Z.to_nat (w * h)) |}.

End Scenario.

(** ** More of [main] and observers of a listing *)

Module Sign.

(** NaN, or a value whose sign bit is clear. *)
Definition not_negative (x : spec_float) : Prop :=
  x = S754_nan \/ Float.nonneg x = true.

End Sign.

Module IntRange.

(** The [int] expressions that lines 290-292 evaluate for the rounded
    position [(x, y)] whatever the radius; none of them overflows. *)
Definition marker_defined (w h x y : Z) : Prop :=
  Int32.in_range (w - x) /\ Int32.in_range (w - x - 2)
  /\ Int32.in_range (h - y) /\ Int32.in_range (h - y - 2)
  /\ Int32.in_range (y * w) /\ Int32.in_range (y * w + x)
  /\ Int32.in_range (w + 1) /\ Int32.in_range (y * w + x + (w + 1)).

End IntRange.

Module Main.

(** Line 125, the percentage of matching features:
    [100.0f*numFit/std::min(siftData1.numPts, siftData2.numPts)]. *)
Definition match_percent (numFit numPts1 numPts2 : Z) : F32.float :=
  F32.div (F32.mul F32.c100 (F32.of_int numFit))
          (F32.of_int (Int32.min numPts1 numPts2)).

End Main.

Module Listing.

(** The index shown by a point's header line. *)
Definition point_index (line : Evaluator.out_item) : option Z :=
  match line with
  | Evaluator.PointLine i _ _ _ _ => Some i
  | _ => None
  end.

(** The indices of the header lines of a listing, in order. *)
Definition point_indices (out : list Evaluator.out_item) : list Z :=
  omap point_index out.

(** The mark and candidate index of a candidate's line. *)
Definition candidate (line : Evaluator.out_item) : option (Evaluator.mark * Z) :=
  match line with
  | Evaluator.CandLine m j _ _ _ _ _ _ _ _ => Some (m, j)
  | _ => None
  end.

(** The points of [pts1] with a candidate of [pts2] within the
    threshold. *)
Definition found_points (h : list F32.float) (pts1 pts2 : list SiftPoint)
  : list SiftPoint :=
  List.filter (fun a => existsb (Evaluator.near h a) pts2) pts1.

(** The verdict on the recorded correspondence of point [a], the
    [i]-th of the first set: none when its match index is not an index
    of [pts2]. *)
Definition recorded_verdict (h : list F32.float) (pts2 : list SiftPoint)
    (i : Z) (a : SiftPoint) : list (Z * Z * Evaluator.verdict) :=
  if match_ a <? 0 then []
  else match pts2 !! Z.to_nat (match_ a) with
       | Some b =>
           [(i, match_ a,
             if Evaluator.near h a b then Evaluator.Confirmed else Evaluator.Rejected)]
       | None => []
       end.

(** The verdicts on the recorded correspondences of the points of
    [pts1], numbered from [i] on. *)
Fixpoint recorded_verdicts (h : list F32.float) (i : Z)
    (pts1 pts2 : list SiftPoint) : list (Z * Z * Evaluator.verdict) :=
  match pts1 with
  | [] => []
  | a :: rest =>
      recorded_verdict h pts2 i a ++ recorded_verdicts h (i + 1) rest pts2
  end.

End Listing.

(** ** The real value of a floating-point number *)

Module Real.

(** [2^e] for an integer [e] of either sign. *)
Definition bpow (e : Z) : R := powerRZ 2 e.

(** The real number a finite value stands for; 0 for the others. *)
Definition B2R (x : spec_float) : R :=
  match x with
  | S754_finite s m e => (IZR (cond_Zopp s (Zpos m)) * bpow e)%R
  | _ => 0%R
  end.

End Real.


(** ** Rounding, stated over the reals *)

Module Grid.

Import Real.

(** The location of a value that is the lower end of its slot. *)
Definition is_exact (l : location) : bool :=
  match l with loc_Exact => true | _ => false end.

(** No bit set has been shifted out of the record: its round bit and
    its sticky bit are clear. *)
Definition rec_exact (mrs : shr_record) : bool :=
  negb (shr_r mrs || shr_s mrs).

(** The real [v] lies in the slot [m * 2^e <= v < (m+1) * 2^e]; [exact]
    tells whether it is the lower end of the slot. *)
Definition slot (m e : Z) (exact : bool) (v : R) : Prop :=
  (IZR m * bpow e <= v < IZR (m + 1) * bpow e)%R
  /\ (exact = true <-> v = (IZR m * bpow e)%R).

(** The magnitude of a float. *)
Definition absR (x : spec_float) : R := B2R (SFabs x).

(** A zero or a finite value of sign [s]. *)
Definition signed (s : bool) (r : spec_float) : Prop :=
  r = S754_zero s \/ exists m e, r = S754_finite s m e.

(** [r] is a faithful rounding of the magnitude [v] with sign [s]: on
    the grid [2^g], with [K * 2^g <= v < (K+1) * 2^g], its magnitude is
    [K * 2^g], or [(K+1) * 2^g] when [v] is not on the grid. *)
Definition rounds (s : bool) (v : R) (g K : Z) (r : spec_float) : Prop :=
  0 <= K < 2 ^ 24
  /\ (IZR K * bpow g <= v < IZR (K + 1) * bpow g)%R
  /\ signed s r
  /\ (absR r = (IZR K * bpow g)%R
      \/ (absR r = (IZR (K + 1) * bpow g)%R /\ (IZR K * bpow g < v)%R)).

(** The exponent of the grid on which [binary_round_aux] rounds
    [mx * 2^ex]. *)
Definition grid (mx ex : Z) : Z := Z.max ex (fexp 24 128 (Zdigits2 mx + ex)).

(** A zero, or a positive finite value with a binary32 mantissa and an
    exponent not below the least one. *)
Definition plain (x : spec_float) : Prop :=
  (exists s, x = S754_zero s)
  \/ exists m e, x = S754_finite false m e /\ Zpos m < 2 ^ 24 /\ -149 <= e.

End Grid.

(** ** Positions inside the image *)

Module Image.

(** The largest width and height for which the line loop is shown to
    stay inside the image. *)
Definition size_limit : Z := 2 ^ 20.

(** [0 <= x < n] for a coordinate [x]: a zero, or a positive binary32
    value whose integer part is below [n]. *)
Definition within (n : Z) (x : F32.float) : bool :=
  match x with
  | S754_zero _ => 0 <? n
  | S754_finite false _ _ =>
      F32.valid x && match Float.trunc x with
                     | Some t => t <? n
                     | None => false
                     end
  | _ => false
  end.

(** The position of a feature lies inside an image of [w] columns and
    [h] rows. *)
Definition inside (w h : Z) (p : SiftPoint) : bool :=
  within w (xpos p) && within h (ypos p).

End Image.

(** ** A large image

    An image of 4 columns and [2^28 - 15] rows, with a feature at
    [(0.25 + 3 * 2^-23, 0)] matched to [(4 - 2^-22, 2^28 - 16)]. *)

Module Large.

Definition w : Z := 4.
Definition h : Z := 268435441.

(** A feature at the position [(x, y)]. *)
Definition placed (x y : F32.float) : SiftPoint :=
  {| xpos := x; ypos := y;
     scale := F32.one; orientation := F32.zero;
     score := F32.zero; ambiguity := F32.zero;
     match_ := 0; match_error := F32.one;
     data := repeat F32.one 128 |}.

Definition source : SiftPoint :=
  placed (S754_finite false 8388620 (-25)) F32.zero.

Definition target : SiftPoint :=
  placed (S754_finite false 16777215 (-22)) (F32.of_int 268435440).

End Large.
(** * Proofs *)

(** ** Round-robin: proofs *)

Module Int32Facts.

Lemma wrap_in_range z : Int32.in_range z -> Int32.wrap z = z.
Proof.
  unfold Int32.in_range, Int32.wrap, Int32.min_int, Int32.max_int. intros Hz.
  rewrite Z.mod_small; lia.
Qed.

Lemma min_spec a b : Int32.min a b = Z.min a b.
Proof. unfold Int32.min. destruct (Z.ltb_spec b a); lia. Qed.

Lemma in_rangeb_spec z : Int32.in_rangeb z = true <-> Int32.in_range z.
Proof. unfold Int32.in_rangeb, Int32.in_range. lia. Qed.

Lemma elem_of_upto n k : k ∈ Int32.upto n <-> 0 <= k < n.
Proof. unfold Int32.upto. rewrite elem_of_seqZ. lia. Qed.

Lemma upto_nonpos n : n <= 0 -> Int32.upto n = [].
Proof. intros Hn. unfold Int32.upto, seqZ. destruct n; try lia; reflexivity. Qed.

Lemma length_upto n : length (Int32.upto n) = Z.to_nat n.
Proof. apply length_seqZ. Qed.

(** Wrapping an intermediate result does not change the wrapped
    final result. *)
Lemma wrap_sub_wrap a b : Int32.wrap (Int32.wrap a - b) = Int32.wrap (a - b).
Proof.
  unfold Int32.wrap. f_equal.
  replace ((a + 2 ^ 31) mod 2 ^ 32 - 2 ^ 31 - b + 2 ^ 31)
    with ((a + 2 ^ 31) mod 2 ^ 32 - b) by lia.
  rewrite Zminus_mod_idemp_l. f_equal. lia.
Qed.

End Int32Facts.

Module RoundRobinFacts.
Import RoundRobin.

Lemma run_cyclic w : 0 < w -> forall n c,
  0 <= c -> c + Z.of_nat n <= Int32.max_int ->
  run w n c = (cyclic w n c, c + Z.of_nat n).
Proof.
  intros Hw. induction n as [|n IH]; intros c Hc Hn.
  - simpl. f_equal. lia.
  - cbn [run select fetch_inc cyclic].
    assert (Hw1 : Int32.add c 1 = c + 1).
    { apply Int32Facts.wrap_in_range. unfold Int32.in_range, Int32.min_int. lia. }
    rewrite Hw1, IH by lia.
    unfold Int32.rem. rewrite Z.rem_mod_nonneg by lia.
    f_equal. lia.
Qed.

Lemma cyclic_bound w : 0 < w -> forall n c,
  Forall (fun t => 0 <= t < w) (cyclic w n c).
Proof.
  intros Hw. induction n as [|n IH]; intros c; simpl; constructor.
  - apply Z.mod_pos_bound; lia.
  - apply IH.
Qed.

Lemma cyclic_nth w n : forall c k, (k < n)%nat ->
  nth k (cyclic w n c) 0 = (c + Z.of_nat k) mod w.
Proof.
  induction n as [|n IH]; intros c k Hk; [lia|].
  destruct k as [|k]; simpl.
  - f_equal. lia.
  - rewrite IH by lia. f_equal. lia.
Qed.

Lemma cyclic_length w n c : length (cyclic w n c) = n.
Proof. revert c. induction n; intros; simpl; auto. Qed.

(** Counting from 0, slot [i] is hit once per full cycle, and once
    more when the last, incomplete cycle reaches it. *)
Lemma visits_cyclic w i : 0 <= i < w -> forall n c,
  0 <= c ->
  Z.of_nat (visits i (cyclic w n c)) =
    (c + Z.of_nat n + (w - 1 - i)) / w - (c + (w - 1 - i)) / w.
Proof.
  intros Hi. induction n as [|n IH]; intros c Hc.
  - simpl. rewrite Z.add_0_r. lia.
  - cbn [cyclic visits count_occ]. fold (visits i (cyclic w n (c + 1))).
    replace (c + Z.of_nat (S n) + (w - 1 - i))
      with (c + 1 + Z.of_nat n + (w - 1 - i)) by lia.
    assert (Hstep : (c + 1 + (w - 1 - i)) / w =
                    (c + (w - 1 - i)) / w + (if Z.eq_dec (c mod w) i then 1 else 0)).
    { pose proof (Z.div_mod c w ltac:(lia)) as Hc1.
      pose proof (Z.mod_pos_bound c w ltac:(lia)) as Hc2.
      set (q := c / w) in *. set (r := c mod w) in *.
      destruct (Z.eq_dec r i) as [E|E].
      - replace (c + 1 + (w - 1 - i)) with ((q + 1) * w + 0) by lia.
        replace (c + (w - 1 - i)) with (q * w + (w - 1)) by lia.
        rewrite !Z.div_add_l by lia.
        rewrite Z.div_0_l, Z.div_small by lia. lia.
      - destruct (Z_lt_le_dec r i).
        + replace (c + 1 + (w - 1 - i)) with (q * w + (r + w - i)) by lia.
          replace (c + (w - 1 - i)) with (q * w + (r + w - 1 - i)) by lia.
          rewrite !Z.div_add_l by lia.
          rewrite !Z.div_small by lia. lia.
        + replace (c + 1 + (w - 1 - i)) with ((q + 1) * w + (r - i)) by lia.
          replace (c + (w - 1 - i)) with ((q + 1) * w + (r - 1 - i)) by lia.
          rewrite !Z.div_add_l by lia.
          rewrite !Z.div_small by lia. lia. }
    destruct (Z.eq_dec (c mod w) i) as [E|E].
    + rewrite Nat2Z.inj_succ, IH by lia. lia.
    + rewrite IH by lia. lia.
Qed.

End RoundRobinFacts.

(** C2.  For a pool of [w] slots, [1 <= w <= 16], and [n] selections
    ([n] is the bound of a [parallel_for] over [int]), the slot indices
    drawn from the shared counter follow the cycle 0, 1, ..., w-1, 0, ...:
    the [k]-th is [k mod w]; none is negative or reaches [w]; every slot
    is selected [floor(n/w)] or [ceil(n/w)] times; and 4 slots over 8
    iterations give 0,1,2,3,0,1,2,3, two iterations per slot. *)
Theorem round_robin_cyclic (w : Z) (n : nat) :
  1 <= w <= 16 ->
  Z.of_nat n <= Int32.max_int ->
  RoundRobin.tids w n = RoundRobin.cyclic w n 0
  /\ length (RoundRobin.tids w n) = n
  /\ (forall k, (k < n)%nat -> nth k (RoundRobin.tids w n) 0 = Z.of_nat k mod w)
  /\ Forall (fun t => 0 <= t < w) (RoundRobin.tids w n)
  /\ (forall i, 0 <= i < w ->
        Z.of_nat (RoundRobin.visits i (RoundRobin.tids w n)) = Z.of_nat n / w
        \/ Z.of_nat (RoundRobin.visits i (RoundRobin.tids w n))
           = Spec.ceil_div (Z.of_nat n) w)
  /\ RoundRobin.tids 4 8 = [0; 1; 2; 3; 0; 1; 2; 3]
  /\ (forall i, 0 <= i < 4 -> RoundRobin.visits i (RoundRobin.tids 4 8) = 2%nat).
Proof.
  intros Hw Hn.
  assert (Htids : RoundRobin.tids w n = RoundRobin.cyclic w n 0).
  { unfold RoundRobin.tids. rewrite RoundRobinFacts.run_cyclic by lia. reflexivity. }
  rewrite Htids. repeat split.
  - apply RoundRobinFacts.cyclic_length.
  - intros k Hk. rewrite RoundRobinFacts.cyclic_nth by lia. reflexivity.
  - apply RoundRobinFacts.cyclic_bound. lia.
  - intros i Hi. rewrite RoundRobinFacts.visits_cyclic by lia.
    unfold Spec.ceil_div.
    rewrite (Z.div_small (0 + (w - 1 - i)) w) by lia.
    set (N := Z.of_nat n).
    assert (Hlo : N / w <= (0 + N + (w - 1 - i)) / w)
      by (apply Z.div_le_mono; lia).
    assert (Hhi : (0 + N + (w - 1 - i)) / w <= (N + w - 1) / w)
      by (apply Z.div_le_mono; lia).
    assert (Htop : (N + w - 1) / w <= N / w + 1).
    { replace (N / w + 1) with ((N + 1 * w) / w) by (rewrite Z.div_add by lia; lia).
      apply Z.div_le_mono; lia. }
    lia.
  - intros i Hi.
    assert (Hc : i = 0 \/ i = 1 \/ i = 2 \/ i = 3) by lia.
    destruct Hc as [-> | [-> | [-> | ->]]]; reflexivity.
Qed.

(** The benchmark scenario of the specification: 4 slots, 8
    iterations. *)
Lemma round_robin_cyclic_witness :
  RoundRobin.tids 4 8 = RoundRobin.cyclic 4 8 0
  /\ Forall (fun t => 0 <= t < 4) (RoundRobin.tids 4 8).
Proof.
  pose proof (round_robin_cyclic 4 8 ltac:(lia) ltac:(unfold Int32.max_int; lia))
    as (H1 & _ & _ & H2 & _).
  split; assumption.
Defined.


(** ** The correspondence listing: proofs *)

Module EvaluatorFacts.
Import Evaluator.

Lemma overwrite_fixed (h : list F32.float) :
  length h = 9%nat -> overwrite h = fixed (hom h 8).
Proof.
  intros Hlen.
  do 9 (destruct h as [|? h]; [discriminate Hlen|]).
  destruct h; [reflexivity | discriminate Hlen].
Qed.

Lemma overwrite_idem (h : list F32.float) : overwrite (overwrite h) = overwrite h.
Proof.
  do 9 (destruct h as [|? h]; [reflexivity|]). reflexivity.
Qed.

Lemma points_length (d : SiftData) :
  Int32.in_range (numPts d) -> Z.of_nat (length (points d)) <= Int32.max_int.
Proof.
  unfold points, Int32.in_range, Int32.min_int, Int32.max_int. intros Hr.
  rewrite length_take. lia.
Qed.

(** The line of a candidate that is the recorded match, or within the
    threshold, is printed. *)
Lemma candidates_line h p1 : forall pts2 j found k p2,
  pts2 !! k = Some p2 ->
  0 <= j -> j + Z.of_nat (length pts2) <= Int32.max_int ->
  near h p1 p2 || (j + Z.of_nat k =? match_ p1) = true ->
  cand_line h p1 (j + Z.of_nat k) p2 ∈ (candidates h p1 j pts2 found).2.
Proof.
  induction pts2 as [|q rest IH]; intros j found k p2 Hk Hj Hlen Hpr.
  - discriminate Hk.
  - cbn [candidates].
    destruct (candidates h p1 (Int32.add j 1) rest
                (if near h p1 q then true else found)) as [f out] eqn:E.
    cbn [snd]. apply elem_of_app.
    destruct k as [|k].
    + injection Hk as ->. left.
      replace (j + Z.of_nat 0) with j in * by lia.
      rewrite Hpr. apply list_elem_of_here.
    + right. cbn [lookup list_lookup] in Hk.
      assert (Hj1 : Int32.add j 1 = j + 1).
      { apply Int32Facts.wrap_in_range.
        unfold Int32.in_range, Int32.min_int. cbn [length] in Hlen. lia. }
      rewrite Hj1 in E.
      replace (j + Z.of_nat (S k)) with (j + 1 + Z.of_nat k) in * by lia.
      specialize (IH (j + 1) (if near h p1 q then true else found) k p2 Hk).
      rewrite E in IH. apply IH; [lia | cbn [length] in Hlen; lia | exact Hpr].
Qed.

(** The flag [found] is raised exactly by a candidate within the
    threshold. *)
Lemma candidates_found h p1 : forall pts2 j found,
  (candidates h p1 j pts2 found).1
  = found || existsb (near h p1) pts2.
Proof.
  induction pts2 as [|q rest IH]; intros j found.
  - cbn. rewrite orb_false_r. reflexivity.
  - cbn [candidates existsb].
    specialize (IH (Int32.add j 1) (if near h p1 q then true else found)).
    destruct (candidates h p1 (Int32.add j 1) rest _) as [f out].
    cbn [fst] in *. rewrite IH.
    destruct (near h p1 q), found; reflexivity.
Qed.

Lemma each_point_lines h pts2 : forall pts1 i numFound k p1,
  pts1 !! k = Some p1 ->
  forall line, line ∈ (candidates h p1 0 pts2 false).2 ->
  line ∈ (each_point h i pts1 pts2 numFound).2.
Proof.
  induction pts1 as [|q rest IH]; intros i numFound k p1 Hk line Hline.
  - discriminate Hk.
  - cbn [each_point].
    destruct (candidates h q 0 pts2 false) as [found lines] eqn:Ec.
    destruct (each_point h (Int32.add i 1) rest pts2
                (if found then Int32.add numFound 1 else numFound))
      as [nf out] eqn:Ee.
    cbn [snd]. apply list_elem_of_further, elem_of_app.
    destruct k as [|k].
    + injection Hk as ->. rewrite Ec in Hline. left. exact Hline.
    + right. apply list_elem_of_further.
      specialize (IH (Int32.add i 1)
                    (if found then Int32.add numFound 1 else numFound)
                    k p1 Hk line Hline).
      rewrite Ee in IH. exact IH.
Qed.

Lemma listing_line h s1 s2 i j p1 p2 :
  Int32.in_range (numPts s2) ->
  points s1 !! i = Some p1 ->
  points s2 !! j = Some p2 ->
  near h p1 p2 || (Z.of_nat j =? match_ p1) = true ->
  cand_line h p1 (Z.of_nat j) p2 ∈ listing s1 s2 h.
Proof.
  intros Hr H1 H2 Hpr. unfold listing.
  destruct (each_point h 0 (points s1) (points s2) 0) as [nf out] eqn:E.
  apply elem_of_app. left.
  pose proof (each_point_lines h (points s2) (points s1) 0 0 i p1 H1
                (cand_line h p1 (Z.of_nat j) p2)) as Hin.
  rewrite E in Hin. apply Hin.
  pose proof (points_length s2 Hr).
  apply (candidates_line h p1 (points s2) 0 false j p2 H2); [lia | lia | exact Hpr].
Qed.

End EvaluatorFacts.

(** C9.  [MatchAll] stores (-1, 0, 1279, 0, -1, 959, 0, 0) into
    coefficients 0 to 7 of the caller's array before it evaluates
    anything and leaves coefficient 8 as passed: what it prints is the
    listing for that array, so of the caller's transform only the last
    coefficient has any effect. *)
Theorem MatchAll_overwrites_homography
    (siftData1 siftData2 : SiftData) (homography : list F32.float) :
  length homography = 9%nat ->
  (Evaluator.MatchAll siftData1 siftData2 homography).2
    = [F32.minus_one; F32.zero; F32.c1279;
       F32.zero; F32.minus_one; F32.c959;
       F32.zero; F32.zero; Evaluator.hom homography 8]
  /\ (Evaluator.MatchAll siftData1 siftData2 homography).1
    = Evaluator.listing siftData1 siftData2
        [F32.minus_one; F32.zero; F32.c1279;
         F32.zero; F32.minus_one; F32.c959;
         F32.zero; F32.zero; Evaluator.hom homography 8]
  /\ (forall homography' : list F32.float,
        length homography' = 9%nat ->
        Evaluator.hom homography' 8 = Evaluator.hom homography 8 ->
        Evaluator.MatchAll siftData1 siftData2 homography'
        = Evaluator.MatchAll siftData1 siftData2 homography).
Proof.
  intros Hlen. unfold Evaluator.MatchAll. cbn [fst snd].
  rewrite (EvaluatorFacts.overwrite_fixed homography Hlen).
  repeat split.
  intros h' Hlen' H8.
  rewrite (EvaluatorFacts.overwrite_fixed h' Hlen'), H8. reflexivity.
Qed.


(** C7.  [MatchAll] has no source of randomness and keeps no state but
    the caller's array: a second run on the same feature sets and on the
    array as the first run left it prints the same listing, the same
    marks and the same error values, and leaves the same array. *)
Theorem MatchAll_reproducible
    (siftData1 siftData2 : SiftData) (homography : list F32.float) :
  let first := Evaluator.MatchAll siftData1 siftData2 homography in
  let second := Evaluator.MatchAll siftData1 siftData2 first.2 in
  second.1 = first.1
  /\ second.2 = first.2
  /\ Evaluator.verdicts 0 second.1 = Evaluator.verdicts 0 first.1
  /\ (forall p1 p2,
        Evaluator.err second.2 p1 p2 = Evaluator.err first.2 p1 p2
        /\ Evaluator.near second.2 p1 p2 = Evaluator.near first.2 p1 p2).
Proof.
  cbv zeta. unfold Evaluator.MatchAll. cbn [fst snd].
  rewrite EvaluatorFacts.overwrite_idem. repeat split.
Qed.

(** C6, as the code has it.  For a point [a] of the first set whose
    recorded match index designates a point [b] of the second set,
    [MatchAll] computes the denominator, the projection and the squared
    error by the stated formulas, where [h k] is [homography[k]] as the
    loop reads it: the constants (-1, 0, 1279, 0, -1, 959, 0, 0) that
    [MatchAll] has stored itself for [k < 8], and the caller's value for
    [k = 8].  The line of that candidate is printed, marked confirmed
    exactly when [err < 100.0f] and rejected otherwise. *)
Theorem MatchAll_recorded_match
    (siftData1 siftData2 : SiftData) (homography : list F32.float)
    (i : nat) (a b : SiftPoint) :
  length homography = 9%nat ->
  Int32.in_range (numPts siftData2) ->
  points siftData1 !! i = Some a ->
  0 <= match_ a ->
  points siftData2 !! Z.to_nat (match_ a) = Some b ->
  let h := Evaluator.hom (Evaluator.MatchAll siftData1 siftData2 homography).2 in
  let denom :=
    F32.add (F32.add (F32.mul (h 6%nat) (xpos a)) (F32.mul (h 7%nat) (ypos a)))
            (h 8%nat) in
  let projX :=
    F32.div (F32.add (F32.add (F32.mul (h 0%nat) (xpos a)) (F32.mul (h 1%nat) (ypos a)))
                     (h 2%nat)) denom in
  let projY :=
    F32.div (F32.add (F32.add (F32.mul (h 3%nat) (xpos a)) (F32.mul (h 4%nat) (ypos a)))
                     (h 5%nat)) denom in
  let dx := F32.sub projX (xpos b) in
  let dy := F32.sub projY (ypos b) in
  let err := F32.add (F32.mul dx dx) (F32.mul dy dy) in
  let m := if F32.ltb err F32.c100 then Evaluator.MatchNear else Evaluator.MatchFar in
  Evaluator.CandLine m (match_ a) (Evaluator.dot (data a) (data b))
      (Float.to_int (F64.sqrt (F64.of_float err))) (scale b) (Float.to_int (orientation b))
      (xpos b) (ypos b) (Float.to_int dx) (Float.to_int dy)
    ∈ (Evaluator.MatchAll siftData1 siftData2 homography).1
  /\ Evaluator.verdict_of_mark m
     = Some (if F32.ltb err F32.c100 then Evaluator.Confirmed else Evaluator.Rejected)
  /\ (Evaluator.verdict_of_mark m = Some Evaluator.Confirmed
      <-> F32.ltb err F32.c100 = true)
  /\ [h 0%nat; h 1%nat; h 2%nat; h 3%nat; h 4%nat; h 5%nat; h 6%nat; h 7%nat; h 8%nat]
     = [F32.minus_one; F32.zero; F32.c1279;
        F32.zero; F32.minus_one; F32.c959;
        F32.zero; F32.zero; Evaluator.hom homography 8].
Proof.
  intros Hlen Hr Ha Hm Hb. cbv zeta.
  split; [|split; [|split; [|
    unfold Evaluator.MatchAll; cbn [snd];
    rewrite (EvaluatorFacts.overwrite_fixed homography Hlen); reflexivity]]].
  - unfold Evaluator.MatchAll. cbn [fst snd].
    pose proof (EvaluatorFacts.listing_line (Evaluator.overwrite homography)
                  siftData1 siftData2 i (Z.to_nat (match_ a)) a b Hr Ha Hb) as Hin.
    rewrite Z2Nat.id in Hin by exact Hm.
    rewrite Z.eqb_refl, orb_true_r in Hin. specialize (Hin eq_refl).
    unfold Evaluator.cand_line in Hin.
    rewrite Z.eqb_refl in Hin. unfold Evaluator.mark_of in Hin.
    cbn [andb] in Hin.
    unfold Evaluator.near in Hin. exact Hin.
  - destruct (F32.ltb _ F32.c100); reflexivity.
  - destruct (F32.ltb _ F32.c100); cbn; split; intros H;
      try reflexivity; discriminate H.
Qed.

(** The identity transform handed to [MatchAll]. *)
Lemma MatchAll_overwrites_homography_witness :
  (Evaluator.MatchAll Scenario.setA Scenario.setB Scenario.identity).2
  = [F32.minus_one; F32.zero; F32.c1279;
     F32.zero; F32.minus_one; F32.c959;
     F32.zero; F32.zero; F32.one].
Proof.
  exact (proj1 (MatchAll_overwrites_homography
                  Scenario.setA Scenario.setB Scenario.identity eq_refl)).
Defined.

(** The first point of the end-to-end scenario, under the identity. *)
Lemma MatchAll_recorded_match_witness :
  Evaluator.verdicts 0
    (Evaluator.MatchAll Scenario.setA Scenario.setB Scenario.identity).1
  <> []
  /\ exists line,
      line ∈ (Evaluator.MatchAll Scenario.setA Scenario.setB Scenario.identity).1.
Proof.
  split; [vm_compute; discriminate|].
  eexists.
  exact (proj1 (MatchAll_recorded_match
                  Scenario.setA Scenario.setB Scenario.identity
                  0 Scenario.a0 Scenario.b0
                  eq_refl
                  ltac:(apply Int32Facts.in_rangeb_spec; reflexivity)
                  eq_refl
                  ltac:(cbn; lia)
                  eq_refl)).
Defined.

(** C6 fails as stated: in the end-to-end scenario of the
    specification (identity transform, both points matched 5 pixels
    away, threshold 100) the stated formulas, evaluated with the
    coefficients of the transform passed in, confirm both
    correspondences, while [MatchAll], which evaluates them with the
    coefficients it has stored itself, rejects both and finds none. *)
Lemma MatchAll_ignores_identity :
  Spec.evaluate Scenario.identity F32.c100 Scenario.a0 Scenario.b0
    = Evaluator.Confirmed
  /\ Spec.evaluate Scenario.identity F32.c100 Scenario.a1 Scenario.b1
    = Evaluator.Confirmed
  /\ Evaluator.verdicts 0
       (Evaluator.MatchAll Scenario.setA Scenario.setB Scenario.identity).1
     = [(0, 0, Evaluator.Rejected); (1, 1, Evaluator.Rejected)]
  /\ Evaluator.finds
       (Evaluator.MatchAll Scenario.setA Scenario.setB Scenario.identity).1
     = Some 0.
Proof. repeat split; vm_compute; reflexivity. Qed.


(** ** Infinities and NaN through the arithmetic of [MatchAll] *)

Module FloatFacts.

Import Float.

Ltac float_cases :=
  repeat match goal with
    | H : inf_or_nan _ |- _ => destruct H as [[? ->] | ->]
    | H : pinf_or_nan _ |- _ => destruct H as [-> | ->]
    | s : bool |- _ => destruct s
    end;
  cbn; unfold inf_or_nan, pinf_or_nan; eauto.

Lemma div_zero (x : spec_float) (s : bool) :
  inf_or_nan (F32.div x (S754_zero s)).
Proof. destruct x as [sx | sx | | sx mx ex]; float_cases. Qed.

Lemma sub_inf_or_nan (x y : spec_float) :
  inf_or_nan x -> inf_or_nan (F32.sub x y).
Proof. intros Hx. destruct y as [sy | sy | | sy my ey]; float_cases. Qed.

Lemma mul_self (x : spec_float) : inf_or_nan x -> pinf_or_nan (F32.mul x x).
Proof. intros Hx. float_cases. Qed.

Lemma add_pinf (x y : spec_float) :
  pinf_or_nan x -> pinf_or_nan y -> pinf_or_nan (F32.add x y).
Proof. intros Hx Hy. float_cases. Qed.

Lemma ltb_pinf (x y : spec_float) : pinf_or_nan x -> F32.ltb x y = false.
Proof. intros Hx. destruct y as [sy | sy | | sy my ey]; float_cases. Qed.

Lemma to_int_inf_or_nan (x : spec_float) : inf_or_nan x -> Float.to_int x = None.
Proof. intros Hx. float_cases. Qed.

Lemma sqrt_pinf (x : spec_float) :
  pinf_or_nan x -> pinf_or_nan (F64.sqrt (F64.of_float x)).
Proof. intros Hx. float_cases. Qed.

Lemma pinf_inf (x : spec_float) : pinf_or_nan x -> inf_or_nan x.
Proof. intros [-> | ->]; unfold inf_or_nan; eauto. Qed.

End FloatFacts.

(** C1, as the code has it.  When the denominator of a point is a zero,
    [MatchAll] divides all the same: the projection is an infinity or
    NaN, so are [dx] and [dy], and [err] is plus infinity or NaN.  The
    test [err < 100.0f] is then false for every candidate: [found] stays
    false for the point, and the line of the recorded match is marked
    rejected.  The
    three values that line prints through [(int)] are casts of an
    infinity or NaN, which have no defined result. *)
Theorem MatchAll_zero_denominator
    (siftData1 siftData2 : SiftData) (homography : list F32.float)
    (i j : nat) (a b : SiftPoint) (s : bool) :
  Int32.in_range (numPts siftData2) ->
  points siftData1 !! i = Some a ->
  points siftData2 !! j = Some b ->
  let h := (Evaluator.MatchAll siftData1 siftData2 homography).2 in
  Evaluator.den h a = S754_zero s ->
  (Evaluator.err h a b = S754_infinity false \/ Evaluator.err h a b = S754_nan)
  /\ Evaluator.near h a b = false
  /\ (Evaluator.candidates h a 0 (points siftData2) false).1 = false
  /\ Float.to_int (F64.sqrt (F64.of_float (Evaluator.err h a b))) = None
  /\ Float.to_int (Evaluator.dx h a b) = None
  /\ Float.to_int (Evaluator.dy h a b) = None
  /\ (Z.of_nat j = match_ a ->
      Evaluator.CandLine Evaluator.MatchFar (Z.of_nat j)
          (Evaluator.dot (data a) (data b)) None
          (scale b) (Float.to_int (orientation b)) (xpos b) (ypos b) None None
        ∈ (Evaluator.MatchAll siftData1 siftData2 homography).1).
Proof.
  intros Hr Ha Hb h Hden.
  assert (Hdx : forall c, Float.inf_or_nan (Evaluator.dx h a c)).
  { intros c. unfold Evaluator.dx, Evaluator.proj_x. rewrite Hden.
    apply FloatFacts.sub_inf_or_nan, FloatFacts.div_zero. }
  assert (Hdy : forall c, Float.inf_or_nan (Evaluator.dy h a c)).
  { intros c. unfold Evaluator.dy, Evaluator.proj_y. rewrite Hden.
    apply FloatFacts.sub_inf_or_nan, FloatFacts.div_zero. }
  assert (Herrs : forall c, Float.pinf_or_nan (Evaluator.err h a c)).
  { intros c. unfold Evaluator.err.
    apply FloatFacts.add_pinf; apply FloatFacts.mul_self; auto. }
  assert (Hnears : forall c, Evaluator.near h a c = false)
    by (intros c; apply FloatFacts.ltb_pinf, Herrs).
  assert (Hfound : (Evaluator.candidates h a 0 (points siftData2) false).1 = false).
  { rewrite EvaluatorFacts.candidates_found. cbn [orb].
    generalize (points siftData2). intros l.
    induction l as [|c rest IH]; [reflexivity|].
    cbn [existsb]. rewrite Hnears, IH. reflexivity. }
  specialize (Hdx b). specialize (Hdy b).
  pose proof (Herrs b) as Herr. pose proof (Hnears b) as Hnear.
  assert (Hroot : Float.to_int (F64.sqrt (F64.of_float (Evaluator.err h a b))) = None)
    by (apply FloatFacts.to_int_inf_or_nan, FloatFacts.pinf_inf, FloatFacts.sqrt_pinf, Herr).
  pose proof (FloatFacts.to_int_inf_or_nan _ Hdx) as Hidx.
  pose proof (FloatFacts.to_int_inf_or_nan _ Hdy) as Hidy.
  repeat split; try assumption.
  intros Hj.
  pose proof (EvaluatorFacts.listing_line h siftData1 siftData2 i j a b Hr Ha Hb) as Hin.
  rewrite Hj, Z.eqb_refl, orb_true_r in Hin. specialize (Hin eq_refl).
  unfold Evaluator.cand_line in Hin.
  rewrite Z.eqb_refl, Hnear, Hroot, Hidx, Hidy in Hin. cbn in Hin.
  rewrite Hj. exact Hin.
Qed.


(** A singular transform, and the point of the first set at the pixel
    (1279, 959). *)
Lemma MatchAll_zero_denominator_witness :
  Evaluator.near
    (Evaluator.MatchAll (Scenario.set_of [Scenario.corner]) Scenario.setB
                        Scenario.singular).2
    Scenario.corner Scenario.b0 = false.
Proof.
  pose proof (MatchAll_zero_denominator
                (Scenario.set_of [Scenario.corner]) Scenario.setB Scenario.singular
                0 0 Scenario.corner Scenario.b0 false
                ltac:(apply Int32Facts.in_rangeb_spec; reflexivity) eq_refl eq_refl eq_refl)
    as (_ & H & _).
  exact H.
Defined.

(** C1 fails as stated: with a last coefficient of zero, the point at
    (1279, 959) has a zero denominator and zero numerators; [MatchAll]
    has no guard, [dx], [dy] and [err] are NaN rather than an infinite
    error, and the line printed for the recorded match is made of casts
    of these NaN. *)
Lemma MatchAll_zero_denominator_nan :
  let h := (Evaluator.MatchAll (Scenario.set_of [Scenario.corner]) Scenario.setB
                               Scenario.singular).2 in
  Evaluator.den h Scenario.corner = S754_zero false
  /\ Evaluator.err h Scenario.corner Scenario.b0 = S754_nan
  /\ ~ Spec.zero_den_is_infinite_error h Scenario.corner Scenario.b0
  /\ Spec.nan_free h Scenario.corner Scenario.b0 = false
  /\ Evaluator.CandLine Evaluator.MatchFar 0 (F32.of_int 128) None
       (F32.of_int 1) (Some 0) (F32.of_int 15) (F32.of_int 15) None None
     ∈ (Evaluator.MatchAll (Scenario.set_of [Scenario.corner]) Scenario.setB
                           Scenario.singular).1.
Proof.
  cbv zeta.
  assert (Hden : Evaluator.den
            (Evaluator.MatchAll (Scenario.set_of [Scenario.corner]) Scenario.setB
                                Scenario.singular).2 Scenario.corner
          = S754_zero false) by (vm_compute; reflexivity).
  assert (Herr : Evaluator.err
            (Evaluator.MatchAll (Scenario.set_of [Scenario.corner]) Scenario.setB
                                Scenario.singular).2 Scenario.corner Scenario.b0
          = S754_nan) by (vm_compute; reflexivity).
  split; [exact Hden|]. split; [exact Herr|]. split; [|split].
  - intros Hspec. unfold Spec.zero_den_is_infinite_error in Hspec.
    rewrite Herr in Hspec. specialize (Hspec (ex_intro _ false Hden)).
    discriminate Hspec.
  - vm_compute. reflexivity.
  - vm_compute. apply list_elem_of_further, list_elem_of_here.
Qed.


(** ** Truncation of small values *)

Module TruncFacts.

Lemma digits2_pos_bound (m : positive) : Zpos m < 2 ^ Zpos (digits2_pos m).
Proof.
  induction m as [m IH | m IH |]; cbn [digits2_pos].
  - rewrite Pos2Z.inj_succ, Z.pow_succ_r by lia. lia.
  - rewrite Pos2Z.inj_succ, Z.pow_succ_r by lia. lia.
  - reflexivity.
Qed.

(** A binary32 mantissa has at most 24 digits. *)
Lemma valid_mantissa (s : bool) (m : positive) (e : Z) :
  F32.valid (S754_finite s m e) = true -> Zpos m < 2 ^ 24.
Proof.
  unfold F32.valid, valid_binary, bounded, canonical_mantissa, fexp, emin,
    F32.prec, F32.emax.
  intros Hv. apply andb_true_iff in Hv as [Hc _]. apply Z.eqb_eq in Hc.
  pose proof (digits2_pos_bound m) as Hd.
  assert (Hle : Zpos (digits2_pos m) <= 24) by lia.
  eapply Z.lt_le_trans; [exact Hd|].
  apply Z.pow_le_mono_r; lia.
Qed.

(** A magnitude below 1 truncates to 0. *)
Lemma to_int_abs_small (x : F32.float) :
  F32.valid x = true ->
  F32.ltb (F32.abs x) F32.one = true ->
  Float.to_int (F32.abs x) = Some 0.
Proof.
  intros Hv Hlt. destruct x as [s | s | | s m e]; try discriminate Hlt.
  - reflexivity.
  - pose proof (valid_mantissa s m e Hv) as Hm.
    unfold F32.ltb, SFltb, F32.abs, SFabs, F32.one, SFcompare in Hlt.
    destruct (Z.compare_spec e (-23)) as [He | He | He]; try discriminate Hlt.
    + subst e. destruct (Pos.compare_cont Eq m 8388608) eqn:Hc; try discriminate Hlt.
      assert (Hc' : (m < 8388608)%positive) by exact Hc.
      unfold Float.to_int, F32.abs, SFabs, Float.trunc. cbn [cond_Zopp mbind option_bind].
      change (2 ^ Z.pos 23) with 8388608.
      rewrite Z.div_small by lia. reflexivity.
    + destruct e as [|k|k]; try lia.
      unfold Float.to_int, F32.abs, SFabs, Float.trunc. cbn [cond_Zopp mbind option_bind].
      rewrite Z.div_small; [reflexivity|].
      split; [lia|]. eapply Z.lt_le_trans; [exact Hm|].
      apply Z.pow_le_mono_r; lia.
Qed.

End TruncFacts.

(** C10.  When both [|dx|] and [|dy|] are below 1, [len] is 0, the loop
    of lines 281-285 makes no iteration and no store; and whatever
    [len] is, its body, where the two divisions by [len] are, runs only
    for [0 <= l < len], hence never with [len = 0]. *)
Theorem line_no_step_no_division (w : Z) (p1 p2 : SiftPoint) :
  let dx := F32.sub (xpos p2) (xpos p1) in
  let dy := F32.sub (ypos p2) (ypos p1) in
  F32.valid dx = true ->
  F32.valid dy = true ->
  F32.ltb (F32.abs dx) F32.one = true ->
  F32.ltb (F32.abs dy) F32.one = true ->
  Renderer.line_len dx dy = Some 0
  /\ Int32.upto 0 = []
  /\ Renderer.line_writes w p1 p2 = Some []
  /\ (forall len l, l ∈ Int32.upto len -> 0 <= l < len /\ len <> 0).
Proof.
  intros dx dy Hvx Hvy Hx Hy.
  assert (Hlen : Renderer.line_len dx dy = Some 0).
  { unfold Renderer.line_len.
    destruct (F32.ltb (F32.abs dy) (F32.abs dx));
      apply TruncFacts.to_int_abs_small; assumption. }
  split; [exact Hlen|]. split; [reflexivity|]. split.
  - unfold Renderer.line_writes. fold dx dy. rewrite Hlen. reflexivity.
  - intros len l Hl. apply Int32Facts.elem_of_upto in Hl. lia.
Qed.

(** A match a quarter of a pixel to the right and half a pixel up. *)
Lemma line_no_step_no_division_witness :
  Renderer.line_writes 100
    (Scenario.feature 10 10 1 0 1)
    {| xpos := F32.add (F32.of_int 10) (F32.div F32.one (F32.of_int 4));
       ypos := F32.sub (F32.of_int 10) (F32.div F32.one (F32.of_int 2));
       scale := F32.one; orientation := F32.zero; score := F32.zero;
       ambiguity := F32.zero; match_ := 0; match_error := F32.one; data := [] |}
  = Some [].
Proof.
  refine (proj1 (proj2 (proj2 (line_no_step_no_division 100 _ _ _ _ _ _))));
    vm_compute; reflexivity.
Defined.


(** ** The match line: proofs *)

Module LineFacts.

(** Inside the image, the offset [y*w + x] is computed without
    wrap-around and lies inside the buffer. *)
Lemma offset_in_buffer (w h x y : Z) :
  0 < w -> 0 < h -> w * h <= Int32.max_int ->
  0 <= x < w -> 0 <= y < h ->
  Int32.add (Int32.mul y w) x = y * w + x /\ 0 <= y * w + x < w * h.
Proof.
  intros Hw Hh Hwh Hx Hy.
  assert (Hyw : 0 <= y * w <= (h - 1) * w).
  { split; [apply Z.mul_nonneg_nonneg; lia|].
    apply Z.mul_le_mono_nonneg_r; lia. }
  assert (Hexp : (h - 1) * w = w * h - w) by ring.
  unfold Int32.add, Int32.mul.
  rewrite (Int32Facts.wrap_in_range (y * w))
    by (unfold Int32.in_range, Int32.min_int, Int32.max_int in *; lia).
  rewrite Int32Facts.wrap_in_range
    by (unfold Int32.in_range, Int32.min_int, Int32.max_int in *; lia).
  lia.
Qed.

Lemma line_step_inv (w : Z) (p1 : SiftPoint) (dx dy : F32.float) (len l : Z)
    (wr : Renderer.write) :
  Renderer.line_step w p1 dx dy len l = Some wr ->
  exists x y,
    Renderer.interp (xpos p1) dx l len = Some x
    /\ Renderer.interp (ypos p1) dy l len = Some y
    /\ wr = (Int32.add (Int32.mul y w) x, F32.c255).
Proof.
  unfold Renderer.line_step. intros H.
  destruct (Renderer.interp (xpos p1) dx l len) as [x|]; [|discriminate H].
  destruct (Renderer.interp (ypos p1) dy l len) as [y|]; [|discriminate H].
  cbn in H. injection H as <-. eauto.
Qed.

End LineFacts.

(** C3 fails as stated: in a 4 x 4 image, the line from the feature at
    (1, 1) to its match at (1, 9) is drawn down to row 8; the stores at
    offsets 17 to 33 are outside the 16 pixels of the buffer, and
    nothing clamps or skips them. *)
Lemma line_leaves_buffer :
  Renderer.line_writes 4 (Scenario.feature 1 1 1 0 1) (Scenario.feature 1 9 1 0 1)
  = Some [(5, F32.c255); (9, F32.c255); (13, F32.c255); (17, F32.c255);
          (21, F32.c255); (25, F32.c255); (29, F32.c255); (33, F32.c255)]
  /\ (exists ws wr,
        Renderer.writes (Scenario.set_of [Scenario.feature 1 1 1 0 1])
                        (Scenario.set_of [Scenario.feature 1 9 1 0 1])
                        (Scenario.blank 4 4) = Some ws
        /\ wr ∈ ws /\ ~ Spec.in_buffer 4 4 wr)
  /\ Renderer.PrintMatchData (Scenario.set_of [Scenario.feature 1 1 1 0 1])
                             (Scenario.set_of [Scenario.feature 1 9 1 0 1])
                             (Scenario.blank 4 4) = None.
Proof.
  split; [vm_compute; reflexivity|]. split; [|vm_compute; reflexivity].
  eexists. exists (33, F32.c255). split; [vm_compute; reflexivity|]. split.
  - do 7 apply list_elem_of_further. apply list_elem_of_here.
  - unfold Spec.in_buffer. cbn [fst]. lia.
Qed.


(** ** The marker: proofs *)

Module MarkerFacts.

Lemma store_all_snoc (buf : list F32.float) (ws : list Renderer.write)
    (wr : Renderer.write) :
  Renderer.store_all buf (ws ++ [wr])
  = b ← Renderer.store_all buf ws; Renderer.store b wr.
Proof. unfold Renderer.store_all. rewrite foldl_app. reflexivity. Qed.

Lemma store_lookup_eq (buf buf' : list F32.float) (wr : Renderer.write) :
  Renderer.store buf wr = Some buf' -> buf' !! Z.to_nat wr.1 = Some wr.2.
Proof.
  unfold Renderer.store. intros H.
  destruct ((0 <=? wr.1) && (wr.1 <? Z.of_nat (length buf))) eqn:E;
    [|discriminate H].
  injection H as <-. apply andb_true_iff in E.
  apply list_lookup_insert_eq. lia.
Qed.

Lemma store_lookup_ne (buf buf' : list F32.float) (wr : Renderer.write) (off : Z) :
  Renderer.store buf wr = Some buf' -> 0 <= off -> off <> wr.1 ->
  buf' !! Z.to_nat off = buf !! Z.to_nat off.
Proof.
  unfold Renderer.store. intros H Hoff Hne.
  destruct ((0 <=? wr.1) && (wr.1 <? Z.of_nat (length buf))) eqn:E;
    [|discriminate H].
  injection H as <-. apply andb_true_iff in E.
  apply list_lookup_insert_ne. lia.
Qed.

Lemma store_nonneg (buf buf' : list F32.float) (wr : Renderer.write) :
  Renderer.store buf wr = Some buf' -> 0 <= wr.1.
Proof.
  unfold Renderer.store. intros H.
  destruct ((0 <=? wr.1) && (wr.1 <? Z.of_nat (length buf))) eqn:E;
    [|discriminate H].
  apply andb_true_iff in E. lia.
Qed.

(** After a run of stores that ends with stores of one value [v], a
    pixel stored to in that last part holds [v]. *)
Lemma store_all_last (v : F32.float) (ws1 : list Renderer.write) :
  forall (ws2 : list Renderer.write) (buf buf' : list F32.float) (off : Z),
  Forall (fun wr => wr.2 = v) ws2 ->
  Renderer.store_all buf (ws1 ++ ws2) = Some buf' ->
  (exists wr, wr ∈ ws2 /\ wr.1 = off) ->
  buf' !! Z.to_nat off = Some v.
Proof.
  induction ws2 as [|wr ws2 IH] using rev_ind;
    intros buf buf' off Hv Hst (wr0 & Hin & Hoff).
  - inversion Hin.
  - rewrite List.app_assoc, store_all_snoc in Hst.
    destruct (Renderer.store_all buf (ws1 ++ ws2)) as [b|] eqn:Hb;
      [|discriminate Hst].
    cbn in Hst.
    apply Forall_app in Hv as [Hv2 Hv1].
    apply (proj1 (Forall_singleton _ _)) in Hv1. cbn beta in Hv1.
    destruct (Z.eq_dec off wr.1) as [-> | Hne].
    + rewrite <- Hv1. eapply store_lookup_eq; eassumption.
    + apply elem_of_app in Hin as [Hin | Hin].
      * assert (Hnn : 0 <= off).
        { clear IH. subst off.
          revert Hb Hin. clear. revert b.
          induction ws2 as [|q ws2 IH] using rev_ind; intros b Hb Hin.
          - inversion Hin.
          - rewrite List.app_assoc, store_all_snoc in Hb.
            destruct (Renderer.store_all buf (ws1 ++ ws2)) as [b0|] eqn:Hb0;
              [|discriminate Hb].
            cbn in Hb. apply elem_of_app in Hin as [Hin | Hin].
            + eapply IH; eauto.
            + apply list_elem_of_singleton in Hin as ->.
              eapply store_nonneg; eassumption. }
        rewrite (store_lookup_ne b buf' wr off Hst Hnn Hne).
        eapply IH; eauto.
      * apply list_elem_of_singleton in Hin as ->. congruence.
Qed.

Lemma pass_value (w p s : Z) (v : F32.float) :
  Forall (fun wr : Renderer.write => wr.2 = v) (Renderer.pass w p s v).
Proof.
  apply Forall_forall. intros wr Hin.
  apply list_elem_of_In in Hin. unfold Renderer.pass in Hin.
  apply in_flat_map in Hin as (k & _ & Hk).
  unfold Renderer.arm in Hk. cbn in Hk.
  destruct Hk as [<- | [<- | [<- | [<- | []]]]]; reflexivity.
Qed.

Lemma wrap_idem (z : Z) : Int32.wrap (Int32.wrap z) = Int32.wrap z.
Proof.
  apply Int32Facts.wrap_in_range.
  unfold Int32.in_range, Int32.wrap, Int32.min_int, Int32.max_int.
  pose proof (Z.mod_pos_bound (z + 2 ^ 31) (2 ^ 32) ltac:(lia)). lia.
Qed.

(** The second pass is centred on the point again. *)
Lemma second_centre (a b c : Z) :
  Int32.sub (Int32.add (Int32.add a b) c) c = Int32.add a b.
Proof.
  unfold Int32.sub, Int32.add.
  rewrite Int32Facts.wrap_sub_wrap.
  replace (Int32.wrap (a + b) + c - c) with (Int32.wrap (a + b)) by lia.
  apply wrap_idem.
Qed.

End MarkerFacts.

(** C5, as the code has it.  The two passes have the same radius [s];
    the pass of zero intensity, centred one row and one column after
    the point, is drawn first, and the pass of maximal intensity,
    centred on the point, second: a pixel of the second pass ends at
    maximal intensity, also where the two passes overlap. *)
Theorem marker_zero_then_max (w x y s : Z) (buf buf' : list F32.float)
    (wr : Renderer.write) :
  let p := Int32.add (Int32.mul y w) x in
  Renderer.store_all buf (Renderer.marker_passes w x y s) = Some buf' ->
  wr ∈ Renderer.pass w p s F32.c255 ->
  Renderer.marker_passes w x y s
  = Renderer.pass w (Int32.add p (Int32.add w 1)) s F32.zero
    ++ Renderer.pass w p s F32.c255
  /\ buf' !! Z.to_nat wr.1 = Some F32.c255.
Proof.
  intros p Hst Hwr.
  assert (Heq : Renderer.marker_passes w x y s
                = Renderer.pass w (Int32.add p (Int32.add w 1)) s F32.zero
                  ++ Renderer.pass w p s F32.c255).
  { unfold Renderer.marker_passes, p.
    rewrite MarkerFacts.second_centre. reflexivity. }
  split; [exact Heq|].
  rewrite Heq in Hst.
  eapply MarkerFacts.store_all_last; [apply MarkerFacts.pass_value | exact Hst | eauto].
Qed.


(** The marker of radius 2 at (4, 4) in a blank 10 x 10 image, and the
    pixel (5, 4), which both passes store to. *)
Lemma marker_zero_then_max_witness :
  exists buf',
    Renderer.store_all (h_img (Scenario.blank 10 10)) (Renderer.marker_passes 10 4 4 2)
    = Some buf'
    /\ buf' !! 45%nat = Some F32.c255.
Proof.
  eexists. split.
  - vm_compute. reflexivity.
  - refine (proj2 (marker_zero_then_max 10 4 4 2 (h_img (Scenario.blank 10 10)) _
                     (45, F32.c255) _ _)).
    + vm_compute. reflexivity.
    + apply list_elem_of_In. vm_compute.
      repeat (try (left; reflexivity); right).
Defined.

(** C5 fails as stated: for the marker of radius 2 at (4, 4) in a
    10 x 10 image, the first store of the code is the zero intensity at
    the shifted centre (5, 5), not the maximal intensity at (4, 4); at
    the pixel (5, 4), which both passes store to, the code leaves the
    maximal intensity, where the stated order would leave zero. *)
Lemma marker_order_reversed :
  Renderer.marker_writes 10 10 (Scenario.feature 4 4 2 0 9)
  = Some (Renderer.marker_passes 10 4 4 2)
  /\ Renderer.marker_passes 10 4 4 2 <> Spec.marker_passes 10 4 4 2
  /\ head (Renderer.marker_passes 10 4 4 2) = Some (55, F32.zero)
  /\ head (Spec.marker_passes 10 4 4 2) = Some (44, F32.c255)
  /\ (buf ← Renderer.store_all (h_img (Scenario.blank 10 10))
              (Renderer.marker_passes 10 4 4 2); buf !! 45%nat)
     = Some F32.c255
  /\ (buf ← Renderer.store_all (h_img (Scenario.blank 10 10))
              (Spec.marker_passes 10 4 4 2); buf !! 45%nat)
     = Some F32.zero.
Proof.
  repeat split; try (vm_compute; reflexivity).
  vm_compute. discriminate.
Qed.


(** ** The marker radius and its stores *)

Module RadiusFacts.

(** Rounding keeps the sign it is given. *)
Lemma round_aux_sign (prec emax : Z) (sx : bool) (mx ex : Z) (lx : location)
    (m : positive) (e : Z) :
  binary_round_aux prec emax sx mx ex lx <> S754_finite (negb sx) m e.
Proof.
  unfold binary_round_aux.
  destruct (shr_fexp prec emax mx ex lx) as [mrs' e'].
  destruct (shr_fexp prec emax _ e' loc_Exact) as [mrs'' e''].
  destruct (shr_m mrs''); try discriminate.
  destruct (e'' <=? emax - prec); try discriminate.
  destruct sx; discriminate.
Qed.

Lemma round_sign (prec emax : Z) (sx : bool) (mx : positive) (ex : Z)
    (m : positive) (e : Z) :
  binary_round prec emax sx mx ex <> S754_finite (negb sx) m e.
Proof.
  unfold binary_round.
  destruct (shl_align mx ex _) as [mz ez]. apply round_aux_sign.
Qed.

(** [1.41 * scale] is not negative when [scale] is not. *)
Lemma scaled_not_negative (scale : F32.float) (m : positive) (e : Z) :
  Float.nonneg scale = true ->
  F64.mul F64.c1_41 (F64.of_float scale) <> S754_finite true m e.
Proof.
  intros Hs. destruct scale as [s | s | | s ms es]; cbn in Hs.
  - destruct s; discriminate.
  - destruct s; discriminate.
  - discriminate Hs.
  - destruct s; [discriminate Hs|].
    unfold F64.of_float.
    pose proof (round_sign F64.prec F64.emax false ms es) as Hr.
    destruct (binary_round F64.prec F64.emax false ms es) as [s | s | | s m' e'].
    + destruct s; discriminate.
    + destruct s; discriminate.
    + discriminate.
    + destruct s; [exfalso; exact (Hr m' e' eq_refl)|].
      unfold F64.mul, F64.c1_41, SFmul.
      apply (round_aux_sign F64.prec F64.emax false).
Qed.

(** Truncation and floor agree on what is not negative. *)
Lemma trunc_floor (x : spec_float) :
  (forall m e, x <> S754_finite true m e) -> Float.trunc x = Float.floor x.
Proof.
  intros Hx. destruct x as [s | s | | s m e]; try reflexivity.
  destruct s; [exfalso; exact (Hx m e eq_refl)|].
  destruct e; reflexivity.
Qed.

Lemma to_int_trunc (x : spec_float) (z : Z) :
  Float.to_int x = Some z -> Float.trunc x = Some z /\ Int32.in_range z.
Proof.
  unfold Float.to_int. destruct (Float.trunc x) as [t|]; [|discriminate].
  cbn. destruct (Int32.in_rangeb t) eqn:E; [|discriminate].
  intros [= <-]. split; [reflexivity|]. apply Int32Facts.in_rangeb_spec, E.
Qed.

(** Line 290 without wrap-around, for a position inside the image. *)
Lemma radius_min (w h x y r : Z) :
  0 < w -> 0 < h -> w * h <= Int32.max_int ->
  0 <= x < w -> 0 <= y < h ->
  Renderer.radius w h x y r
  = Z.min x (Z.min y (Z.min (w - x - 2) (Z.min (h - y - 2) r))).
Proof.
  intros Hw Hh Hwh Hx Hy.
  assert (Hwm : w <= Int32.max_int) by nia.
  assert (Hhm : h <= Int32.max_int) by nia.
  unfold Renderer.radius, Int32.sub.
  rewrite (Int32Facts.wrap_in_range (w - x)),
          (Int32Facts.wrap_in_range (h - y)),
          (Int32Facts.wrap_in_range (w - x - 2)),
          (Int32Facts.wrap_in_range (h - y - 2))
    by (unfold Int32.in_range, Int32.min_int, Int32.max_int in *; lia).
  rewrite !Int32Facts.min_spec. reflexivity.
Qed.

(** A pass of radius [s] around the pixel [(cx, cy)] stays inside the
    image when the pixel is at least [s - 1] pixels away from every
    edge. *)
Lemma pass_in_buffer (w h cx cy s : Z) (v : F32.float) :
  0 < w -> 0 < h -> w * h <= Int32.max_int ->
  s - 1 <= cx -> cx + (s - 1) < w ->
  s - 1 <= cy -> cy + (s - 1) < h ->
  Forall (Spec.in_buffer w h) (Renderer.pass w (cy * w + cx) s v).
Proof.
  intros Hw Hh Hwh Hx1 Hx2 Hy1 Hy2.
  apply Forall_forall. intros wr Hin.
  apply list_elem_of_In in Hin. unfold Renderer.pass in Hin.
  apply in_flat_map in Hin as (k & Hk & Hwr).
  apply list_elem_of_In, Int32Facts.elem_of_upto in Hk.
  assert (Hkw : 0 <= k * w) by (apply Z.mul_nonneg_nonneg; lia).
  assert (Hlo : (cy - k) * w = cy * w - k * w) by ring.
  assert (Hhi : (cy + k) * w = cy * w + k * w) by ring.
  assert (Hlo' : 0 <= (cy - k) * w) by (apply Z.mul_nonneg_nonneg; lia).
  assert (Hhi' : (cy + k) * w <= (h - 1) * w)
    by (apply Z.mul_le_mono_nonneg_r; lia).
  assert (Hcy : 0 <= cy * w <= (h - 1) * w).
  { split; [apply Z.mul_nonneg_nonneg; lia|].
    apply Z.mul_le_mono_nonneg_r; lia. }
  assert (Hexp : (h - 1) * w = w * h - w) by ring.
  assert (Hmul : Int32.mul k w = k * w).
  { apply Int32Facts.wrap_in_range.
    unfold Int32.in_range, Int32.min_int, Int32.max_int in *. lia. }
  unfold Renderer.arm in Hwr. rewrite Hmul in Hwr.
  unfold Int32.add, Int32.sub in Hwr.
  rewrite !Int32Facts.wrap_in_range in Hwr
    by (unfold Int32.in_range, Int32.min_int, Int32.max_int in *; lia).
  unfold Spec.in_buffer.
  destruct Hwr as [<- | [<- | [<- | [<- | []]]]]; cbn [fst]; lia.
Qed.

End RadiusFacts.


(** C4.  For a feature whose rounded position [(x, y)] is inside the
    image and whose scale is not negative, the radius of line 290 is
    [min(x, y, width-x-2, height-y-2, floor(1.41 * scale))], and every
    store of the two passes of the marker has its offset within
    [0, width * height). *)
Theorem marker_within_buffer (w h : Z) (p1 : SiftPoint) (x y r : Z) :
  0 < w -> 0 < h -> w * h <= Int32.max_int ->
  Renderer.round_pos (xpos p1) = Some x ->
  Renderer.round_pos (ypos p1) = Some y ->
  0 <= x < w -> 0 <= y < h ->
  Float.nonneg (scale p1) = true ->
  Renderer.scale_radius (scale p1) = Some r ->
  let s := Z.min x (Z.min y (Z.min (w - x - 2) (Z.min (h - y - 2) r))) in
  Float.floor (F64.mul F64.c1_41 (F64.of_float (scale p1))) = Some r
  /\ Spec.radius w h x y (scale p1) = Some s
  /\ Renderer.radius w h x y r = s
  /\ Renderer.marker_writes w h p1 = Some (Renderer.marker_passes w x y s)
  /\ Forall (Spec.in_buffer w h) (Renderer.marker_passes w x y s).
Proof.
  intros Hw Hh Hwh Hx Hy Hxr Hyr Hs Hr s.
  assert (Hfloor : Float.floor (F64.mul F64.c1_41 (F64.of_float (scale p1))) = Some r).
  { rewrite <- RadiusFacts.trunc_floor
      by (intros m e; apply RadiusFacts.scaled_not_negative, Hs).
    apply RadiusFacts.to_int_trunc, Hr. }
  assert (Hrad : Renderer.radius w h x y r = s)
    by (apply RadiusFacts.radius_min; assumption).
  split; [exact Hfloor|]. split.
  { unfold Spec.radius. rewrite Hfloor. reflexivity. }
  split; [exact Hrad|]. split.
  { unfold Renderer.marker_writes. rewrite Hx, Hy, Hr. cbn. rewrite Hrad. reflexivity. }
  destruct (Z_le_gt_dec s 0) as [Hs0 | Hs0].
  - unfold Renderer.marker_passes, Renderer.pass.
    rewrite (Int32Facts.upto_nonpos s Hs0). constructor.
  - assert (Hb : 1 <= x /\ 1 <= y /\ x <= w - 3 /\ y <= h - 3) by lia.
    destruct (LineFacts.offset_in_buffer w h x y Hw Hh Hwh Hxr Hyr) as [Hp Hpr].
    assert (Hyw : (y + 1) * w <= (h - 2) * w)
      by (apply Z.mul_le_mono_nonneg_r; lia).
    assert (Hexp1 : (y + 1) * w = y * w + w) by ring.
    assert (Hexp2 : (h - 2) * w = w * h - 2 * w) by ring.
    assert (Hw1 : Int32.add w 1 = w + 1).
    { apply Int32Facts.wrap_in_range.
      unfold Int32.in_range, Int32.min_int, Int32.max_int in *. nia. }
    unfold Renderer.marker_passes.
    rewrite MarkerFacts.second_centre, Hp, Hw1.
    assert (Hp1 : Int32.add (y * w + x) (w + 1) = (y + 1) * w + (x + 1)).
    { unfold Int32.add. rewrite Int32Facts.wrap_in_range; [ring|].
      unfold Int32.in_range, Int32.min_int, Int32.max_int in *. lia. }
    rewrite Hp1. apply Forall_app. split.
    + apply RadiusFacts.pass_in_buffer; try assumption; lia.
    + apply RadiusFacts.pass_in_buffer; try assumption; lia.
Qed.

(** The feature at (1, 1) with scale 2 in a 100 x 100 image: radius
    [min(1, 1, 97, 97, 2) = 1]. *)
Lemma marker_within_buffer_witness :
  Renderer.radius 100 100 1 1 2 = 1
  /\ Forall (Spec.in_buffer 100 100) (Renderer.marker_passes 100 1 1 1).
Proof.
  pose proof (marker_within_buffer 100 100 (Scenario.feature 1 1 2 0 9) 1 1 2
                ltac:(lia) ltac:(lia) ltac:(vm_compute; discriminate)
                eq_refl eq_refl ltac:(lia) ltac:(lia) eq_refl eq_refl)
    as (_ & _ & H1 & _ & H2).
  split; [exact H1 | exact H2].
Defined.


(** ** Exact operations: multiplication and division by one *)

Module ExactFacts.

Section Shifts.

(** [iter_pos] is [n]-fold iteration. *)
Lemma iter_pos_nat {A : Type} (f : A -> A) (p : positive) (x : A) :
  SpecFloat.iter_pos f p x = Nat.iter (Pos.to_nat p) f x.
Proof.
  revert x. induction p as [p IH | p IH |]; intros x; cbn [SpecFloat.iter_pos].
  - rewrite !IH, Pos2Nat.inj_xI.
    replace (S (2 * Pos.to_nat p)) with (Pos.to_nat p + S (Pos.to_nat p))%nat by lia.
    rewrite Nat.iter_add, Nat.iter_succ_r. reflexivity.
  - rewrite !IH, Pos2Nat.inj_xO.
    replace (2 * Pos.to_nat p)%nat with (Pos.to_nat p + Pos.to_nat p)%nat by lia.
    rewrite Nat.iter_add. reflexivity.
  - reflexivity.
Qed.

Lemma shiftl_nat_value (m : positive) (n : nat) :
  Zpos (Pos.shiftl_nat m n) = Zpos m * 2 ^ Z.of_nat n.
Proof.
  induction n as [|n IH].
  - cbn. lia.
  - cbn [Pos.shiftl_nat nat_rect]. fold (Pos.shiftl_nat m n).
    rewrite Pos2Z.inj_xO, IH, Nat2Z.inj_succ, Z.pow_succ_r by lia. ring.
Qed.

Lemma shiftl_nat_digits (m : positive) (n : nat) :
  Zpos (digits2_pos (Pos.shiftl_nat m n)) = Zpos (digits2_pos m) + Z.of_nat n.
Proof.
  induction n as [|n IH].
  - cbn. lia.
  - cbn [Pos.shiftl_nat nat_rect]. fold (Pos.shiftl_nat m n).
    cbn [digits2_pos]. rewrite Pos2Z.inj_succ, IH. lia.
Qed.

(** Shifting out the zeros that a shift brought in loses nothing. *)
Lemma shr_shiftl_nat (m : positive) (n : nat) :
  Nat.iter n shr_1
    {| shr_m := Zpos (Pos.shiftl_nat m n); shr_r := false; shr_s := false |}
  = {| shr_m := Zpos m; shr_r := false; shr_s := false |}.
Proof.
  induction n as [|n IH].
  - reflexivity.
  - rewrite Nat.iter_succ_r. exact IH.
Qed.

End Shifts.

Section Rounding.

Variables prec emax : Z.

(** A mantissa in canonical position, shifted left by [n], rounds
    back to itself. *)
Lemma shr_fexp_shift (m : positive) (e : Z) (n : nat) :
  canonical_mantissa prec emax m e = true ->
  shr_fexp prec emax (Zpos (Pos.shiftl_nat m n)) (e - Z.of_nat n) loc_Exact
  = ({| shr_m := Zpos m; shr_r := false; shr_s := false |}, e).
Proof.
  unfold canonical_mantissa. intros Hc. apply Z.eqb_eq in Hc.
  unfold shr_fexp. cbn [Zdigits2 shr_record_of_loc].
  rewrite shiftl_nat_digits.
  replace (Zpos (digits2_pos m) + Z.of_nat n + (e - Z.of_nat n))
    with (Zpos (digits2_pos m) + e) by lia.
  rewrite Hc.
  replace (e - (e - Z.of_nat n)) with (Z.of_nat n) by lia.
  destruct n as [|n].
  - change (Z.of_nat 0) with 0. unfold shr. rewrite Z.sub_0_r. reflexivity.
  - unfold shr. rewrite Nat2Z.inj_succ, <- Zpos_P_of_succ_nat.
    rewrite iter_pos_nat, SuccNat2Pos.id_succ, shr_shiftl_nat.
    f_equal. rewrite Zpos_P_of_succ_nat. lia.
Qed.

Lemma round_aux_shift (s : bool) (m : positive) (e : Z) (n : nat) :
  bounded prec emax m e = true ->
  binary_round_aux prec emax s (Zpos (Pos.shiftl_nat m n)) (e - Z.of_nat n) loc_Exact
  = S754_finite s m e.
Proof.
  unfold bounded. intros Hb. apply andb_true_iff in Hb as [Hc He].
  unfold binary_round_aux.
  rewrite (shr_fexp_shift m e n Hc).
  cbn [shr_m loc_of_shr_record round_nearest_even].
  pose proof (shr_fexp_shift m e 0 Hc) as H0.
  cbn [Pos.shiftl_nat nat_rect Z.of_nat] in H0. rewrite Z.sub_0_r in H0.
  rewrite H0. cbn [shr_m]. rewrite He. reflexivity.
Qed.

End Rounding.

(** [1.0f * x] is [x]. *)
Lemma mul_one_l (s : bool) (m : positive) (e : Z) :
  F32.valid (S754_finite s m e) = true ->
  F32.mul F32.one (S754_finite s m e) = S754_finite s m e.
Proof.
  intros Hv. unfold F32.mul, F32.one, SFmul. cbn [xorb].
  change (Pos.mul 8388608 m) with (Pos.shiftl_nat m 23).
  replace (-23 + e) with (e - Z.of_nat 23) by lia.
  apply round_aux_shift. exact Hv.
Qed.

Lemma div_core_one (m : positive) (e : Z) :
  bounded F32.prec F32.emax m e = true ->
  exists n : nat,
    SFdiv_core_binary F32.prec F32.emax (Zpos m) e 8388608 (-23)
    = (Zpos (Pos.shiftl_nat m n), e - Z.of_nat n, loc_Exact).
Proof.
  unfold bounded, canonical_mantissa. intros Hb.
  apply andb_true_iff in Hb as [Hc _]. apply Z.eqb_eq in Hc.
  unfold SFdiv_core_binary. cbn [Zdigits2].
  change (Zpos (digits2_pos 8388608)) with 24.
  set (e' := Z.min (fexp F32.prec F32.emax (Zpos (digits2_pos m) + e - (24 + -23)))
                   (e - -23)).
  assert (He' : e - 1 <= e' <= e).
  { unfold e', fexp, emin, F32.prec, F32.emax in *. lia. }
  exists (Z.to_nat (e - e')).
  assert (Hs : e - -23 - e' = 23 + (e - e')) by lia.
  rewrite Hs.
  destruct (23 + (e - e')) as [|p|p] eqn:Hp; try lia.
  rewrite Z.shiftl_mul_pow2, <- Hp, Z.pow_add_r by lia.
  change (2 ^ 23) with 8388608.
  destruct (Z.div_eucl (Zpos m * (8388608 * 2 ^ (e - e'))) 8388608) as [q r] eqn:Hd.
  assert (Hq : q = Zpos m * (8388608 * 2 ^ (e - e')) / 8388608)
    by (unfold Z.div; rewrite Hd; reflexivity).
  assert (Hr : r = (Zpos m * (8388608 * 2 ^ (e - e'))) mod 8388608)
    by (unfold Z.modulo; rewrite Hd; reflexivity).
  replace (Zpos m * (8388608 * 2 ^ (e - e')))
    with (Zpos m * 2 ^ (e - e') * 8388608) in Hq, Hr by ring.
  rewrite Z.div_mul in Hq by lia. rewrite Z.mod_mul in Hr by lia.
  subst q r.
  rewrite shiftl_nat_value, Z2Nat.id by lia.
  f_equal. f_equal. lia.
Qed.

(** [x / 1.0f] is [x]. *)
Lemma div_one_r (s : bool) (m : positive) (e : Z) :
  F32.valid (S754_finite s m e) = true ->
  F32.div (S754_finite s m e) F32.one = S754_finite s m e.
Proof.
  intros Hv. unfold F32.div, F32.one, SFdiv.
  destruct (div_core_one m e Hv) as [n ->].
  rewrite xorb_false_r. apply round_aux_shift. exact Hv.
Qed.

End ExactFacts.


Module ProjectionFacts.

Lemma hom_identity :
  Evaluator.hom Scenario.identity 0 = F32.one
  /\ Evaluator.hom Scenario.identity 1 = F32.zero
  /\ Evaluator.hom Scenario.identity 2 = F32.zero
  /\ Evaluator.hom Scenario.identity 3 = F32.zero
  /\ Evaluator.hom Scenario.identity 4 = F32.one
  /\ Evaluator.hom Scenario.identity 5 = F32.zero
  /\ Evaluator.hom Scenario.identity 6 = F32.zero
  /\ Evaluator.hom Scenario.identity 7 = F32.zero
  /\ Evaluator.hom Scenario.identity 8 = F32.one.
Proof. repeat split. Qed.

(** [0.0f * v] is a zero for a finite [v]. *)
Lemma mul_zero_l (v : F32.float) :
  Float.is_finite v = true -> exists t, F32.mul F32.zero v = S754_zero t.
Proof. destruct v; try discriminate; intros _; cbn; eauto. Qed.

(** [1.0f * v] is [v] for a finite [v]. *)
Lemma mul_one_finite (v : F32.float) :
  F32.valid v = true -> Float.is_finite v = true -> F32.mul F32.one v = v.
Proof.
  destruct v as [s | s | | s m e]; try discriminate; intros Hv _.
  - reflexivity.
  - apply ExactFacts.mul_one_l, Hv.
Qed.

Lemma den_identity (p : SiftPoint) :
  Float.is_finite (xpos p) = true -> Float.is_finite (ypos p) = true ->
  Evaluator.den Scenario.identity p = F32.one.
Proof.
  intros Hx Hy. unfold Evaluator.den.
  destruct hom_identity as (_ & _ & _ & _ & _ & _ & -> & -> & ->).
  destruct (mul_zero_l _ Hx) as [t ->], (mul_zero_l _ Hy) as [u ->].
  destruct t, u; reflexivity.
Qed.

(** The quotient of lines 223 and 224 when the coefficient of the
    coordinate [v] is one and the other terms are zeros. *)
Lemma quotient_identity (v : F32.float) (t u : bool) (s : bool) (m : positive) (e : Z) :
  F32.valid v = true -> v = S754_finite s m e ->
  F32.div (F32.add (F32.add v (S754_zero t)) F32.zero) F32.one = v
  /\ F32.div (F32.add (F32.add (S754_zero u) v) F32.zero) F32.one = v.
Proof.
  intros Hv ->. split; cbn [F32.add SFadd F32.zero];
    apply ExactFacts.div_one_r, Hv.
Qed.

Lemma quotient_zero (t u w : bool) :
  SFeqb (F32.div (F32.add (F32.add (S754_zero w) (S754_zero t)) F32.zero) F32.one)
        (S754_zero u) = true.
Proof. destruct t, u, w; reflexivity. Qed.

Lemma eqb_refl_finite (s : bool) (m : positive) (e : Z) :
  SFeqb (S754_finite s m e) (S754_finite s m e) = true.
Proof.
  unfold SFeqb, SFcompare. rewrite Z.compare_refl.
  change (Pos.compare_cont Eq m m) with (Pos.compare m m).
  rewrite Pos.compare_refl. destruct s; reflexivity.
Qed.

End ProjectionFacts.

(** The expression of lines 222-224, evaluated on an array that holds
    the identity coefficients: the denominator of a finite position is
    one and each projected coordinate compares equal to the source
    coordinate, being the very same value unless the coordinate is a
    zero (whose sign may change). *)
Theorem identity_projection (p : SiftPoint) :
  F32.valid (xpos p) = true -> F32.valid (ypos p) = true ->
  Float.is_finite (xpos p) = true -> Float.is_finite (ypos p) = true ->
  Evaluator.den Scenario.identity p = F32.one
  /\ SFeqb (Evaluator.proj_x Scenario.identity p) (xpos p) = true
  /\ SFeqb (Evaluator.proj_y Scenario.identity p) (ypos p) = true
  /\ ((forall s, xpos p <> S754_zero s) -> Evaluator.proj_x Scenario.identity p = xpos p)
  /\ ((forall s, ypos p <> S754_zero s) -> Evaluator.proj_y Scenario.identity p = ypos p).
Proof.
  intros Hvx Hvy Hfx Hfy.
  pose proof (ProjectionFacts.den_identity p Hfx Hfy) as Hden.
  split; [exact Hden|].
  unfold Evaluator.proj_x, Evaluator.proj_y. rewrite Hden.
  destruct ProjectionFacts.hom_identity
    as (-> & -> & -> & -> & -> & -> & _ & _ & _).
  rewrite !ProjectionFacts.mul_one_finite by assumption.
  destruct (ProjectionFacts.mul_zero_l _ Hfx) as [t ->].
  destruct (ProjectionFacts.mul_zero_l _ Hfy) as [u ->].
  destruct (xpos p) as [sx | sx | | sx mx ex] eqn:Ex; try discriminate Hfx;
    destruct (ypos p) as [sy | sy | | sy my ey] eqn:Ey; try discriminate Hfy.
  - repeat split.
    + apply ProjectionFacts.quotient_zero.
    + destruct t, sy; reflexivity.
    + intros H. exfalso. exact (H sx eq_refl).
    + intros H. exfalso. exact (H sy eq_refl).
  - destruct (ProjectionFacts.quotient_identity _ u t sy my ey Hvy eq_refl) as [_ Hq].
    rewrite Hq. repeat split.
    + apply ProjectionFacts.quotient_zero.
    + apply ProjectionFacts.eqb_refl_finite.
    + intros H. exfalso. exact (H sx eq_refl).
  - destruct (ProjectionFacts.quotient_identity _ u t sx mx ex Hvx eq_refl) as [Hq _].
    rewrite Hq. repeat split.
    + apply ProjectionFacts.eqb_refl_finite.
    + destruct t, sy; reflexivity.
    + intros H. exfalso. exact (H sy eq_refl).
  - destruct (ProjectionFacts.quotient_identity _ u t sx mx ex Hvx eq_refl) as [Hqx _].
    destruct (ProjectionFacts.quotient_identity _ u t sy my ey Hvy eq_refl) as [_ Hqy].
    rewrite Hqx, Hqy. repeat split; apply ProjectionFacts.eqb_refl_finite.
Qed.

(** The point at (10, 10). *)
Lemma identity_projection_witness :
  Evaluator.proj_x Scenario.identity Scenario.a0 = F32.of_int 10
  /\ Evaluator.proj_y Scenario.identity Scenario.a0 = F32.of_int 10.
Proof.
  pose proof (identity_projection Scenario.a0 eq_refl eq_refl eq_refl eq_refl)
    as (_ & _ & _ & Hx & Hy).
  split; [apply Hx | apply Hy]; intros s; discriminate.
Defined.


(** ** Further properties *)

Module SlotFacts.
Import RoundRobin.

Lemma cyclic_small (w : Z) (n : nat) (c : Z) :
  0 <= c -> c + Z.of_nat n <= w -> cyclic w n c = seqZ c (Z.of_nat n).
Proof.
  revert c. induction n as [|n IH]; intros c Hc Hn; [reflexivity|].
  cbn [cyclic]. rewrite Z.mod_small by lia. rewrite IH by lia.
  rewrite Nat2Z.inj_succ, (seqZ_cons c) by lia.
  f_equal. f_equal; lia.
Qed.

End SlotFacts.

(** X1.  The work units select pairwise distinct slots exactly when
    there are no more units than slots; with more, the unit that draws
    the value [w] selects slot 0 again. *)
Theorem slots_distinct_iff (w : Z) (n : nat) :
  1 <= w ->
  Z.of_nat n <= Int32.max_int ->
  NoDup (RoundRobin.tids w n) <-> Z.of_nat n <= w.
Proof.
  intros Hw Hn.
  assert (Htids : RoundRobin.tids w n = RoundRobin.cyclic w n 0).
  { unfold RoundRobin.tids. rewrite RoundRobinFacts.run_cyclic by lia. reflexivity. }
  rewrite Htids. split.
  - intros Hnd. destruct (Z_le_gt_dec (Z.of_nat n) w) as [Hle | Hgt]; [exact Hle|].
    exfalso.
    pose proof (RoundRobinFacts.cyclic_nth w n 0 0 ltac:(lia)) as H0.
    pose proof (RoundRobinFacts.cyclic_nth w n 0 (Z.to_nat w) ltac:(lia)) as Hw0.
    rewrite Z2Nat.id, Z.add_0_l, Z_mod_same_full in Hw0 by lia.
    cbn in H0. rewrite Z.mod_0_l in H0 by lia.
    apply NoDup_ListNoDup in Hnd.
    rewrite (List.NoDup_nth _ 0) in Hnd.
    specialize (Hnd 0%nat (Z.to_nat w)).
    rewrite RoundRobinFacts.cyclic_length in Hnd.
    specialize (Hnd ltac:(lia) ltac:(lia) ltac:(congruence)). lia.
  - intros Hle. rewrite SlotFacts.cyclic_small by lia. apply NoDup_seqZ.
Qed.

(** Three units on four slots. *)
Lemma slots_distinct_iff_witness : NoDup (RoundRobin.tids 4 3).
Proof.
  apply (slots_distinct_iff 4 3); [lia | vm_compute; discriminate | lia].
Defined.


(** ** The listing as a whole *)

Module ListingFacts.
Import Evaluator.

(** Every line of the loop over [j] is the line of a candidate that is
    within the threshold or is the recorded match. *)
Lemma candidates_inv h p1 : forall pts2 j found line,
  0 <= j -> j + Z.of_nat (length pts2) <= Int32.max_int ->
  line ∈ (candidates h p1 j pts2 found).2 ->
  exists k p2,
    pts2 !! k = Some p2
    /\ line = cand_line h p1 (j + Z.of_nat k) p2
    /\ near h p1 p2 || (j + Z.of_nat k =? match_ p1) = true.
Proof.
  induction pts2 as [|q rest IH]; intros j found line Hj Hlen Hin.
  - cbn in Hin. inversion Hin.
  - cbn [candidates] in Hin. cbn [length] in Hlen.
    assert (Hj1 : Int32.add j 1 = j + 1).
    { apply Int32Facts.wrap_in_range.
      unfold Int32.in_range, Int32.min_int. lia. }
    rewrite Hj1 in Hin.
    destruct (candidates h p1 (j + 1) rest (if near h p1 q then true else found))
      as [f out] eqn:E.
    cbn [snd] in Hin. apply elem_of_app in Hin as [Hin | Hin].
    + destruct (near h p1 q || (j =? match_ p1)) eqn:Hpr.
      * apply list_elem_of_singleton in Hin. subst line.
        exists 0%nat, q. rewrite Z.add_0_r. repeat split; assumption.
      * inversion Hin.
    + specialize (IH (j + 1) (if near h p1 q then true else found) line).
      rewrite E in IH. destruct (IH ltac:(lia) ltac:(lia) Hin) as (k & p2 & Hk & Hl & Hpr).
      exists (S k), p2.
      replace (j + Z.of_nat (S k)) with (j + 1 + Z.of_nat k) by lia.
      repeat split; assumption.
Qed.

Lemma candidates_no_header h p1 : forall pts2 j found,
  omap Listing.point_index (candidates h p1 j pts2 found).2 = []
  /\ finds (candidates h p1 j pts2 found).2 = None.
Proof.
  induction pts2 as [|q rest IH]; intros j found; [split; reflexivity|].
  cbn [candidates].
  specialize (IH (Int32.add j 1) (if near h p1 q then true else found)).
  destruct (candidates h p1 (Int32.add j 1) rest _) as [f out].
  cbn [snd] in *. destruct IH as [IH1 IH2].
  destruct (near h p1 q || (j =? match_ p1)); cbn; split; assumption.
Qed.

Lemma finds_app (out rest : list out_item) :
  finds out = None -> finds (out ++ rest) = finds rest.
Proof.
  induction out as [|line out IH]; intros H; [reflexivity|].
  destruct line; cbn in *; try (apply IH; exact H). discriminate H.
Qed.

(** The loop over [i]: header indices, count of the points found, and
    no summary line. *)
Lemma each_point_shape h pts2 : forall pts1 i numFound,
  0 <= i -> i + Z.of_nat (length pts1) <= Int32.max_int ->
  0 <= numFound -> numFound + Z.of_nat (length pts1) <= Int32.max_int ->
  Listing.point_indices (each_point h i pts1 pts2 numFound).2
    = seqZ i (Z.of_nat (length pts1))
  /\ (each_point h i pts1 pts2 numFound).1
     = numFound + Z.of_nat (length (Listing.found_points h pts1 pts2))
  /\ finds (each_point h i pts1 pts2 numFound).2 = None.
Proof.
  induction pts1 as [|p1 rest IH]; intros i nf Hi Hil Hn Hnl.
  - cbn. repeat split. lia.
  - cbn [each_point]. cbn [length] in Hil, Hnl.
    pose proof (EvaluatorFacts.candidates_found h p1 pts2 0 false) as Hf.
    pose proof (candidates_no_header h p1 pts2 0 false) as [Hh Hs].
    destruct (candidates h p1 0 pts2 false) as [found lines].
    cbn [fst snd orb] in Hf, Hh, Hs. subst found.
    assert (Hi1 : Int32.add i 1 = i + 1).
    { apply Int32Facts.wrap_in_range. unfold Int32.in_range, Int32.min_int. lia. }
    assert (Hn1 : Int32.add nf 1 = nf + 1).
    { apply Int32Facts.wrap_in_range. unfold Int32.in_range, Int32.min_int. lia. }
    rewrite Hi1, Hn1.
    specialize (IH (i + 1) (if existsb (near h p1) pts2 then nf + 1 else nf)).
    destruct (each_point h (i + 1) rest pts2 _) as [nf' out].
    cbn [fst snd] in *.
    assert (Hnf : 0 <= (if existsb (near h p1) pts2 then nf + 1 else nf) <= nf + 1)
      by (destruct (existsb (near h p1) pts2); lia).
    destruct (IH ltac:(lia) ltac:(lia) ltac:(lia) ltac:(lia)) as (IH1 & IH2 & IH3).
    repeat split.
    + unfold Listing.point_indices in *. cbn [omap list_omap Listing.point_index].
      rewrite omap_app, Hh. cbn [app omap list_omap Listing.point_index].
      cbn [length]. rewrite IH1, Nat2Z.inj_succ, (seqZ_cons i) by lia.
      f_equal. f_equal; lia.
    + rewrite IH2. unfold Listing.found_points. cbn [List.filter].
      destruct (existsb (near h p1) pts2); cbn [length]; lia.
    + cbn [finds]. rewrite finds_app by exact Hs. exact IH3.
Qed.

(** Every candidate line of the loop over [i] belongs to a point of the
    first set and a point of the second. *)
Lemma each_point_inv h pts2 :
  Z.of_nat (length pts2) <= Int32.max_int ->
  forall pts1 i numFound m j sum re sc o x y idx idy,
  CandLine m j sum re sc o x y idx idy ∈ (each_point h i pts1 pts2 numFound).2 ->
  exists k a b,
    pts1 !! k = Some a /\ 0 <= j /\ pts2 !! Z.to_nat j = Some b
    /\ CandLine m j sum re sc o x y idx idy = cand_line h a j b
    /\ near h a b || (j =? match_ a) = true.
Proof.
  intros Hlen. induction pts1 as [|p1 rest IH];
    intros i nf m j sum re sc o x y idx idy Hin.
  - cbn in Hin. inversion Hin.
  - cbn [each_point] in Hin.
    pose proof (candidates_inv h p1 pts2 0 false) as Hc.
    destruct (candidates h p1 0 pts2 false) as [found lines].
    specialize (IH (Int32.add i 1) (if found then Int32.add nf 1 else nf)
                  m j sum re sc o x y idx idy).
    destruct (each_point h (Int32.add i 1) rest pts2 _) as [nf' out].
    cbn [snd] in *.
    apply elem_of_cons in Hin as [Hin | Hin]; [discriminate Hin|].
    apply elem_of_app in Hin as [Hin | Hin].
    + destruct (Hc _ ltac:(lia) ltac:(lia) Hin) as (k & b & Hk & Hl & Hpr).
      rewrite Z.add_0_l in Hl, Hpr.
      assert (Hj : j = Z.of_nat k) by (unfold cand_line in Hl; congruence).
      exists 0%nat, p1, b. subst j. rewrite Nat2Z.id.
      repeat split; try assumption; lia.
    + apply elem_of_cons in Hin as [Hin | Hin]; [discriminate Hin|].
      destruct (IH Hin) as (k & a & b & Hk & H).
      exists (S k), a, b. split; [exact Hk | exact H].
Qed.

End ListingFacts.


(** X2.  The listing of [MatchAll] is one block per point of the first
    set, headed by the indices 0, 1, 2, ... in order, followed by the
    line of finds and by the three rows of the matrix as [MatchAll] has
    overwritten it: (-1 0 1279), (0 -1 959), (0 0 h8). *)
Theorem MatchAll_listing_shape
    (siftData1 siftData2 : SiftData) (homography : list F32.float) :
  length homography = 9%nat ->
  Int32.in_range (numPts siftData1) ->
  exists body numFound,
    (Evaluator.MatchAll siftData1 siftData2 homography).1
    = body ++ [Evaluator.FindsLine numFound (numPts siftData1);
               Evaluator.HomLine F32.minus_one F32.zero F32.c1279;
               Evaluator.HomLine F32.zero F32.minus_one F32.c959;
               Evaluator.HomLine F32.zero F32.zero (Evaluator.hom homography 8)]
    /\ Listing.point_indices body
       = Int32.upto (Z.of_nat (length (points siftData1)))
    /\ Evaluator.finds body = None.
Proof.
  intros Hlen Hr.
  unfold Evaluator.MatchAll. cbn [fst].
  rewrite (EvaluatorFacts.overwrite_fixed homography Hlen).
  unfold Evaluator.listing.
  pose proof (EvaluatorFacts.points_length siftData1 Hr) as Hpl.
  pose proof (ListingFacts.each_point_shape
                (Evaluator.fixed (Evaluator.hom homography 8))
                (points siftData2) (points siftData1) 0 0
                ltac:(lia) ltac:(lia) ltac:(lia) ltac:(lia)) as (H1 & _ & H3).
  destruct (Evaluator.each_point _ 0 (points siftData1) (points siftData2) 0)
    as [nf out].
  exists out, nf. cbn [snd] in *. repeat split; assumption.
Qed.

(** The end-to-end scenario. *)
Lemma MatchAll_listing_shape_witness :
  exists body numFound,
    (Evaluator.MatchAll Scenario.setA Scenario.setB Scenario.identity).1
    = body ++ [Evaluator.FindsLine numFound 2;
               Evaluator.HomLine F32.minus_one F32.zero F32.c1279;
               Evaluator.HomLine F32.zero F32.minus_one F32.c959;
               Evaluator.HomLine F32.zero F32.zero F32.one]
    /\ Listing.point_indices body = [0; 1].
Proof.
  destruct (MatchAll_listing_shape Scenario.setA Scenario.setB Scenario.identity
              eq_refl ltac:(apply Int32Facts.in_rangeb_spec; reflexivity))
    as (body & nf & H1 & H2 & _).
  exists body, nf. split; [exact H1 | exact H2].
Defined.

(** X3.  The number of finds that [MatchAll] reports is the number of
    points of the first set that have some candidate of the second set
    within the threshold, whether or not it is their recorded match. *)
Theorem MatchAll_counts_found
    (siftData1 siftData2 : SiftData) (homography : list F32.float) :
  Int32.in_range (numPts siftData1) ->
  let h := (Evaluator.MatchAll siftData1 siftData2 homography).2 in
  let found := Listing.found_points h (points siftData1) (points siftData2) in
  Evaluator.finds (Evaluator.MatchAll siftData1 siftData2 homography).1
    = Some (Z.of_nat (length found))
  /\ (length found <= length (points siftData1))%nat
  /\ (forall a, In a found <->
        In a (points siftData1)
        /\ exists b, In b (points siftData2) /\ Evaluator.near h a b = true).
Proof.
  intros Hr h found.
  pose proof (EvaluatorFacts.points_length siftData1 Hr) as Hpl.
  split; [|split].
  - unfold Evaluator.MatchAll. cbn [fst]. unfold Evaluator.listing.
    pose proof (ListingFacts.each_point_shape h
                  (points siftData2) (points siftData1) 0 0
                  ltac:(lia) ltac:(lia) ltac:(lia) ltac:(lia)) as (_ & H2 & H3).
    unfold h, Evaluator.MatchAll in H2, H3. cbn [snd] in H2, H3.
    destruct (Evaluator.each_point _ 0 (points siftData1) (points siftData2) 0)
      as [nf out].
    cbn [fst snd] in *. rewrite ListingFacts.finds_app by exact H3.
    cbn [Evaluator.finds]. rewrite H2. reflexivity.
  - apply List.filter_length_le.
  - intros a. unfold found, Listing.found_points.
    rewrite filter_In, existsb_exists. reflexivity.
Qed.

(** The end-to-end scenario: no point is found. *)
Lemma MatchAll_counts_found_witness :
  Evaluator.finds (Evaluator.MatchAll Scenario.setA Scenario.setB Scenario.identity).1
  = Some 0.
Proof.
  exact (proj1 (MatchAll_counts_found Scenario.setA Scenario.setB Scenario.identity
                  ltac:(apply Int32Facts.in_rangeb_spec; reflexivity))).
Defined.

(** X4.  Every candidate line that [MatchAll] prints is the line of a
    point [a] of the first set and of the candidate [b] at index [j] of
    the second set, and [b] is within the threshold or is the recorded
    match of [a].  The blank mark of line 236 is never printed, and the
    line carries a verdict exactly when [j] is the recorded match. *)
Theorem MatchAll_lines_justified
    (siftData1 siftData2 : SiftData) (homography : list F32.float)
    (m : Evaluator.mark) (j : Z) (sum : F32.float) (re : option Z)
    (sc : F32.float) (o : option Z) (x y : F32.float) (idx idy : option Z) :
  Int32.in_range (numPts siftData2) ->
  Evaluator.CandLine m j sum re sc o x y idx idy
    ∈ (Evaluator.MatchAll siftData1 siftData2 homography).1 ->
  let h := (Evaluator.MatchAll siftData1 siftData2 homography).2 in
  exists (k : nat) (a b : SiftPoint),
    points siftData1 !! k = Some a
    /\ 0 <= j
    /\ points siftData2 !! Z.to_nat j = Some b
    /\ Evaluator.CandLine m j sum re sc o x y idx idy = Evaluator.cand_line h a j b
    /\ (Evaluator.near h a b = true \/ j = match_ a)
    /\ m <> Evaluator.NoMark
    /\ (is_Some (Evaluator.verdict_of_mark m) <-> j = match_ a).
Proof.
  intros Hr Hin h.
  pose proof (EvaluatorFacts.points_length siftData2 Hr) as Hpl.
  unfold Evaluator.MatchAll in Hin. cbn [fst] in Hin.
  unfold Evaluator.listing in Hin.
  pose proof (ListingFacts.each_point_inv h (points siftData2) Hpl
                (points siftData1) 0 0 m j sum re sc o x y idx idy) as Hinv.
  unfold h, Evaluator.MatchAll in Hinv. cbn [snd] in Hinv.
  destruct (Evaluator.each_point _ 0 (points siftData1) (points siftData2) 0)
    as [nf out].
  cbn [snd] in Hinv.
  apply elem_of_app in Hin as [Hin | Hin].
  - destruct (Hinv Hin) as (k & a & b & Hk & Hj & Hb & Hl & Hpr).
    exists k, a, b.
    assert (Hm : m = Evaluator.mark_of (j =? match_ a)
                       (Evaluator.near (Evaluator.overwrite homography) a b))
      by (unfold Evaluator.cand_line in Hl; congruence).
    split; [exact Hk|]. split; [exact Hj|]. split; [exact Hb|].
    split; [exact Hl|].
    destruct (Z.eqb_spec j (match_ a)) as [Ej | Ej];
      destruct (Evaluator.near (Evaluator.overwrite homography) a b) eqn:En;
      try discriminate Hpr; subst m; cbn.
    + split; [auto|]. split; [discriminate|].
      split; [intros _; exact Ej | intros _; eexists; reflexivity].
    + split; [auto|]. split; [discriminate|].
      split; [intros _; exact Ej | intros _; eexists; reflexivity].
    + split; [auto|]. split; [discriminate|].
      split; [intros [v Hv]; discriminate Hv | intros Hj'; contradiction].
  - repeat (apply elem_of_cons in Hin as [Hin | Hin]; [discriminate Hin|]).
    inversion Hin.
Qed.

(** The line of the recorded match of the first point of the end-to-end
    scenario. *)
Lemma MatchAll_lines_justified_witness :
  exists (k : nat) (a b : SiftPoint),
    points Scenario.setA !! k = Some a /\ points Scenario.setB !! 0%nat = Some b.
Proof.
  destruct (MatchAll_lines_justified Scenario.setA Scenario.setB Scenario.identity
              Evaluator.MatchFar 0 (F32.of_int 128) (Some 1563)
              (F32.of_int 1) (Some 0) (F32.of_int 15) (F32.of_int 15)
              (Some 1254) (Some 934)
              ltac:(apply Int32Facts.in_rangeb_spec; reflexivity)
              ltac:(vm_compute; apply list_elem_of_further, list_elem_of_here))
    as (k & a & b & H1 & _ & H2 & _).
  exists k, a, b. split; [exact H1 | exact H2].
Defined.


Module VerdictFacts.
Import Evaluator.

(** The verdicts among the lines of the loop over [j], from index [j]
    on: the one of the recorded match, if it is still to come. *)
Lemma candidates_verdicts h a i : forall pts2 j found rest,
  0 <= j -> j + Z.of_nat (length pts2) <= Int32.max_int ->
  verdicts i ((candidates h a j pts2 found).2 ++ rest)
  = (if match_ a <? j then []
     else match pts2 !! Z.to_nat (match_ a - j) with
          | Some b => [(i, match_ a, if near h a b then Confirmed else Rejected)]
          | None => []
          end)
    ++ verdicts i rest.
Proof.
  induction pts2 as [|q pts2 IH]; intros j found rest Hj Hlen.
  - cbn [candidates snd app]. destruct (match_ a <? j); reflexivity.
  - cbn [candidates]. cbn [length] in Hlen.
    assert (Hj1 : Int32.add j 1 = j + 1).
    { apply Int32Facts.wrap_in_range. unfold Int32.in_range, Int32.min_int. lia. }
    rewrite Hj1.
    specialize (IH (j + 1) (if near h a q then true else found) rest
                  ltac:(lia) ltac:(lia)).
    destruct (candidates h a (j + 1) pts2 _) as [f out]. cbn [snd] in *.
    rewrite <- List.app_assoc.
    destruct (Z.eqb_spec j (match_ a)) as [Ej | Ej].
    + rewrite orb_true_r. cbn [app]. unfold cand_line.
      rewrite (proj2 (Z.eqb_eq j (match_ a)) Ej).
      replace (match_ a <? j) with false by (symmetry; apply Z.ltb_ge; lia).
      replace (match_ a - j) with 0 by lia.
      change ((q :: pts2) !! Z.to_nat 0) with (Some q). cbv beta iota.
      replace (match_ a <? j + 1) with true in IH by (symmetry; apply Z.ltb_lt; lia).
      cbn [app] in IH.
      destruct (near h a q); cbn [mark_of andb verdicts verdict_of_mark];
        rewrite IH, Ej; reflexivity.
    + rewrite orb_false_r.
      assert (Hrest : verdicts i
                (((if near h a q then [cand_line h a j q] else []) ++ out) ++ rest)
              = verdicts i (out ++ rest)).
      { destruct (near h a q) eqn:En; [|reflexivity].
        cbn [app]. unfold cand_line. rewrite En.
        rewrite (proj2 (Z.eqb_neq j (match_ a)) Ej). reflexivity. }
      rewrite <- List.app_assoc in Hrest. rewrite Hrest, IH.
      destruct (Z.ltb_spec (match_ a) j) as [Hlt | Hge].
      * replace (match_ a <? j + 1) with true by (symmetry; apply Z.ltb_lt; lia).
        reflexivity.
      * replace (match_ a <? j + 1) with false by (symmetry; apply Z.ltb_ge; lia).
        replace (Z.to_nat (match_ a - j)) with (S (Z.to_nat (match_ a - (j + 1))))
          by lia.
        reflexivity.
Qed.

Lemma each_point_verdicts h pts2 :
  Z.of_nat (length pts2) <= Int32.max_int ->
  forall pts1 i numFound i0 rest,
  0 <= i -> i + Z.of_nat (length pts1) <= Int32.max_int ->
  (forall k, verdicts k rest = []) ->
  verdicts i0 ((each_point h i pts1 pts2 numFound).2 ++ rest)
  = Listing.recorded_verdicts h i pts1 pts2.
Proof.
  intros Hl2. induction pts1 as [|a pts1 IH]; intros i nf i0 rest Hi Hlen Hrest.
  - cbn. apply Hrest.
  - cbn [each_point]. cbn [length] in Hlen.
    pose proof (candidates_verdicts h a i pts2 0 false) as Hc.
    destruct (candidates h a 0 pts2 false) as [found lines].
    assert (Hi1 : Int32.add i 1 = i + 1).
    { apply Int32Facts.wrap_in_range. unfold Int32.in_range, Int32.min_int. lia. }
    rewrite Hi1.
    specialize (IH (i + 1) (if found then Int32.add nf 1 else nf) i rest
                  ltac:(lia) ltac:(lia) Hrest).
    destruct (each_point h (i + 1) pts1 pts2 _) as [nf' out].
    cbn [snd] in *. cbn [app verdicts].
    rewrite <- List.app_assoc, Hc by lia. cbn [app verdicts]. rewrite IH.
    cbn [Listing.recorded_verdicts]. f_equal.
    unfold Listing.recorded_verdict. rewrite Z.sub_0_r. reflexivity.
Qed.

End VerdictFacts.

(** X15.  The verdicts of a listing are exactly the verdicts on the
    recorded correspondences, in the order of the points: one for each
    point whose match index is an index of the second set, confirmed
    when that candidate is within the threshold and rejected otherwise,
    and none for a point whose match index is negative or past the
    set. *)
Theorem MatchAll_verdicts
    (siftData1 siftData2 : SiftData) (homography : list F32.float) :
  Int32.in_range (numPts siftData1) ->
  Int32.in_range (numPts siftData2) ->
  Evaluator.verdicts 0 (Evaluator.MatchAll siftData1 siftData2 homography).1
  = Listing.recorded_verdicts
      (Evaluator.MatchAll siftData1 siftData2 homography).2 0
      (points siftData1) (points siftData2).
Proof.
  intros H1 H2.
  pose proof (EvaluatorFacts.points_length siftData1 H1) as Hl1.
  pose proof (EvaluatorFacts.points_length siftData2 H2) as Hl2.
  unfold Evaluator.MatchAll. cbn [fst snd]. unfold Evaluator.listing.
  pose proof (VerdictFacts.each_point_verdicts (Evaluator.overwrite homography)
                (points siftData2) Hl2 (points siftData1) 0 0 0) as Hv.
  destruct (Evaluator.each_point _ 0 (points siftData1) (points siftData2) 0)
    as [nf out].
  cbn [snd] in Hv. apply Hv; [lia | lia | reflexivity].
Qed.

(** The end-to-end scenario: two recorded matches, both rejected. *)
Lemma MatchAll_verdicts_witness :
  Evaluator.verdicts 0
    (Evaluator.MatchAll Scenario.setA Scenario.setB Scenario.identity).1
  = [(0, 0, Evaluator.Rejected); (1, 1, Evaluator.Rejected)].
Proof.
  rewrite (MatchAll_verdicts Scenario.setA Scenario.setB Scenario.identity
             ltac:(apply Int32Facts.in_rangeb_spec; reflexivity)
             ltac:(apply Int32Facts.in_rangeb_spec; reflexivity)).
  vm_compute. reflexivity.
Defined.


(** ** Signs and symmetry in the arithmetic of [MatchAll] *)

Module SignFacts.

Import Sign.

(** Rounding returns a value of the sign it is given, or NaN. *)
Lemma round_aux_shape (prec emax : Z) (sx : bool) (mx ex : Z) (lx : location) :
  let r := binary_round_aux prec emax sx mx ex lx in
  r = S754_nan \/ r = S754_zero sx \/ r = S754_infinity sx
  \/ exists m e, r = S754_finite sx m e.
Proof.
  unfold binary_round_aux.
  destruct (shr_fexp prec emax mx ex lx) as [mrs' e'].
  destruct (shr_fexp prec emax _ e' loc_Exact) as [mrs'' e''].
  destruct (shr_m mrs''); [auto | | auto].
  destruct (e'' <=? emax - prec); eauto 6.
Qed.

Lemma round_aux_not_negative (prec emax : Z) (mx ex : Z) (lx : location) :
  not_negative (binary_round_aux prec emax false mx ex lx).
Proof.
  destruct (round_aux_shape prec emax false mx ex lx)
    as [-> | [-> | [-> | (m & e & ->)]]]; unfold not_negative; cbn; auto.
Qed.

Lemma round_not_negative (prec emax : Z) (m : positive) (e : Z) :
  not_negative (binary_round prec emax false m e).
Proof.
  unfold binary_round. destruct (shl_align m e _) as [mz ez].
  apply round_aux_not_negative.
Qed.

Lemma square_not_negative (x : F32.float) : not_negative (F32.mul x x).
Proof.
  destruct x as [s | s | | s m e]; unfold not_negative.
  - right. destruct s; reflexivity.
  - right. destruct s; reflexivity.
  - left. reflexivity.
  - unfold F32.mul, SFmul. rewrite xorb_nilpotent. apply round_aux_not_negative.
Qed.

Lemma add_not_negative (x y : F32.float) :
  not_negative x -> not_negative y -> not_negative (F32.add x y).
Proof.
  unfold not_negative.
  intros [-> | Hx] [-> | Hy]; try (left; destruct x; reflexivity);
    try (left; reflexivity).
  destruct x as [sx | sx | | sx mx ex], y as [sy | sy | | sy my ey];
    cbn in Hx, Hy; try discriminate;
    destruct sx; try discriminate; destruct sy; try discriminate;
    try (right; reflexivity).
  unfold F32.add, SFadd. cbn [cond_Zopp Z.add].
  apply round_not_negative.
Qed.

(** Multiplication does not depend on the order of its operands. *)
Lemma mul_comm (x y : F32.float) : F32.mul x y = F32.mul y x.
Proof.
  destruct x as [sx | sx | | sx mx ex], y as [sy | sy | | sy my ey];
    unfold F32.mul, SFmul; rewrite ?(xorb_comm sx sy); try reflexivity.
  rewrite (Pos.mul_comm mx my), (Z.add_comm ex ey). reflexivity.
Qed.

Lemma fold_left_ext {A B : Type} (f g : A -> B -> A) (l : list B) :
  (forall a b, f a b = g a b) -> forall a, fold_left f l a = fold_left g l a.
Proof.
  intros Hfg. induction l as [|b l IH]; intros a; [reflexivity|].
  cbn. rewrite Hfg. apply IH.
Qed.

End SignFacts.

(** X5.  The squared error [err] of a point and a candidate is never
    negative: it is NaN, or a zero, a finite value or an infinity whose
    sign bit is clear; so [sqrt(err)] on line 237 is never the square
    root of a negative number. *)
Theorem err_never_negative (h : list F32.float) (p1 p2 : SiftPoint) :
  Evaluator.err h p1 p2 = S754_nan \/ Float.nonneg (Evaluator.err h p1 p2) = true.
Proof.
  unfold Evaluator.err.
  apply SignFacts.add_not_negative; apply SignFacts.square_not_negative.
Qed.

(** X6.  The descriptor similarity printed on a candidate's line is
    symmetric: the dot product of lines 219-221 is the same value when
    the two descriptors are exchanged. *)
Theorem dot_symmetric (data1 data2 : list F32.float) :
  Evaluator.dot data1 data2 = Evaluator.dot data2 data1.
Proof.
  unfold Evaluator.dot. apply SignFacts.fold_left_ext.
  intros sum k. f_equal. apply SignFacts.mul_comm.
Qed.


(** ** The transform that [MatchAll] evaluates *)

Module RotationFacts.

(** [-1.0f * x] is [-x]. *)
Lemma mul_minus_one_l (s : bool) (m : positive) (e : Z) :
  F32.valid (S754_finite s m e) = true ->
  F32.mul F32.minus_one (S754_finite s m e) = S754_finite (negb s) m e.
Proof.
  intros Hv. unfold F32.mul, F32.minus_one, SFmul. cbn [xorb].
  change (Pos.mul 8388608 m) with (Pos.shiftl_nat m 23).
  replace (-23 + e) with (e - Z.of_nat 23) by lia.
  apply ExactFacts.round_aux_shift. exact Hv.
Qed.

(** [-x + c] is [c - x]. *)
Lemma add_opp_sub (s : bool) (m : positive) (e : Z) (mc : positive) (ec : Z) :
  F32.add (S754_finite (negb s) m e) (S754_finite false mc ec)
  = F32.sub (S754_finite false mc ec) (S754_finite s m e).
Proof.
  unfold F32.add, F32.sub, SFadd, SFsub.
  rewrite (Z.min_comm e ec). f_equal.
  destruct s; cbn [cond_Zopp negb]; lia.
Qed.

(** The numerator [-1*v + 0*u + c] of lines 223 and 224, and the
    numerator [0*u + -1*v + c], for a positive constant [c]. *)
Lemma numerator (v u : F32.float) (mc : positive) (ec : Z) :
  F32.valid v = true -> Float.is_finite v = true -> Float.is_finite u = true ->
  F32.add (F32.add (F32.mul F32.minus_one v) (F32.mul F32.zero u))
          (S754_finite false mc ec)
  = F32.sub (S754_finite false mc ec) v
  /\ F32.add (F32.add (F32.mul F32.zero u) (F32.mul F32.minus_one v))
             (S754_finite false mc ec)
     = F32.sub (S754_finite false mc ec) v.
Proof.
  intros Hv Hfv Hfu.
  destruct (ProjectionFacts.mul_zero_l u Hfu) as [t ->].
  destruct v as [s | s | | s m e]; try discriminate Hfv.
  - destruct s, t; split; reflexivity.
  - rewrite (mul_minus_one_l s m e Hv).
    cbn [F32.add SFadd]. split; apply add_opp_sub.
Qed.

End RotationFacts.

(** X7.  When the caller's last coefficient is 1, the transform that
    [MatchAll] evaluates is the half-turn of a 1280 x 960 image: for a
    finite position the denominator is 1 and the numerators are
    [1279 - x] and [959 - y], so the projected position is
    [((1279 - x) / 1, (959 - y) / 1)], whatever the other eight
    coefficients passed in. *)
Theorem MatchAll_half_turn
    (siftData1 siftData2 : SiftData) (homography : list F32.float) (a : SiftPoint) :
  length homography = 9%nat ->
  Evaluator.hom homography 8 = F32.one ->
  F32.valid (xpos a) = true -> F32.valid (ypos a) = true ->
  Float.is_finite (xpos a) = true -> Float.is_finite (ypos a) = true ->
  let h := (Evaluator.MatchAll siftData1 siftData2 homography).2 in
  Evaluator.den h a = F32.one
  /\ Evaluator.proj_x h a = F32.div (F32.sub F32.c1279 (xpos a)) F32.one
  /\ Evaluator.proj_y h a = F32.div (F32.sub F32.c959 (ypos a)) F32.one.
Proof.
  intros Hlen H8 Hvx Hvy Hfx Hfy h.
  unfold h, Evaluator.MatchAll. cbn [snd].
  rewrite (EvaluatorFacts.overwrite_fixed homography Hlen), H8.
  assert (Hden : Evaluator.den (Evaluator.fixed F32.one) a = F32.one).
  { unfold Evaluator.den.
    change (Evaluator.hom (Evaluator.fixed F32.one) 6) with F32.zero.
    change (Evaluator.hom (Evaluator.fixed F32.one) 7) with F32.zero.
    change (Evaluator.hom (Evaluator.fixed F32.one) 8) with F32.one.
    destruct (ProjectionFacts.mul_zero_l _ Hfx) as [t ->].
    destruct (ProjectionFacts.mul_zero_l _ Hfy) as [u ->].
    destruct t, u; reflexivity. }
  split; [exact Hden|].
  unfold Evaluator.proj_x, Evaluator.proj_y. rewrite Hden.
  change (Evaluator.hom (Evaluator.fixed F32.one) 0) with F32.minus_one.
  change (Evaluator.hom (Evaluator.fixed F32.one) 1) with F32.zero.
  change (Evaluator.hom (Evaluator.fixed F32.one) 2) with F32.c1279.
  change (Evaluator.hom (Evaluator.fixed F32.one) 3) with F32.zero.
  change (Evaluator.hom (Evaluator.fixed F32.one) 4) with F32.minus_one.
  change (Evaluator.hom (Evaluator.fixed F32.one) 5) with F32.c959.
  split.
  - f_equal. apply (RotationFacts.numerator (xpos a) (ypos a)); assumption.
  - f_equal. apply (RotationFacts.numerator (ypos a) (xpos a)); assumption.
Qed.

(** The point (10, 10) is projected to (1269, 949). *)
Lemma MatchAll_half_turn_witness :
  Evaluator.proj_x
    (Evaluator.MatchAll Scenario.setA Scenario.setB Scenario.identity).2 Scenario.a0
  = F32.of_int 1269
  /\ Evaluator.proj_y
    (Evaluator.MatchAll Scenario.setA Scenario.setB Scenario.identity).2 Scenario.a0
  = F32.of_int 949.
Proof.
  destruct (MatchAll_half_turn Scenario.setA Scenario.setB Scenario.identity
              Scenario.a0 eq_refl eq_refl eq_refl eq_refl eq_refl eq_refl)
    as (_ & Hx & Hy).
  split; [rewrite Hx | rewrite Hy]; vm_compute; reflexivity.
Defined.

(** X8.  The percentage of line 125 has no guard on its divisor: when
    one of the two feature sets is empty the value printed is an
    infinity or NaN, and NaN when no feature was fitted. *)
Theorem match_percent_of_empty_set (numFit numPts1 numPts2 : Z) :
  Int32.min numPts1 numPts2 = 0 ->
  Float.inf_or_nan (Main.match_percent numFit numPts1 numPts2)
  /\ (numFit = 0 -> Main.match_percent numFit numPts1 numPts2 = S754_nan).
Proof.
  intros Hmin. unfold Main.match_percent. rewrite Hmin.
  change (F32.of_int 0) with (S754_zero false). split.
  - apply FloatFacts.div_zero.
  - intros ->. reflexivity.
Qed.

(** No feature in the second image. *)
Lemma match_percent_of_empty_set_witness :
  Main.match_percent 0 512 0 = S754_nan.
Proof.
  apply (match_percent_of_empty_set 0 512 0); reflexivity.
Defined.


(** X14.  A candidate that lies exactly on the projected position of a
    point has a squared error of exactly zero and is within the
    threshold, for whatever the array holds, provided the projected
    position is finite. *)
Theorem exact_hit_is_near (h : list F32.float) (p1 p2 : SiftPoint) :
  xpos p2 = Evaluator.proj_x h p1 ->
  ypos p2 = Evaluator.proj_y h p1 ->
  Float.is_finite (Evaluator.proj_x h p1) = true ->
  Float.is_finite (Evaluator.proj_y h p1) = true ->
  Evaluator.err h p1 p2 = F32.zero /\ Evaluator.near h p1 p2 = true.
Proof.
  intros Hx Hy Hfx Hfy.
  assert (Hsub : forall v, Float.is_finite v = true -> F32.sub v v = S754_zero false).
  { intros v Hv. destruct v as [s | s | | s m e]; try discriminate Hv.
    - destruct s; reflexivity.
    - unfold F32.sub, SFsub. rewrite Z.sub_diag. reflexivity. }
  assert (Herr : Evaluator.err h p1 p2 = F32.zero).
  { unfold Evaluator.err, Evaluator.dx, Evaluator.dy.
    rewrite Hx, Hy, !Hsub by assumption. reflexivity. }
  split; [exact Herr|].
  unfold Evaluator.near. rewrite Herr. reflexivity.
Qed.

(** Under the identity, the point (10, 10) and a candidate at
    (10, 10). *)
Lemma exact_hit_is_near_witness :
  Evaluator.near Scenario.identity Scenario.a0 (Scenario.feature 10 10 1 0 1) = true.
Proof.
  exact (proj2 (exact_hit_is_near Scenario.identity Scenario.a0
                  (Scenario.feature 10 10 1 0 1)
                  ltac:(vm_compute; reflexivity) ltac:(vm_compute; reflexivity)
                  ltac:(vm_compute; reflexivity) ltac:(vm_compute; reflexivity))).
Defined.


Module HalfTurnFacts.

(** Lines 222-224 on the array that lines 208-211 leave when the last
    coefficient is one. *)
Lemma fixed_one (a : SiftPoint) :
  F32.valid (xpos a) = true -> F32.valid (ypos a) = true ->
  Float.is_finite (xpos a) = true -> Float.is_finite (ypos a) = true ->
  Evaluator.den (Evaluator.fixed F32.one) a = F32.one
  /\ Evaluator.proj_x (Evaluator.fixed F32.one) a
     = F32.div (F32.sub F32.c1279 (xpos a)) F32.one
  /\ Evaluator.proj_y (Evaluator.fixed F32.one) a
     = F32.div (F32.sub F32.c959 (ypos a)) F32.one.
Proof.
  intros Hvx Hvy Hfx Hfy.
  assert (Hden : Evaluator.den (Evaluator.fixed F32.one) a = F32.one).
  { unfold Evaluator.den.
    change (Evaluator.hom (Evaluator.fixed F32.one) 6) with F32.zero.
    change (Evaluator.hom (Evaluator.fixed F32.one) 7) with F32.zero.
    change (Evaluator.hom (Evaluator.fixed F32.one) 8) with F32.one.
    destruct (ProjectionFacts.mul_zero_l _ Hfx) as [t ->].
    destruct (ProjectionFacts.mul_zero_l _ Hfy) as [u ->].
    destruct t, u; reflexivity. }
  split; [exact Hden|].
  unfold Evaluator.proj_x, Evaluator.proj_y. rewrite Hden.
  change (Evaluator.hom (Evaluator.fixed F32.one) 0) with F32.minus_one.
  change (Evaluator.hom (Evaluator.fixed F32.one) 1) with F32.zero.
  change (Evaluator.hom (Evaluator.fixed F32.one) 2) with F32.c1279.
  change (Evaluator.hom (Evaluator.fixed F32.one) 3) with F32.zero.
  change (Evaluator.hom (Evaluator.fixed F32.one) 4) with F32.minus_one.
  change (Evaluator.hom (Evaluator.fixed F32.one) 5) with F32.c959.
  split.
  - f_equal. apply (RotationFacts.numerator (xpos a) (ypos a)); assumption.
  - f_equal. apply (RotationFacts.numerator (ypos a) (xpos a)); assumption.
Qed.

End HalfTurnFacts.

(** C8, as the code has it.  When the identity transform is passed to
    [MatchAll], the projection of lines 222-224 is not evaluated with
    its coefficients: of the identity only the last coefficient, 1, is
    read, and for every finite source position the denominator is 1 and
    the projected position is [((1279 - x) / 1, (959 - y) / 1)], the
    half-turn of the source position in a 1280 x 960 image. *)
Theorem MatchAll_projects_identity_by_half_turn
    (siftData1 siftData2 : SiftData) (a : SiftPoint) :
  F32.valid (xpos a) = true -> F32.valid (ypos a) = true ->
  Float.is_finite (xpos a) = true -> Float.is_finite (ypos a) = true ->
  let h := (Evaluator.MatchAll siftData1 siftData2 Scenario.identity).2 in
  h = [F32.minus_one; F32.zero; F32.c1279;
       F32.zero; F32.minus_one; F32.c959;
       F32.zero; F32.zero; F32.one]
  /\ Evaluator.den h a = F32.one
  /\ Evaluator.proj_x h a = F32.div (F32.sub F32.c1279 (xpos a)) F32.one
  /\ Evaluator.proj_y h a = F32.div (F32.sub F32.c959 (ypos a)) F32.one.
Proof.
  intros Hvx Hvy Hfx Hfy h.
  assert (Hh : h = Evaluator.fixed F32.one) by reflexivity.
  split; [exact Hh|]. rewrite Hh.
  apply HalfTurnFacts.fixed_one; assumption.
Qed.

(** The point (50, 50) of the end-to-end scenario is projected to
    (1229, 909). *)
Lemma MatchAll_projects_identity_by_half_turn_witness :
  Evaluator.proj_x
    (Evaluator.MatchAll Scenario.setA Scenario.setB Scenario.identity).2 Scenario.a1
  = F32.of_int 1229
  /\ Evaluator.proj_y
    (Evaluator.MatchAll Scenario.setA Scenario.setB Scenario.identity).2 Scenario.a1
  = F32.of_int 909.
Proof.
  destruct (MatchAll_projects_identity_by_half_turn Scenario.setA Scenario.setB
              Scenario.a1 eq_refl eq_refl eq_refl eq_refl)
    as (_ & _ & Hx & Hy).
  split; [rewrite Hx | rewrite Hy]; vm_compute; reflexivity.
Defined.

(** C8 fails as stated: with the identity transform passed to
    [MatchAll], the source position (10, 10) is projected to
    (1269, 949), which does not compare equal to it in either
    coordinate. *)
Lemma MatchAll_identity_moves_the_point :
  let h := (Evaluator.MatchAll Scenario.setA Scenario.setB Scenario.identity).2 in
  xpos Scenario.a0 = F32.of_int 10
  /\ ypos Scenario.a0 = F32.of_int 10
  /\ Evaluator.proj_x h Scenario.a0 = F32.of_int 1269
  /\ Evaluator.proj_y h Scenario.a0 = F32.of_int 949
  /\ SFeqb (Evaluator.proj_x h Scenario.a0) (xpos Scenario.a0) = false
  /\ SFeqb (Evaluator.proj_y h Scenario.a0) (ypos Scenario.a0) = false
  /\ h <> Scenario.identity.
Proof.
  cbv zeta. repeat split; try (vm_compute; reflexivity).
  vm_compute. discriminate.
Qed.


(** ** The renderer as a whole *)

Module RenderFacts.

Lemma store_all_cons (buf : list F32.float) (wr : Renderer.write)
    (ws : list Renderer.write) :
  Renderer.store_all buf (wr :: ws)
  = b ← Renderer.store buf wr; Renderer.store_all b ws.
Proof.
  unfold Renderer.store_all. cbn [foldl mbind option_bind].
  destruct (Renderer.store buf wr) as [b|]; [reflexivity|].
  cbn. induction ws as [|q ws IH]; [reflexivity | exact IH].
Qed.

Lemma store_inv (buf buf' : list F32.float) (wr : Renderer.write) :
  Renderer.store buf wr = Some buf' ->
  0 <= wr.1 < Z.of_nat (length buf)
  /\ buf' = <[Z.to_nat wr.1 := wr.2]> buf.
Proof.
  unfold Renderer.store.
  destruct ((0 <=? wr.1) && (wr.1 <? Z.of_nat (length buf))) eqn:E; [|discriminate].
  intros [= <-]. apply andb_true_iff in E. split; [lia | reflexivity].
Qed.

(** Stores inside the buffer all succeed and keep its length. *)
Lemma store_all_ok (ws : list Renderer.write) : forall buf : list F32.float,
  Forall (fun wr : Renderer.write => 0 <= wr.1 < Z.of_nat (length buf)) ws ->
  exists buf', Renderer.store_all buf ws = Some buf' /\ length buf' = length buf.
Proof.
  induction ws as [|wr ws IH]; intros buf Hall.
  - exists buf. split; reflexivity.
  - apply Forall_cons in Hall as [Hwr Hall].
    rewrite store_all_cons. unfold Renderer.store at 1.
    replace ((0 <=? wr.1) && (wr.1 <? Z.of_nat (length buf))) with true
      by (symmetry; apply andb_true_iff; lia).
    cbn [mbind option_bind].
    destruct (IH (<[Z.to_nat wr.1 := wr.2]> buf)) as (buf' & Hst & Hlen).
    { rewrite length_insert. exact Hall. }
    exists buf'. rewrite length_insert in Hlen. split; assumption.
Qed.

(** What a run of stores leaves in the buffer: its length, and at each
    place the old value or a stored one. *)
Lemma store_all_frame (ws : list Renderer.write) : forall buf buf' : list F32.float,
  Renderer.store_all buf ws = Some buf' ->
  length buf' = length buf
  /\ Forall (fun wr : Renderer.write => 0 <= wr.1 < Z.of_nat (length buf)) ws
  /\ forall (i : nat) (v : F32.float), buf' !! i = Some v ->
       buf !! i = Some v \/ exists wr, wr ∈ ws /\ Z.to_nat wr.1 = i /\ wr.2 = v.
Proof.
  induction ws as [|wr ws IH]; intros buf buf' Hst.
  - injection Hst as <-. repeat split; [constructor | auto].
  - rewrite store_all_cons in Hst.
    destruct (Renderer.store buf wr) as [b|] eqn:Hb; [|discriminate Hst].
    cbn [mbind option_bind] in Hst.
    apply store_inv in Hb as [Hr ->].
    destruct (IH _ _ Hst) as (Hlen & Hall & Hfr).
    rewrite length_insert in Hlen, Hall.
    split; [exact Hlen|]. split; [constructor; assumption|].
    intros i v Hi. destruct (Hfr i v Hi) as [Hold | (q & Hq & Hqi & Hqv)].
    + destruct (decide (Z.to_nat wr.1 = i)) as [E | E].
      * subst i. rewrite list_lookup_insert_eq in Hold by lia.
        right. exists wr. split; [apply list_elem_of_here|].
        split; [reflexivity | congruence].
      * rewrite list_lookup_insert_ne in Hold by exact E. left. exact Hold.
    + right. exists q. split; [apply list_elem_of_further, Hq | auto].
Qed.

(** The marker of a position inside the image, for any radius up to the
    distance to the edges that line 290 takes. *)
Lemma marker_inside (w h x y s : Z) :
  0 < w -> 0 < h -> w * h <= Int32.max_int ->
  0 <= x < w -> 0 <= y < h ->
  s <= Z.min x (Z.min y (Z.min (w - x - 2) (h - y - 2))) ->
  Forall (Spec.in_buffer w h) (Renderer.marker_passes w x y s).
Proof.
  intros Hw Hh Hwh Hxr Hyr Hs.
  destruct (Z_le_gt_dec s 0) as [Hs0 | Hs0].
  - unfold Renderer.marker_passes, Renderer.pass.
    rewrite (Int32Facts.upto_nonpos s Hs0). constructor.
  - destruct (LineFacts.offset_in_buffer w h x y Hw Hh Hwh Hxr Hyr) as [Hp Hpr].
    assert (Hyw : (y + 1) * w <= (h - 2) * w)
      by (apply Z.mul_le_mono_nonneg_r; lia).
    assert (Hexp1 : (y + 1) * w = y * w + w) by ring.
    assert (Hexp2 : (h - 2) * w = w * h - 2 * w) by ring.
    assert (Hw1 : Int32.add w 1 = w + 1).
    { apply Int32Facts.wrap_in_range.
      unfold Int32.in_range, Int32.min_int, Int32.max_int in *. nia. }
    unfold Renderer.marker_passes.
    rewrite MarkerFacts.second_centre, Hp, Hw1.
    assert (Hp1 : Int32.add (y * w + x) (w + 1) = (y + 1) * w + (x + 1)).
    { unfold Int32.add. rewrite Int32Facts.wrap_in_range; [ring|].
      unfold Int32.in_range, Int32.min_int, Int32.max_int in *. lia. }
    rewrite Hp1. apply Forall_app. split;
      apply RadiusFacts.pass_in_buffer; try assumption; lia.
Qed.

(** Line 290 for a position outside the image: the radius is
    negative. *)
Lemma radius_outside (w h x y r : Z) :
  0 < w -> 0 < h -> w * h <= Int32.max_int ->
  Int32.in_range x -> Int32.in_range y ->
  ~ (0 <= x < w /\ 0 <= y < h) ->
  Renderer.radius w h x y r < 0.
Proof.
  intros Hw Hh Hwh Hx Hy Hout.
  assert (Hwm : w <= Int32.max_int) by nia.
  assert (Hhm : h <= Int32.max_int) by nia.
  unfold Renderer.radius. rewrite !Int32Facts.min_spec.
  unfold Int32.in_range, Int32.min_int, Int32.max_int in *.
  destruct (Z_lt_le_dec x 0); [lia|].
  destruct (Z_lt_le_dec y 0); [lia|].
  destruct (Z_lt_le_dec x w).
  - assert (Hyh : h <= y) by lia.
    assert (E : Int32.sub (Int32.sub h y) 2 = h - y - 2).
    { unfold Int32.sub.
      rewrite (Int32Facts.wrap_in_range (h - y))
        by (unfold Int32.in_range, Int32.min_int, Int32.max_int; lia).
      apply Int32Facts.wrap_in_range.
      unfold Int32.in_range, Int32.min_int, Int32.max_int; lia. }
    rewrite E. lia.
  - assert (E : Int32.sub (Int32.sub w x) 2 = w - x - 2).
    { unfold Int32.sub.
      rewrite (Int32Facts.wrap_in_range (w - x))
        by (unfold Int32.in_range, Int32.min_int, Int32.max_int; lia).
      apply Int32Facts.wrap_in_range.
      unfold Int32.in_range, Int32.min_int, Int32.max_int; lia. }
    rewrite E. lia.
Qed.

Lemma marker_writes_inv (w h : Z) (p1 : SiftPoint) (ws : list Renderer.write) :
  Renderer.marker_writes w h p1 = Some ws ->
  exists x y r,
    Renderer.round_pos (xpos p1) = Some x
    /\ Renderer.round_pos (ypos p1) = Some y
    /\ Renderer.scale_radius (scale p1) = Some r
    /\ ws = Renderer.marker_passes w x y (Renderer.radius w h x y r).
Proof.
  unfold Renderer.marker_writes. intros H.
  destruct (Renderer.round_pos (xpos p1)) as [x|]; [|discriminate H].
  destruct (Renderer.round_pos (ypos p1)) as [y|]; [|discriminate H].
  destruct (Renderer.scale_radius (scale p1)) as [r|]; [|discriminate H].
  cbn in H. injection H as <-. exists x, y, r. auto.
Qed.

Lemma marker_in_buffer (w h : Z) (p1 : SiftPoint) (ws : list Renderer.write) :
  0 < w -> 0 < h -> w * h <= Int32.max_int ->
  Renderer.marker_writes w h p1 = Some ws ->
  Forall (Spec.in_buffer w h) ws.
Proof.
  intros Hw Hh Hwh Hws.
  apply marker_writes_inv in Hws as (x & y & r & Hx & Hy & Hr & ->).
  destruct (RadiusFacts.to_int_trunc _ _ Hx) as [_ Hxr].
  destruct (RadiusFacts.to_int_trunc _ _ Hy) as [_ Hyr].
  destruct (decide (0 <= x < w /\ 0 <= y < h)) as [[Hxi Hyi] | Hout].
  - apply marker_inside; try assumption.
    rewrite RadiusFacts.radius_min by assumption. lia.
  - pose proof (radius_outside w h x y r Hw Hh Hwh Hxr Hyr Hout) as Hneg.
    unfold Renderer.marker_passes, Renderer.pass.
    rewrite Int32Facts.upto_nonpos by lia. constructor.
Qed.

End RenderFacts.

(** X9.  Wherever the feature lies, inside the image or not, and
    whatever its scale, no store of its marker leaves the buffer: a
    position outside the image gives a negative radius and no store at
    all. *)
Theorem marker_never_leaves_buffer (w h : Z) (p1 : SiftPoint)
    (ws : list Renderer.write) :
  0 < w -> 0 < h -> w * h <= Int32.max_int ->
  Renderer.marker_writes w h p1 = Some ws ->
  Forall (Spec.in_buffer w h) ws
  /\ (forall x y,
        Renderer.round_pos (xpos p1) = Some x ->
        Renderer.round_pos (ypos p1) = Some y ->
        ~ (0 <= x < w /\ 0 <= y < h) -> ws = []).
Proof.
  intros Hw Hh Hwh Hws. split.
  - apply RenderFacts.marker_in_buffer with (p1 := p1); assumption.
  - intros x y Hx Hy Hout.
    apply RenderFacts.marker_writes_inv in Hws as (x' & y' & r & Hx' & Hy' & Hr & ->).
    rewrite Hx in Hx'. rewrite Hy in Hy'. injection Hx' as <-. injection Hy' as <-.
    destruct (RadiusFacts.to_int_trunc _ _ Hx) as [_ Hxr].
    destruct (RadiusFacts.to_int_trunc _ _ Hy) as [_ Hyr].
    pose proof (RenderFacts.radius_outside w h x y r Hw Hh Hwh Hxr Hyr Hout) as Hneg.
    unfold Renderer.marker_passes, Renderer.pass.
    rewrite Int32Facts.upto_nonpos by lia. reflexivity.
Qed.

(** A feature at (150, 50), outside a 100 x 100 image. *)
Lemma marker_never_leaves_buffer_witness :
  Renderer.marker_passes 100 150 50 (Renderer.radius 100 100 150 50 11) = [].
Proof.
  exact (proj2 (marker_never_leaves_buffer 100 100 (Scenario.feature 150 50 8 0 9)
                  (Renderer.marker_passes 100 150 50 (Renderer.radius 100 100 150 50 11))
                  ltac:(lia) ltac:(lia) ltac:(vm_compute; discriminate) eq_refl)
               150 50 eq_refl eq_refl ltac:(lia)).
Defined.

Module FrameFacts.

Lemma writes_inv (siftData1 siftData2 : SiftData) (img : CudaImage)
    (ws : list Renderer.write) :
  Renderer.writes siftData1 siftData2 img = Some ws ->
  exists per_point,
    Forall2 (fun p l =>
               Renderer.point_writes (width img) (height img) (h_data siftData2) p
               = Some l)
            (points siftData1) per_point
    /\ ws = concat per_point.
Proof.
  unfold Renderer.writes. intros H.
  destruct (mapM _ (points siftData1)) as [per|] eqn:E; [|discriminate H].
  cbn in H. injection H as <-. exists per. split; [|reflexivity].
  apply mapM_Some. exact E.
Qed.

Lemma elem_of_concat (per : list (list Renderer.write)) (wr : Renderer.write) :
  wr ∈ concat per -> exists l, l ∈ per /\ wr ∈ l.
Proof.
  rewrite list_elem_of_In, in_concat. intros (l & Hl & Hwr).
  exists l. rewrite !list_elem_of_In. auto.
Qed.

Lemma point_writes_inv (w h : Z) (sift2 : list SiftPoint) (p : SiftPoint)
    (l : list Renderer.write) :
  Renderer.point_writes w h sift2 p = Some l ->
  exists line marker,
    l = line ++ marker
    /\ Renderer.marker_writes w h p = Some marker
    /\ (if F32.ltb (match_error p) F32.c5
        then exists p2, Renderer.at_index sift2 (match_ p) = Some p2
                        /\ Renderer.line_writes w p p2 = Some line
        else line = []).
Proof.
  unfold Renderer.point_writes. intros H.
  destruct (F32.ltb (match_error p) F32.c5).
  - destruct (Renderer.at_index sift2 (match_ p)) as [p2|]; [|discriminate H].
    cbn [mbind option_bind] in H.
    destruct (Renderer.line_writes w p p2) as [line|] eqn:El; [|discriminate H].
    cbn [mbind option_bind] in H.
    destruct (Renderer.marker_writes w h p) as [marker|]; [|discriminate H].
    cbn in H. injection H as <-. exists line, marker. eauto.
  - cbn [mbind option_bind] in H.
    destruct (Renderer.marker_writes w h p) as [marker|]; [|discriminate H].
    cbn in H. injection H as <-. exists [], marker. auto.
Qed.

Lemma line_values (w : Z) (p1 p2 : SiftPoint) (ws : list Renderer.write) :
  Renderer.line_writes w p1 p2 = Some ws ->
  Forall (fun wr : Renderer.write => wr.2 = F32.c255) ws.
Proof.
  unfold Renderer.line_writes. intros H.
  destruct (Renderer.line_len _ _) as [len|]; [|discriminate H].
  cbn in H. apply mapM_Some in H.
  apply Forall_forall. intros wr Hwr.
  apply list_elem_of_lookup in Hwr as [i Hi].
  destruct (Forall2_lookup_r _ _ _ _ _ H Hi) as (l & _ & Hstep).
  apply LineFacts.line_step_inv in Hstep as (x & y & _ & _ & ->). reflexivity.
Qed.

Lemma marker_values (w h : Z) (p : SiftPoint) (ws : list Renderer.write) :
  Renderer.marker_writes w h p = Some ws ->
  Forall (fun wr : Renderer.write => wr.2 = F32.zero \/ wr.2 = F32.c255) ws.
Proof.
  intros H. apply RenderFacts.marker_writes_inv in H as (x & y & r & _ & _ & _ & ->).
  unfold Renderer.marker_passes. apply Forall_app. split.
  - eapply Forall_impl; [apply MarkerFacts.pass_value|]. cbn. auto.
  - eapply Forall_impl; [apply MarkerFacts.pass_value|]. cbn. auto.
Qed.

Lemma point_values (w h : Z) (sift2 : list SiftPoint) (p : SiftPoint)
    (l : list Renderer.write) :
  Renderer.point_writes w h sift2 p = Some l ->
  Forall (fun wr : Renderer.write => wr.2 = F32.zero \/ wr.2 = F32.c255) l.
Proof.
  intros H. apply point_writes_inv in H as (line & marker & -> & Hm & Hl).
  apply Forall_app. split; [|eapply marker_values; eassumption].
  destruct (F32.ltb (match_error p) F32.c5).
  - destruct Hl as (p2 & _ & Hl).
    eapply Forall_impl; [eapply line_values; eassumption|]. cbn. auto.
  - subst line. constructor.
Qed.

End FrameFacts.

(** X10.  [PrintMatchData] keeps the dimensions of the image and the
    length of its buffer, and every pixel it leaves behind has its old
    value, the value 0 or the value 255. *)
Theorem PrintMatchData_frame
    (siftData1 siftData2 : SiftData) (img img' : CudaImage) :
  Renderer.PrintMatchData siftData1 siftData2 img = Some img' ->
  width img' = width img
  /\ height img' = height img
  /\ length (h_img img') = length (h_img img)
  /\ forall (i : nat) (v : F32.float),
       h_img img' !! i = Some v ->
       h_img img !! i = Some v \/ v = F32.zero \/ v = F32.c255.
Proof.
  unfold Renderer.PrintMatchData. intros H.
  destruct (Renderer.writes siftData1 siftData2 img) as [ws|] eqn:Ews;
    [|discriminate H].
  cbn [mbind option_bind] in H.
  destruct (Renderer.store_all (h_img img) ws) as [buf|] eqn:Est; [|discriminate H].
  cbn in H. injection H as <-. cbn [width height h_img].
  destruct (RenderFacts.store_all_frame ws _ _ Est) as (Hlen & _ & Hfr).
  repeat split; try assumption.
  intros i v Hi. destruct (Hfr i v Hi) as [Hold | (wr & Hwr & _ & <-)]; [auto|].
  right.
  apply FrameFacts.writes_inv in Ews as (per & Hper & ->).
  apply FrameFacts.elem_of_concat in Hwr as (l & Hl & Hwr).
  apply list_elem_of_lookup in Hl as [k Hk].
  destruct (Forall2_lookup_r _ _ _ _ _ Hper Hk) as (p & _ & Hp).
  apply FrameFacts.point_values in Hp.
  rewrite Forall_forall in Hp. exact (Hp wr Hwr).
Qed.

(** The marker of radius 2 at (4, 4) in a blank 10 x 10 image. *)
Lemma PrintMatchData_frame_witness :
  exists img',
    Renderer.PrintMatchData (Scenario.set_of [Scenario.feature 4 4 2 0 9])
                            (Scenario.set_of []) (Scenario.blank 10 10) = Some img'
    /\ length (h_img img') = 100%nat.
Proof.
  eexists. split.
  - vm_compute. reflexivity.
  - refine (proj1 (proj2 (proj2 (PrintMatchData_frame
              (Scenario.set_of [Scenario.feature 4 4 2 0 9]) (Scenario.set_of [])
              (Scenario.blank 10 10) _ _)))).
    vm_compute. reflexivity.
Defined.

(** X11.  When no point of the first set has a match error below 5,
    [PrintMatchData] draws markers only.  If for every point the casts
    of lines 288-290 are defined and the [int] arithmetic of lines
    290-292 does not overflow, its behaviour is defined: no store leaves
    a buffer of [width * height] pixels, and the result does not depend
    on the second set, which is not read. *)
Theorem PrintMatchData_markers_only
    (siftData1 siftData2 : SiftData) (img : CudaImage) :
  0 < width img -> 0 < height img ->
  width img * height img <= Int32.max_int ->
  length (h_img img) = Z.to_nat (width img * height img) ->
  (forall p, p ∈ points siftData1 ->
     F32.ltb (match_error p) F32.c5 = false
     /\ exists x y r,
          Renderer.round_pos (xpos p) = Some x
          /\ Renderer.round_pos (ypos p) = Some y
          /\ Renderer.scale_radius (scale p) = Some r
          /\ IntRange.marker_defined (width img) (height img) x y) ->
  exists ws img',
    Renderer.writes siftData1 siftData2 img = Some ws
    /\ Forall (Spec.in_buffer (width img) (height img)) ws
    /\ Renderer.PrintMatchData siftData1 siftData2 img = Some img'
    /\ (forall other : SiftData,
          Renderer.PrintMatchData siftData1 other img = Some img').
Proof.
  intros Hw Hh Hwh Hlen Hpts0.
  assert (Hpts : forall p, p ∈ points siftData1 ->
            F32.ltb (match_error p) F32.c5 = false
            /\ is_Some (Renderer.marker_writes (width img) (height img) p)).
  { intros p Hp. destruct (Hpts0 p Hp) as (Hlt & x & y & r & Hx & Hy & Hr & _).
    split; [exact Hlt|]. unfold Renderer.marker_writes.
    rewrite Hx, Hy, Hr. eexists. reflexivity. }
  assert (Hpw : forall sift2 p, p ∈ points siftData1 ->
            Renderer.point_writes (width img) (height img) sift2 p
            = Renderer.marker_writes (width img) (height img) p).
  { intros sift2 p Hp. destruct (Hpts p Hp) as [Hlt [m Hm]].
    unfold Renderer.point_writes. rewrite Hlt, Hm. reflexivity. }
  assert (Hmap : forall sift2,
            mapM (Renderer.point_writes (width img) (height img) sift2)
                 (points siftData1)
            = mapM (Renderer.marker_writes (width img) (height img))
                   (points siftData1)).
  { intros sift2. apply Forall_mapM_ext, Forall_forall.
    intros p Hp. apply Hpw, Hp. }
  destruct (mapM (Renderer.marker_writes (width img) (height img))
                 (points siftData1)) as [per|] eqn:Eper.
  2: { exfalso. apply mapM_None in Eper. apply Exists_exists in Eper as (p & Hp & Hn).
       destruct (Hpts p Hp) as [_ [m Hm]]. congruence. }
  assert (Hin : Forall (Spec.in_buffer (width img) (height img)) (concat per)).
  { apply Forall_forall. intros wr Hwr.
    apply FrameFacts.elem_of_concat in Hwr as (l & Hl & Hwr).
    apply list_elem_of_lookup in Hl as [k Hk].
    apply mapM_Some in Eper.
    destruct (Forall2_lookup_r _ _ _ _ _ Eper Hk) as (p & _ & Hp).
    pose proof (RenderFacts.marker_in_buffer _ _ _ _ Hw Hh Hwh Hp) as Hb.
    rewrite Forall_forall in Hb. exact (Hb wr Hwr). }
  destruct (RenderFacts.store_all_ok (concat per) (h_img img)) as (buf & Hst & _).
  { eapply Forall_impl; [exact Hin|]. unfold Spec.in_buffer. intros wr Hwr.
    rewrite Hlen. lia. }
  exists (concat per),
         {| width := width img; height := height img; h_img := buf |}.
  assert (Hwr : forall s2, Renderer.writes siftData1 s2 img = Some (concat per)).
  { intros s2. unfold Renderer.writes. rewrite Hmap. reflexivity. }
  split; [apply Hwr|]. split; [exact Hin|].
  assert (Hall : forall s2,
            Renderer.PrintMatchData siftData1 s2 img
            = Some {| width := width img; height := height img; h_img := buf |}).
  { intros s2. unfold Renderer.PrintMatchData. rewrite Hwr.
    cbn [mbind option_bind]. rewrite Hst. reflexivity. }
  split; [apply Hall | exact Hall].
Qed.

(** One loosely matched feature in a blank 10 x 10 image. *)
Lemma PrintMatchData_markers_only_witness :
  exists ws img',
    Renderer.writes (Scenario.set_of [Scenario.feature 4 4 2 7 9])
                    (Scenario.set_of []) (Scenario.blank 10 10) = Some ws
    /\ Renderer.PrintMatchData (Scenario.set_of [Scenario.feature 4 4 2 7 9])
                               (Scenario.set_of []) (Scenario.blank 10 10) = Some img'.
Proof.
  destruct (PrintMatchData_markers_only
              (Scenario.set_of [Scenario.feature 4 4 2 7 9]) (Scenario.set_of [])
              (Scenario.blank 10 10)
              ltac:(cbn; lia) ltac:(cbn; lia) ltac:(vm_compute; discriminate) eq_refl)
    as (ws & img' & H1 & _ & H2 & _).
  - intros p Hp. apply list_elem_of_singleton in Hp. subst p.
    split; [vm_compute; reflexivity|].
    exists 4, 4, 2. repeat split; try (vm_compute; reflexivity);
      vm_compute; discriminate.
  - exists ws, img'. split; assumption.
Defined.

(** X12.  The match index of a point is used as soon as its match error
    is below 5, without any test: when it is not an index of the second
    set (a negative index, or one past the array), [PrintMatchData]
    reads outside the array, which is undefined behaviour. *)
Theorem PrintMatchData_reads_unchecked_index
    (siftData1 siftData2 : SiftData) (img : CudaImage) (k : nat) (p : SiftPoint) :
  points siftData1 !! k = Some p ->
  F32.ltb (match_error p) F32.c5 = true ->
  match_ p < 0 \/ Z.of_nat (length (h_data siftData2)) <= match_ p ->
  Renderer.writes siftData1 siftData2 img = None
  /\ Renderer.PrintMatchData siftData1 siftData2 img = None.
Proof.
  intros Hk Hlt Hidx.
  assert (Hat : Renderer.at_index (h_data siftData2) (match_ p) = None).
  { unfold Renderer.at_index. destruct (Z.ltb_spec (match_ p) 0); [reflexivity|].
    apply lookup_ge_None. lia. }
  assert (Hp : Renderer.point_writes (width img) (height img) (h_data siftData2) p
               = None).
  { unfold Renderer.point_writes. rewrite Hlt, Hat. reflexivity. }
  assert (Hws : Renderer.writes siftData1 siftData2 img = None).
  { unfold Renderer.writes.
    replace (mapM _ (points siftData1)) with (@None (list (list Renderer.write)));
      [reflexivity|].
    symmetry. apply mapM_None, Exists_exists.
    exists p. split; [|exact Hp]. eapply list_elem_of_lookup_2. exact Hk. }
  split; [exact Hws|].
  unfold Renderer.PrintMatchData. rewrite Hws. reflexivity.
Qed.

(** A tightly matched feature whose match index is -1. *)
Lemma PrintMatchData_reads_unchecked_index_witness :
  Renderer.PrintMatchData (Scenario.set_of [Scenario.feature 4 4 2 (-1) 1])
                          Scenario.setB (Scenario.blank 10 10) = None.
Proof.
  exact (proj2 (PrintMatchData_reads_unchecked_index
                  (Scenario.set_of [Scenario.feature 4 4 2 (-1) 1]) Scenario.setB
                  (Scenario.blank 10 10) 0 (Scenario.feature 4 4 2 (-1) 1)
                  eq_refl eq_refl ltac:(left; cbn; lia))).
Defined.


Module StartFacts.

(** [d * 0.0f / len] is a zero or NaN. *)
Lemma step_zero (d : F32.float) (len : Z) :
  let q := F32.div (F32.mul d (F32.of_int 0)) (F32.of_int len) in
  q = S754_nan \/ exists t, q = S754_zero t.
Proof.
  change (F32.of_int 0) with (S754_zero false).
  destruct d as [s | s | | s m e]; cbn [F32.mul SFmul];
    destruct (F32.of_int len) as [sl | sl | | sl ml el]; cbn; eauto.
Qed.

Lemma add_zero_to_int (pos : F32.float) (t : bool) :
  Float.to_int (F32.add pos (S754_zero t)) = Float.to_int pos.
Proof. destruct pos as [s | s | | s m e]; try reflexivity. destruct s, t; reflexivity. Qed.

Lemma add_nan_to_int (pos : F32.float) :
  Float.to_int (F32.add pos S754_nan) = None.
Proof. destruct pos; reflexivity. Qed.

(** The first interpolated coordinate is the source coordinate,
    truncated. *)
Lemma interp_first (pos d : F32.float) (len x : Z) :
  Renderer.interp pos d 0 len = Some x -> Float.to_int pos = Some x.
Proof.
  unfold Renderer.interp.
  destruct (step_zero d len) as [-> | [t ->]].
  - rewrite add_nan_to_int. discriminate.
  - rewrite add_zero_to_int. auto.
Qed.

End StartFacts.

(** X13.  A line that is drawn at all starts on the pixel of its source
    feature: its first store is at offset [y0*width + x0], where
    [(x0, y0)] is the truncated position of the feature. *)
Theorem line_starts_at_source (w : Z) (p1 p2 : SiftPoint)
    (ws : list Renderer.write) :
  Renderer.line_writes w p1 p2 = Some ws ->
  ws <> [] ->
  exists x0 y0,
    Float.to_int (xpos p1) = Some x0
    /\ Float.to_int (ypos p1) = Some y0
    /\ head ws = Some (Int32.add (Int32.mul y0 w) x0, F32.c255).
Proof.
  intros Hws Hne. unfold Renderer.line_writes in Hws.
  destruct (Renderer.line_len _ _) as [len|]; [|discriminate Hws].
  cbn in Hws. pose proof (length_mapM _ _ _ Hws) as Hlen.
  apply mapM_Some in Hws.
  rewrite Int32Facts.length_upto in Hlen.
  assert (Hpos : 0 < len).
  { destruct ws; [contradiction|]. cbn in Hlen. lia. }
  assert (H0 : Int32.upto len !! 0%nat = Some 0).
  { unfold Int32.upto. apply lookup_seqZ. lia. }
  destruct (Forall2_lookup_l _ _ _ _ _ Hws H0) as (wr & Hwr & Hstep).
  apply LineFacts.line_step_inv in Hstep as (x & y & Hx & Hy & ->).
  exists x, y.
  split; [eapply StartFacts.interp_first; exact Hx|].
  split; [eapply StartFacts.interp_first; exact Hy|].
  rewrite head_lookup. exact Hwr.
Qed.

(** The line from (10, 10) to (13, 10) in an image 100 pixels wide. *)
Lemma line_starts_at_source_witness :
  exists x0 y0,
    Float.to_int (F32.of_int 10) = Some x0
    /\ Float.to_int (F32.of_int 10) = Some y0
    /\ Some (1010, F32.c255) = Some (Int32.add (Int32.mul y0 100) x0, F32.c255).
Proof.
  exact (line_starts_at_source 100
           (Scenario.feature 10 10 1 0 1) (Scenario.feature 13 10 1 0 1)
           [(1010, F32.c255); (1011, F32.c255); (1012, F32.c255)]
           ltac:(vm_compute; reflexivity) ltac:(discriminate)).
Defined.


(** ** Powers of two and binary digits *)

Module PowerFacts.

Import Real.

Lemma bpow_pos (e : Z) : (0 < bpow e)%R.
Proof. apply powerRZ_lt. lra. Qed.

Lemma bpow_plus (a b : Z) : bpow (a + b) = (bpow a * bpow b)%R.
Proof. apply powerRZ_add. lra. Qed.

Lemma bpow_0 : bpow 0 = 1%R.
Proof. reflexivity. Qed.

Lemma bpow_1 : bpow 1 = 2%R.
Proof. unfold bpow, powerRZ. simpl. lra. Qed.

Lemma bpow_succ (e : Z) : bpow (e + 1) = (2 * bpow e)%R.
Proof. rewrite bpow_plus, bpow_1. lra. Qed.

Lemma bpow_Z (n : Z) : 0 <= n -> bpow n = IZR (2 ^ n).
Proof.
  intros Hn. pattern n. apply natlike_ind; [reflexivity | | exact Hn].
  intros k Hk IH. unfold Z.succ. rewrite bpow_succ, IH, Z.pow_add_r by lia.
  rewrite mult_IZR. change (2 ^ 1) with 2. lra.
Qed.

Lemma bpow_ge_1 (n : Z) : 0 <= n -> (1 <= bpow n)%R.
Proof.
  intros Hn. rewrite bpow_Z by exact Hn. apply IZR_le.
  pose proof (Z.pow_pos_nonneg 2 n). lia.
Qed.

Lemma bpow_le (a b : Z) : a <= b -> (bpow a <= bpow b)%R.
Proof.
  intros Hab. replace b with (a + (b - a)) by ring. rewrite bpow_plus.
  pose proof (bpow_pos a). pose proof (bpow_ge_1 (b - a) ltac:(lia)). nra.
Qed.

Lemma bpow_lt (a b : Z) : a < b -> (bpow a < bpow b)%R.
Proof.
  intros Hab. apply Rlt_le_trans with (bpow (a + 1)); [|apply bpow_le; lia].
  rewrite bpow_succ. pose proof (bpow_pos a). lra.
Qed.

Lemma bpow_lt_inv (a b : Z) : (bpow a < bpow b)%R -> a < b.
Proof.
  intros H. destruct (Z_lt_le_dec a b) as [Hlt | Hle]; [exact Hlt|].
  pose proof (bpow_le b a Hle). lra.
Qed.

Lemma bpow_le_inv (a b : Z) : (bpow a <= bpow b)%R -> a <= b.
Proof.
  intros H. destruct (Z_lt_le_dec b a) as [Hlt | Hle]; [|exact Hle].
  pose proof (bpow_lt b a Hlt). lra.
Qed.

(** [m * 2^a] on the finer grid [2^b]. *)
Lemma bpow_scale (m a b : Z) :
  b <= a -> (IZR m * bpow a = IZR (m * 2 ^ (a - b)) * bpow b)%R.
Proof.
  intros Hab. rewrite mult_IZR, <- bpow_Z by lia.
  replace a with ((a - b) + b) at 1 by ring. rewrite bpow_plus. ring.
Qed.

(** Comparison of two multiples of the same power of two. *)
Lemma multiple_le (m n e : Z) : (IZR m * bpow e <= IZR n * bpow e)%R -> m <= n.
Proof.
  intros H. apply le_IZR. pose proof (bpow_pos e). nra.
Qed.

Lemma multiple_lt (m n e : Z) : (IZR m * bpow e < IZR n * bpow e)%R -> m < n.
Proof.
  intros H. apply lt_IZR. pose proof (bpow_pos e). nra.
Qed.

Lemma digits2_pos_lower (m : positive) : 2 ^ (Zpos (digits2_pos m) - 1) <= Zpos m.
Proof.
  induction m as [m IH | m IH |]; cbn [digits2_pos]; [| |cbn; lia].
  - rewrite Pos2Z.inj_succ. replace (Z.succ (Zpos (digits2_pos m)) - 1)
      with (Z.succ (Zpos (digits2_pos m) - 1)) by lia.
    rewrite Z.pow_succ_r by lia. lia.
  - rewrite Pos2Z.inj_succ. replace (Z.succ (Zpos (digits2_pos m)) - 1)
      with (Z.succ (Zpos (digits2_pos m) - 1)) by lia.
    rewrite Z.pow_succ_r by lia. lia.
Qed.

(** The number of binary digits of a positive integer. *)
Lemma Zdigits2_bounds (m : Z) :
  0 < m -> 2 ^ (Zdigits2 m - 1) <= m < 2 ^ Zdigits2 m /\ 0 < Zdigits2 m.
Proof.
  intros Hm. destruct m as [|m|m]; try lia. cbn [Zdigits2].
  pose proof (digits2_pos_lower m). pose proof (TruncFacts.digits2_pos_bound m).
  lia.
Qed.

Lemma Zdigits2_le (m d : Z) : 0 <= m < 2 ^ d -> 0 <= d -> Zdigits2 m <= d.
Proof.
  intros Hm Hd. destruct (Z.eq_dec m 0) as [-> | Hne]; [cbn; lia|].
  destruct (Zdigits2_bounds m ltac:(lia)) as [[Hlo _] Hpos].
  destruct (Z_lt_le_dec d (Zdigits2 m)) as [Hlt | Hle]; [|exact Hle].
  assert (2 ^ d <= 2 ^ (Zdigits2 m - 1)) by (apply Z.pow_le_mono_r; lia). lia.
Qed.

Lemma Zdigits2_ge (m d : Z) : 2 ^ (d - 1) <= m -> 0 < d -> d <= Zdigits2 m.
Proof.
  intros Hm Hd.
  assert (0 < m) by (pose proof (Z.pow_pos_nonneg 2 (d - 1)); lia).
  destruct (Zdigits2_bounds m ltac:(lia)) as [[_ Hhi] Hpos].
  destruct (Z_lt_le_dec (Zdigits2 m) d) as [Hlt | Hle]; [|exact Hle].
  assert (2 ^ Zdigits2 m <= 2 ^ (d - 1)) by (apply Z.pow_le_mono_r; lia). lia.
Qed.

Lemma Zdigits2_nonneg (m : Z) : 0 <= Zdigits2 m.
Proof. destruct m; cbn; lia. Qed.

End PowerFacts.

(** ** Faithful rounding of [binary_round_aux] in binary32 *)

Module RoundFacts.

Import Real Grid PowerFacts.

Lemma fexp_eq (e : Z) : fexp 24 128 e = Z.max (e - 24) (-149).
Proof. reflexivity. Qed.

Lemma rec_exact_of_loc (m : Z) (l : location) :
  rec_exact (shr_record_of_loc m l) = is_exact l
  /\ shr_m (shr_record_of_loc m l) = m.
Proof. destruct l as [|[]]; split; reflexivity. Qed.

(** One shift to the right keeps the value in the slot of the halved
    mantissa. *)
Lemma shr_1_slot (mrs : shr_record) (e : Z) (v : R) :
  0 <= shr_m mrs ->
  slot (shr_m mrs) e (rec_exact mrs) v ->
  slot (shr_m (shr_1 mrs)) (e + 1) (rec_exact (shr_1 mrs)) v
  /\ shr_m (shr_1 mrs) = shr_m mrs / 2.
Proof.
  destruct mrs as [m r s]. unfold slot, rec_exact. cbn [shr_m shr_r shr_s].
  intros Hm [[Hlo Hhi] Hex].
  pose proof (bpow_pos e) as Hp. rewrite bpow_succ.
  destruct m as [|[p|p|]|]; try lia; cbn [shr_1 shr_m shr_r shr_s].
  - (* 0 *)
    split; [|reflexivity]. rewrite orb_false_l. cbn in Hhi, Hlo.
    split; [split; cbn; lra|].
    rewrite Hex. cbn. split; intros ->; lra.
  - (* 2p+1 *)
    assert (Hv : IZR (Zpos p~1) = (2 * IZR (Zpos p) + 1)%R).
    { change (Zpos p~1) with (2 * Zpos p + 1). rewrite plus_IZR, mult_IZR. lra. }
    rewrite plus_IZR in Hhi |- *. rewrite Hv in Hlo, Hhi.
    split.
    + split; [split; nra|]. cbn. split; [discriminate|]. intros ->. nra.
    + change (Zpos p~1) with (2 * Zpos p + 1).
      apply Z.div_unique with 1; lia.
  - (* 2p *)
    assert (Hv : IZR (Zpos p~0) = (2 * IZR (Zpos p))%R).
    { change (Zpos p~0) with (2 * Zpos p). rewrite mult_IZR. lra. }
    rewrite plus_IZR in Hhi |- *. rewrite Hv in Hlo, Hhi, Hex.
    split.
    + split; [split; nra|]. rewrite orb_false_l, Hex.
      split; intros ->; lra.
    + change (Zpos p~0) with (2 * Zpos p).
      apply Z.div_unique with 0; lia.
  - (* 1 *)
    change (1 + 1) with 2 in Hhi. change (0 + 1) with 1.
    split; [|reflexivity].
    split; [split; lra|]. cbn. split; [discriminate|]. intros ->. lra.
Qed.

Lemma shr_iter_slot (n : nat) (mrs : shr_record) (e : Z) (v : R) :
  0 <= shr_m mrs ->
  slot (shr_m mrs) e (rec_exact mrs) v ->
  let mrs' := Nat.iter n shr_1 mrs in
  slot (shr_m mrs') (e + Z.of_nat n) (rec_exact mrs') v
  /\ shr_m mrs' = shr_m mrs / 2 ^ Z.of_nat n.
Proof.
  intros Hm Hs. induction n as [|n IH].
  - cbn. rewrite Z.add_0_r, Z.div_1_r. split; [exact Hs | reflexivity].
  - cbv zeta in IH |- *.
    change (Nat.iter (S n) shr_1 mrs) with (shr_1 (Nat.iter n shr_1 mrs)).
    destruct IH as [IHs IHm].
    assert (Hm' : 0 <= shr_m (Nat.iter n shr_1 mrs)).
    { rewrite IHm. apply Z.div_pos; [exact Hm|]. apply Z.pow_pos_nonneg; lia. }
    destruct (shr_1_slot _ _ _ Hm' IHs) as [Hs1 Hm1].
    rewrite Nat2Z.inj_succ. unfold Z.succ. rewrite Z.add_assoc.
    split; [exact Hs1|].
    rewrite Hm1, IHm, Z.pow_add_r, Z.div_div by (try apply Z.pow_pos_nonneg; lia).
    reflexivity.
Qed.

(** [shr_fexp] brings the mantissa on the grid of its value. *)
Lemma shr_fexp_slot (m e : Z) (l : location) (v : R) :
  0 <= m ->
  slot m e (is_exact l) v ->
  exists mrs,
    shr_fexp 24 128 m e l = (mrs, grid m e)
    /\ shr_m mrs = m / 2 ^ (grid m e - e)
    /\ slot (shr_m mrs) (grid m e) (rec_exact mrs) v.
Proof.
  intros Hm Hs. unfold shr_fexp, shr, grid.
  destruct (rec_exact_of_loc m l) as [Hex Hmm].
  set (f := fexp 24 128 (Zdigits2 m + e)).
  destruct (f - e) as [|p|p] eqn:Hd.
  - exists (shr_record_of_loc m l).
    replace (Z.max e f) with e by lia.
    rewrite Z.sub_diag, Z.div_1_r, Hmm, Hex. auto.
  - exists (SpecFloat.iter_pos shr_1 p (shr_record_of_loc m l)).
    replace (Z.max e f) with (e + Zpos p) by lia.
    rewrite ExactFacts.iter_pos_nat.
    destruct (shr_iter_slot (Pos.to_nat p) (shr_record_of_loc m l) e v)
      as [Hs' Hm']; [rewrite Hmm; exact Hm | rewrite Hmm, Hex; exact Hs|].
    rewrite positive_nat_Z, Hmm in *.
    replace (e + Zpos p - e) with (Zpos p) by lia. auto.
  - exists (shr_record_of_loc m l).
    replace (Z.max e f) with e by lia.
    rewrite Z.sub_diag, Z.div_1_r, Hmm, Hex. auto.
Qed.

(** The mantissa on the grid has at most 24 digits. *)
Lemma grid_mantissa (m e : Z) :
  0 <= m -> 0 <= m / 2 ^ (grid m e - e) < 2 ^ 24.
Proof.
  intros Hm.
  assert (Hge : 0 <= grid m e - e) by (unfold grid; lia).
  pose proof (Z.pow_pos_nonneg 2 (grid m e - e) ltac:(lia) Hge) as Hpp.
  split; [apply Z.div_pos; lia|].
  apply Z.div_lt_upper_bound; [lia|].
  destruct (Z.eq_dec m 0) as [-> | Hne]; [lia|].
  destruct (Zdigits2_bounds m ltac:(lia)) as [[_ Hhi] Hd].
  rewrite <- Z.pow_add_r by lia.
  eapply Z.lt_le_trans; [exact Hhi|].
  apply Z.pow_le_mono_r; [lia|]. unfold grid. rewrite fexp_eq. lia.
Qed.

Lemma round_nearest_even_cases (mrs : shr_record) :
  let k := round_nearest_even (shr_m mrs) (loc_of_shr_record mrs) in
  k = shr_m mrs \/ (k = shr_m mrs + 1 /\ rec_exact mrs = false).
Proof.
  destruct mrs as [m [|] [|]]; cbn; auto.
  destruct (Z.even m); auto.
Qed.

(** The second [shr_fexp] of [binary_round_aux] changes nothing, or
    halves the mantissa [2^24] of a carry. *)
Lemma shr_fexp_carry (k g : Z) :
  0 <= k <= 2 ^ 24 -> -149 <= g ->
  exists mrs e,
    shr_fexp 24 128 k g loc_Exact = (mrs, e)
    /\ 0 <= shr_m mrs /\ g <= e <= g + 1
    /\ (IZR (shr_m mrs) * bpow e = IZR k * bpow g)%R.
Proof.
  intros Hk Hg. unfold shr_fexp, shr. rewrite fexp_eq.
  destruct (Z.eq_dec k (2 ^ 24)) as [-> | Hne].
  - change (Zdigits2 (2 ^ 24)) with 25.
    replace (Z.max (25 + g - 24) (-149) - g) with 1 by lia.
    eexists _, _. split; [reflexivity|]. cbn [SpecFloat.iter_pos shr_1 shr_record_of_loc].
    change (2 ^ 24) with 16777216. cbn [shr_1 shr_m].
    split; [lia|]. split; [lia|]. rewrite bpow_succ. lra.
  - assert (Hd : Zdigits2 k <= 24) by (apply Zdigits2_le; lia).
    pose proof (Zdigits2_nonneg k).
    destruct (Z.max (Zdigits2 k + g - 24) (-149) - g) as [|p|p] eqn:Hdiff; try lia.
    + eexists _, _. split; [reflexivity|]. cbn [shr_record_of_loc shr_m].
      repeat split; lia || lra.
    + eexists _, _. split; [reflexivity|]. cbn [shr_record_of_loc shr_m].
      repeat split; lia || lra.
Qed.

Lemma absR_finite (s : bool) (m : positive) (e : Z) :
  absR (S754_finite s m e) = (IZR (Zpos m) * bpow e)%R.
Proof. reflexivity. Qed.

Lemma absR_zero (s : bool) : absR (S754_zero s) = 0%R.
Proof. reflexivity. Qed.

(** [binary_round_aux] rounds faithfully when the value is too small to
    overflow. *)
Lemma round_aux_rounds (sx : bool) (mx ex : Z) (lx : location) (v : R) :
  0 <= mx ->
  slot mx ex (is_exact lx) v ->
  ex <= 103 -> (v < bpow 127)%R ->
  rounds sx v (grid mx ex) (mx / 2 ^ (grid mx ex - ex))
         (binary_round_aux 24 128 sx mx ex lx).
Proof.
  intros Hmx Hs Hex Hv.
  destruct (shr_fexp_slot mx ex lx v Hmx Hs) as (mrs & Hshr & Hm & [Hb Hx]).
  pose proof (grid_mantissa mx ex Hmx) as HK.
  set (g := grid mx ex) in *. set (K := mx / 2 ^ (g - ex)) in *.
  rewrite Hm in Hb, Hx.
  assert (Hg : -149 <= g) by (unfold g, grid; rewrite fexp_eq; lia).
  assert (Hg' : g <= 103).
  { unfold g, grid. rewrite fexp_eq.
    destruct (Z.eq_dec mx 0) as [-> | Hne]; [cbn; lia|].
    destruct (Zdigits2_bounds mx ltac:(lia)) as [[Hlo _] Hd].
    assert (Zdigits2 mx - 1 + ex < 127); [|lia].
    apply bpow_lt_inv. eapply Rle_lt_trans; [|exact Hv].
    destruct Hs as [[Hlo' _] _].
    eapply Rle_trans; [|exact Hlo'].
    rewrite bpow_plus, bpow_Z by lia.
    pose proof (bpow_pos ex). apply Rmult_le_compat_r; [lra|].
    apply IZR_le. exact Hlo. }
  unfold binary_round_aux. rewrite Hshr.
  pose proof (round_nearest_even_cases mrs) as Hk. cbv zeta in Hk.
  set (k := round_nearest_even (shr_m mrs) (loc_of_shr_record mrs)) in *.
  rewrite Hm in Hk.
  destruct (shr_fexp_carry k g ltac:(lia) Hg) as (mrs2 & e2 & -> & Hm2 & He2 & Hval).
  assert (Habs : signed sx (match shr_m mrs2 with
                  | 0 => S754_zero sx
                  | Zpos m => if e2 <=? 128 - 24 then S754_finite sx m e2
                              else S754_infinity sx
                  | Zneg _ => S754_nan end)
                /\ absR (match shr_m mrs2 with
                  | 0 => S754_zero sx
                  | Zpos m => if e2 <=? 128 - 24 then S754_finite sx m e2
                              else S754_infinity sx
                  | Zneg _ => S754_nan end) = (IZR k * bpow g)%R).
  { destruct (shr_m mrs2) as [|m|m] eqn:Hsm; try lia.
    - split; [left; reflexivity|]. rewrite absR_zero. lra.
    - destruct (Z.leb_spec e2 (128 - 24)); try lia.
      split; [right; eauto|]. rewrite absR_finite. exact Hval. }
  destruct Habs as [Hsg Habs].
  split; [exact HK|]. split; [exact Hb|]. split; [exact Hsg|].
  rewrite Habs. destruct Hk as [-> | [-> Hne]]; [left; reflexivity|].
  right. split; [reflexivity|].
  destruct Hb as [Hlo _]. destruct (Rle_lt_or_eq_dec _ _ Hlo) as [Hlt | Heq]; [exact Hlt|].
  symmetry in Heq. apply Hx in Heq. congruence.
Qed.

End RoundFacts.

(** ** Consequences of faithful rounding *)

Module FaithFacts.

Import Real Grid PowerFacts RoundFacts.

Lemma absR_nonneg (x : spec_float) : (0 <= absR x)%R.
Proof.
  destruct x as [s | s | | s m e]; cbn; try lra.
  unfold absR. cbn. pose proof (bpow_pos e).
  assert (0 < IZR (Zpos m))%R by (apply IZR_lt; lia). nra.
Qed.

(** Rounding does not cross a value of a coarser grid: from below... *)
Lemma rounds_mono_up (s : bool) (v : R) (g K : Z) (r : spec_float) (j gc : Z) :
  rounds s v g K r -> g <= gc ->
  (v <= IZR j * bpow gc)%R -> (absR r <= IZR j * bpow gc)%R.
Proof.
  intros (HK & [Hlo Hhi] & _ & Hr) Hg Hv.
  rewrite (bpow_scale j gc g Hg) in Hv |- *.
  destruct Hr as [-> | [-> Hlt]]; [lra|].
  assert (K < j * 2 ^ (gc - g)) by (apply (multiple_lt _ _ g); lra).
  pose proof (bpow_pos g).
  apply Rmult_le_compat_r; [lra|]. apply IZR_le. lia.
Qed.

(** ... and from above. *)
Lemma rounds_mono_down (s : bool) (v : R) (g K : Z) (r : spec_float) (j gc : Z) :
  rounds s v g K r -> g <= gc ->
  (IZR j * bpow gc <= v)%R -> (IZR j * bpow gc <= absR r)%R.
Proof.
  intros (HK & [Hlo Hhi] & _ & Hr) Hg Hv.
  rewrite (bpow_scale j gc g Hg) in Hv |- *.
  assert (j * 2 ^ (gc - g) < K + 1) by (apply (multiple_lt _ _ g); lra).
  pose proof (bpow_pos g).
  assert (IZR (j * 2 ^ (gc - g)) * bpow g <= IZR K * bpow g)%R.
  { apply Rmult_le_compat_r; [lra|]. apply IZR_le. lia. }
  destruct Hr as [-> | [-> Hlt]]; [lra|].
  rewrite plus_IZR. lra.
Qed.

Lemma rounds_upper (s : bool) (v : R) (g K : Z) (r : spec_float) :
  rounds s v g K r -> (absR r <= v + bpow g)%R /\ (IZR K * bpow g <= absR r)%R.
Proof.
  intros (HK & [Hlo Hhi] & _ & Hr). pose proof (bpow_pos g).
  destruct Hr as [-> | [-> Hlt]]; rewrite ?plus_IZR; split; lra.
Qed.

(** The grid of a value below [2^(24+gc)] is not coarser than [2^gc],
    unless the exponent it is given on is. *)
Lemma grid_below (mx ex : Z) (v : R) (gc : Z) :
  0 <= mx -> (IZR mx * bpow ex <= v)%R -> (v < bpow (24 + gc))%R ->
  -149 <= gc -> ex <= gc -> grid mx ex <= gc.
Proof.
  intros Hmx Hlo Hhi Hgc Hex. unfold grid. rewrite fexp_eq.
  destruct (Z.eq_dec mx 0) as [-> | Hne]; [cbn; lia|].
  destruct (Zdigits2_bounds mx ltac:(lia)) as [[Hd _] Hpos].
  assert (Zdigits2 mx - 1 + ex < 24 + gc); [|lia].
  apply bpow_lt_inv. eapply Rle_lt_trans; [|exact Hhi].
  eapply Rle_trans; [|exact Hlo].
  rewrite bpow_plus, bpow_Z by lia. pose proof (bpow_pos ex).
  apply Rmult_le_compat_r; [lra|]. apply IZR_le. exact Hd.
Qed.

(** Where the grid is the exponent given, nothing is shifted out. *)
Lemma grid_same (mx ex : Z) :
  grid mx ex = ex -> mx / 2 ^ (grid mx ex - ex) = mx.
Proof. intros ->. rewrite Z.sub_diag. apply Z.div_1_r. Qed.

(** Where bits are shifted out of a mantissa whose exponent is in
    range, the result is normal. *)
Lemma grid_normal (mx ex : Z) :
  0 <= mx -> -149 <= ex -> ex < grid mx ex ->
  2 ^ 23 <= mx / 2 ^ (grid mx ex - ex).
Proof.
  intros Hmx Hex Hg. unfold grid in *. rewrite fexp_eq in *.
  destruct (Z.eq_dec mx 0) as [-> | Hne]; [cbn in Hg; lia|].
  destruct (Zdigits2_bounds mx ltac:(lia)) as [[Hd _] Hpos].
  replace (Z.max ex (Z.max (Zdigits2 mx + ex - 24) (-149)) - ex)
    with (Zdigits2 mx - 24) by lia.
  apply Z.div_le_lower_bound; [apply Z.pow_pos_nonneg; lia|].
  rewrite Z.mul_comm, <- Z.pow_add_r by lia.
  replace (23 + (Zdigits2 mx - 24)) with (Zdigits2 mx - 1) by lia. exact Hd.
Qed.

(** A rounding that is not exact happens in the normal range, when the
    exponent given is in range. *)
Lemma rounds_inexact_normal (s : bool) (mx ex : Z) (v : R) (r : spec_float) :
  0 <= mx -> -149 <= ex -> v = (IZR mx * bpow ex)%R ->
  let g := grid mx ex in
  let K := mx / 2 ^ (g - ex) in
  rounds s v g K r ->
  absR r = (IZR K * bpow g)%R
  \/ (absR r = (IZR (K + 1) * bpow g)%R /\ 2 ^ 23 <= K).
Proof.
  intros Hmx Hex Hv g K (_ & _ & _ & Hr).
  destruct Hr as [Hr | [Hr Hlt]]; [left; exact Hr|]. right. split; [exact Hr|].
  destruct (Z.eq_dec g ex) as [Heq | Hne].
  - exfalso. unfold K in Hlt. fold g in Heq. unfold g in Hlt at 1.
    rewrite (grid_same mx ex Heq) in Hlt. rewrite Heq in Hlt. lra.
  - apply grid_normal; [exact Hmx | exact Hex|]. unfold g, grid in *. lia.
Qed.

(** The error of an exact operation is below one unit of the last
    place: the least subnormal, or [2^-23] times the value. *)
Lemma rounds_error (s : bool) (mx ex : Z) (v : R) (r : spec_float) :
  0 <= mx -> v = (IZR mx * bpow ex)%R ->
  rounds s v (grid mx ex) (mx / 2 ^ (grid mx ex - ex)) r ->
  (absR r <= v + bpow (-149))%R \/ (absR r <= v + v * bpow (-23))%R.
Proof.
  intros Hmx Hv Hr. pose proof (rounds_upper _ _ _ _ _ Hr) as [Hup _].
  destruct Hr as (_ & Hb & _ & Hr).
  destruct (Z.eq_dec (grid mx ex) ex) as [Heq | Hne].
  - left. pose proof (bpow_pos (-149)).
    rewrite (grid_same mx ex Heq), Heq in Hr, Hb.
    destruct Hr as [-> | [_ Hlt]]; lra.
  - unfold grid in *. rewrite fexp_eq in *.
    destruct (Z.eq_dec mx 0) as [-> | Hm0].
    { left. cbn [Zdigits2] in *.
      replace (Z.max ex (Z.max (0 + ex - 24) (-149))) with (-149) in Hup by lia.
      exact Hup. }
    destruct (Z_le_gt_dec (Zdigits2 mx + ex - 24) (-149)) as [Hsub | Hnorm].
    + left.
      replace (Z.max ex (Z.max (Zdigits2 mx + ex - 24) (-149))) with (-149) in Hup by lia.
      exact Hup.
    + right.
      replace (Z.max ex (Z.max (Zdigits2 mx + ex - 24) (-149)))
        with (Zdigits2 mx + ex - 24) in Hup by lia.
      destruct (Zdigits2_bounds mx ltac:(lia)) as [[Hd _] Hpos].
      assert (bpow (Zdigits2 mx + ex - 24) <= v * bpow (-23))%R; [|lra].
      replace (Zdigits2 mx + ex - 24) with ((Zdigits2 mx - 1) + ex + (-23)) by lia.
      rewrite !bpow_plus, bpow_Z by lia. rewrite Hv.
      pose proof (bpow_pos ex). pose proof (bpow_pos (-23)).
      apply Rmult_le_compat_r; [lra|]. apply Rmult_le_compat_r; [lra|].
      apply IZR_le. exact Hd.
Qed.

End FaithFacts.

(** ** The binary32 operations over the reals *)

Module OpFacts.

Import Real Grid PowerFacts RoundFacts FaithFacts.

Lemma iter_xO (m : positive) (d : positive) :
  Zpos (Pos.iter xO m d) = Zpos m * 2 ^ Zpos d.
Proof.
  change (Pos.iter xO m d) with (shift_pos d m).
  rewrite shift_pos_correct. change (Zpower_pos 2 d) with (2 ^ Zpos d). lia.
Qed.

(** [shl_align] keeps the value and lowers the exponent. *)
Lemma shl_align_value (m : positive) (e e' : Z) :
  snd (shl_align m e e') = Z.min e e'
  /\ Zpos (fst (shl_align m e e')) = Zpos m * 2 ^ (e - Z.min e e')
  /\ (IZR (Zpos (fst (shl_align m e e'))) * bpow (Z.min e e')
      = IZR (Zpos m) * bpow e)%R.
Proof.
  assert (Hval : forall mz, Zpos mz = Zpos m * 2 ^ (e - Z.min e e') ->
            (IZR (Zpos mz) * bpow (Z.min e e') = IZR (Zpos m) * bpow e)%R).
  { intros mz ->. symmetry. apply bpow_scale. lia. }
  unfold shl_align. destruct (e' - e) as [|d|d] eqn:Hd; cbn [fst snd].
  - replace (Z.min e e') with e in * by lia.
    rewrite Z.sub_diag, Z.mul_1_r in *. auto.
  - replace (Z.min e e') with e in * by lia.
    rewrite Z.sub_diag, Z.mul_1_r in *. auto.
  - replace (Z.min e e') with e' in * by lia.
    assert (H : Zpos (Pos.iter xO m d) = Zpos m * 2 ^ (e - e')).
    { rewrite iter_xO. f_equal. f_equal. lia. }
    auto.
Qed.

(** The input that [binary_round] gives to [binary_round_aux]. *)
Lemma binary_round_unfold (s : bool) (m : positive) (e : Z) :
  exists mz ez,
    binary_round 24 128 s m e = binary_round_aux 24 128 s (Zpos mz) ez loc_Exact
    /\ ez = Z.min e (fexp 24 128 (Zdigits2 (Zpos m) + e))
    /\ (IZR (Zpos mz) * bpow ez = IZR (Zpos m) * bpow e)%R.
Proof.
  unfold binary_round.
  destruct (shl_align_value m e (fexp 24 128 (Zpos (digits2_pos m) + e)))
    as (He & _ & Hv).
  destruct (shl_align m e _) as [mz ez]. cbn [fst snd] in *.
  exists mz, ez. subst ez. auto.
Qed.

Lemma slot_exact (m e : Z) : slot m e (is_exact loc_Exact) (IZR m * bpow e).
Proof.
  unfold slot. pose proof (bpow_pos e). rewrite plus_IZR. cbn [is_exact].
  split; [lra | tauto].
Qed.

(** Bounds on the exponents of a positive value [m * 2^e] below
    [2^(24+gc)]. *)
Lemma mag_bound (m : positive) (e : Z) (b : Z) :
  (IZR (Zpos m) * bpow e < bpow b)%R ->
  Zdigits2 (Zpos m) + e <= b /\ e < b.
Proof.
  intros Hv.
  destruct (Zdigits2_bounds (Zpos m) ltac:(lia)) as [[Hd _] Hpos].
  assert (Zdigits2 (Zpos m) - 1 + e < b); [|lia].
  apply bpow_lt_inv. eapply Rle_lt_trans; [|exact Hv].
  rewrite bpow_plus, bpow_Z by lia. pose proof (bpow_pos e).
  apply Rmult_le_compat_r; [lra|]. apply IZR_le. exact Hd.
Qed.

Lemma repr_lt (j gc : Z) : j < 2 ^ 24 -> (IZR j * bpow gc < bpow (24 + gc))%R.
Proof.
  intros Hj. rewrite bpow_plus, (bpow_Z 24) by lia. pose proof (bpow_pos gc).
  apply Rmult_lt_compat_r; [lra|]. apply IZR_lt. exact Hj.
Qed.

(** What [binary_round] returns for the magnitude [m * 2^e], besides
    the sign: a faithful rounding on some grid [2^g], which is normal
    when it is not exact; the result does not cross a representable
    value. *)
Lemma binary_round_spec (s : bool) (m : positive) (e : Z) :
  (IZR (Zpos m) * bpow e < bpow 127)%R ->
  let v := (IZR (Zpos m) * bpow e)%R in
  let r := binary_round 24 128 s m e in
  signed s r
  /\ (-149 <= e ->
      exists g K,
        -149 <= g <= 103 /\ 0 <= K < 2 ^ 24 /\ (IZR K * bpow g <= v)%R
        /\ (absR r = (IZR K * bpow g)%R
            \/ (absR r = (IZR (K + 1) * bpow g)%R /\ 2 ^ 23 <= K)))
  /\ (forall j gc, j < 2 ^ 24 -> -149 <= gc ->
        (v <= IZR j * bpow gc)%R -> (absR r <= IZR j * bpow gc)%R)
  /\ (forall j gc, j < 2 ^ 24 -> -149 <= gc ->
        v = (IZR j * bpow gc)%R -> absR r = v).
Proof.
  intros Hv v r. unfold r.
  destruct (binary_round_unfold s m e) as (mz & ez & -> & Hez & Hval).
  destruct (mag_bound m e 127 Hv) as [Hmag _].
  assert (Hf : ez <= fexp 24 128 (Zdigits2 (Zpos m) + e)) by lia.
  rewrite fexp_eq in Hf, Hez.
  assert (Hr : rounds s v (grid (Zpos mz) ez)
                 (Zpos mz / 2 ^ (grid (Zpos mz) ez - ez))
                 (binary_round_aux 24 128 s (Zpos mz) ez loc_Exact)).
  { apply round_aux_rounds; [lia | | lia | exact Hv].
    unfold v. rewrite <- Hval. apply slot_exact. }
  assert (Hgc : forall j gc, j < 2 ^ 24 -> -149 <= gc ->
            (v <= IZR j * bpow gc)%R -> grid (Zpos mz) ez <= gc).
  { intros j gc Hj Hgc Hle.
    pose proof (repr_lt j gc Hj) as Hlt.
    apply (grid_below (Zpos mz) ez v); [lia | unfold v; lra | lra | exact Hgc|].
    destruct (mag_bound m e (24 + gc)) as [Hm' _]; [fold v; lra|]. lia. }
  split; [apply Hr|]. split; [|split].
  - intros He.
    exists (grid (Zpos mz) ez), (Zpos mz / 2 ^ (grid (Zpos mz) ez - ez)).
    split.
    { destruct (mag_bound mz ez 127) as [Hmz _]; [rewrite Hval; exact Hv|].
      unfold grid. rewrite fexp_eq. lia. }
    split; [apply Hr|]. split; [apply Hr|].
    apply (rounds_inexact_normal s (Zpos mz) ez v); [lia | lia | | exact Hr].
    unfold v. symmetry. exact Hval.
  - intros j gc Hj Hgc' Hle.
    apply (rounds_mono_up s v _ _ _ j gc Hr); [|exact Hle]. eauto.
  - intros j gc Hj Hgc' Heq. apply Rle_antisym.
    + apply Rle_trans with (IZR j * bpow gc)%R; [|lra].
      apply (rounds_mono_up s v _ _ _ j gc Hr); [|lra]. apply (Hgc j); [lia | lia | lra].
    + apply Rle_trans with (IZR j * bpow gc)%R; [lra|].
      apply (rounds_mono_down s v _ _ _ j gc Hr); [|lra]. apply (Hgc j); [lia | lia | lra].
Qed.

(** [binary_normalize] of a nonzero integer [z] at exponent [e]. *)
Lemma normalize_spec (z e : Z) :
  z <> 0 ->
  (IZR (Z.abs z) * bpow e < bpow 127)%R ->
  let v := (IZR (Z.abs z) * bpow e)%R in
  let r := binary_normalize 24 128 z e false in
  signed (z <? 0) r
  /\ (-149 <= e ->
      exists g K,
        -149 <= g <= 103 /\ 0 <= K < 2 ^ 24 /\ (IZR K * bpow g <= v)%R
        /\ (absR r = (IZR K * bpow g)%R
            \/ (absR r = (IZR (K + 1) * bpow g)%R /\ 2 ^ 23 <= K)))
  /\ (forall j gc, j < 2 ^ 24 -> -149 <= gc ->
        (v <= IZR j * bpow gc)%R -> (absR r <= IZR j * bpow gc)%R)
  /\ (forall j gc, j < 2 ^ 24 -> -149 <= gc ->
        v = (IZR j * bpow gc)%R -> absR r = v).
Proof.
  intros Hz Hv. destruct z as [|m|m]; [lia | |].
  - exact (binary_round_spec false m e Hv).
  - exact (binary_round_spec true m e Hv).
Qed.

(** The product of two finite values. *)
Lemma mul_spec (s1 : bool) (m1 : positive) (e1 : Z)
    (s2 : bool) (m2 : positive) (e2 : Z) :
  let v := ((IZR (Zpos m1) * bpow e1) * (IZR (Zpos m2) * bpow e2))%R in
  e1 + e2 <= 103 -> (v < bpow 127)%R ->
  let r := F32.mul (S754_finite s1 m1 e1) (S754_finite s2 m2 e2) in
  signed (xorb s1 s2) r
  /\ ((absR r <= v + bpow (-149))%R \/ (absR r <= v + v * bpow (-23))%R).
Proof.
  intros v He Hv r.
  assert (Hval : v = (IZR (Zpos (m1 * m2)) * bpow (e1 + e2))%R).
  { unfold v. rewrite Pos2Z.inj_mul, mult_IZR, bpow_plus. ring. }
  assert (Hr : rounds (xorb s1 s2) v (grid (Zpos (m1 * m2)) (e1 + e2))
                 (Zpos (m1 * m2) / 2 ^ (grid (Zpos (m1 * m2)) (e1 + e2) - (e1 + e2))) r).
  { apply round_aux_rounds; [lia | | exact He | exact Hv].
    rewrite Hval. apply slot_exact. }
  split; [apply Hr|].
  apply (rounds_error (xorb s1 s2) (Zpos (m1 * m2)) (e1 + e2)); [lia | exact Hval | exact Hr].
Qed.

Lemma new_location_exact (nb k : Z) :
  is_exact (new_location nb k) = (k =? 0).
Proof.
  unfold new_location, new_location_even, new_location_odd.
  destruct (Z.even nb), (k =? 0); reflexivity.
Qed.

(** The integer quotient computed by [SFdiv_core_binary], with the slot
    of the real quotient. *)
Lemma div_core_slot (m1 : positive) (e1 : Z) (m2 : positive) (e2 : Z) :
  exists q e' l,
    SFdiv_core_binary 24 128 (Zpos m1) e1 (Zpos m2) e2 = (q, e', l)
    /\ 0 <= q
    /\ e' <= fexp 24 128 (Zdigits2 (Zpos m1) + e1 - (Zdigits2 (Zpos m2) + e2))
    /\ slot q e' (is_exact l)
         ((IZR (Zpos m1) * bpow e1) / (IZR (Zpos m2) * bpow e2)).
Proof.
  unfold SFdiv_core_binary.
  set (e' := Z.min (fexp 24 128 (Zdigits2 (Zpos m1) + e1 - (Zdigits2 (Zpos m2) + e2)))
                   (e1 - e2)).
  set (m' := match e1 - e2 - e' with
             | 0 => Zpos m1
             | Zpos _ => Z.shiftl (Zpos m1) (e1 - e2 - e')
             | Zneg _ => 0
             end).
  assert (Hs : 0 <= e1 - e2 - e') by (unfold e'; lia).
  assert (Hm' : m' = Zpos m1 * 2 ^ (e1 - e2 - e')).
  { unfold m'. destruct (e1 - e2 - e') as [|p|p] eqn:Hd; try lia.
    rewrite Z.shiftl_mul_pow2 by lia. reflexivity. }
  pose proof (Z_div_mod m' (Zpos m2) ltac:(lia)) as Hdiv.
  destruct (Z.div_eucl m' (Zpos m2)) as [q r]. destruct Hdiv as [Heq Hr].
  assert (Hq : 0 <= q).
  { assert (0 <= m') by (rewrite Hm'; pose proof (Z.pow_pos_nonneg 2 (e1 - e2 - e')); nia).
    nia. }
  exists q, e', (new_location (Zpos m2) r).
  split; [reflexivity|]. split; [exact Hq|]. split; [unfold e'; lia|].
  set (X2 := IZR (Zpos m2)). assert (HX2 : (0 < X2)%R) by (apply IZR_lt; lia).
  pose proof (bpow_pos e2) as Hp2. pose proof (bpow_pos e') as Hp'.
  assert (Hv : (IZR (Zpos m1) * bpow e1 / (X2 * bpow e2)
                = (IZR q + IZR r / X2) * bpow e')%R).
  { assert (He1 : bpow e1 = (bpow (e1 - e2 - e') * bpow e' * bpow e2)%R).
    { rewrite <- !bpow_plus. f_equal. ring. }
    assert (Hmr : (IZR (Zpos m1) * bpow (e1 - e2 - e') = X2 * IZR q + IZR r)%R).
    { rewrite bpow_Z by exact Hs. rewrite <- mult_IZR, <- Hm', Heq, plus_IZR, mult_IZR.
      reflexivity. }
    rewrite He1.
    transitivity ((IZR (Zpos m1) * bpow (e1 - e2 - e')) * bpow e' / X2)%R;
      [field; lra|].
    rewrite Hmr. field. lra. }
  rewrite Hv. unfold slot. rewrite new_location_exact, plus_IZR.
  assert (Hr0 : (0 <= IZR r / X2 < 1)%R).
  { split.
    - apply Rmult_le_pos; [apply IZR_le; lia|]. apply Rlt_le, Rinv_0_lt_compat, HX2.
    - apply Rmult_lt_reg_r with X2; [exact HX2|]. unfold Rdiv.
      rewrite Rmult_assoc, Rinv_l, Rmult_1_r, Rmult_1_l by lra.
      apply IZR_lt. lia. }
  split; [split; nra|].
  rewrite Z.eqb_eq. split.
  - intros ->. unfold Rdiv. rewrite Rmult_0_l. ring.
  - intros Heq'. assert (Hz : (IZR r / X2 = 0)%R) by nra.
    apply eq_IZR. apply Rmult_eq_reg_r with (/ X2)%R; [|apply Rinv_neq_0_compat; lra].
    unfold Rdiv in Hz. rewrite Hz. ring.
Qed.

(** A quotient does not exceed a representable value that the real
    quotient does not exceed. *)
Lemma div_le (s1 : bool) (m1 : positive) (e1 : Z) (m2 : positive) (e2 : Z)
    (j gc : Z) :
  0 <= j < 2 ^ 24 -> -149 <= gc <= 103 ->
  (IZR (Zpos m1) * bpow e1 <= (IZR j * bpow gc) * (IZR (Zpos m2) * bpow e2))%R ->
  let r := F32.div (S754_finite s1 m1 e1) (S754_finite false m2 e2) in
  signed s1 r /\ (absR r <= IZR j * bpow gc)%R.
Proof.
  intros Hj Hgc Hle r. unfold r, F32.div, SFdiv, F32.prec, F32.emax.
  destruct (div_core_slot m1 e1 m2 e2) as (q & e' & l & -> & Hq & He' & Hs).
  rewrite xorb_false_r.
  set (X1 := (IZR (Zpos m1) * bpow e1)%R) in *.
  set (X2 := (IZR (Zpos m2) * bpow e2)%R) in *.
  assert (HX2 : (0 < X2)%R).
  { unfold X2. pose proof (bpow_pos e2).
    assert (0 < IZR (Zpos m2))%R by (apply IZR_lt; lia). nra. }
  assert (HX1 : (0 < X1)%R).
  { unfold X1. pose proof (bpow_pos e1).
    assert (0 < IZR (Zpos m1))%R by (apply IZR_lt; lia). nra. }
  assert (Hv : (X1 / X2 <= IZR j * bpow gc)%R).
  { apply Rmult_le_reg_r with X2; [exact HX2|]. unfold Rdiv.
    rewrite Rmult_assoc, Rinv_l, Rmult_1_r by lra. exact Hle. }
  pose proof (repr_lt j gc ltac:(lia)) as Hrep.
  assert (He'gc : e' <= gc).
  { rewrite fexp_eq in He'.
    assert (Zdigits2 (Zpos m1) + e1 - (Zdigits2 (Zpos m2) + e2) - 24 <= gc); [|lia].
    destruct (Zdigits2_bounds (Zpos m1) ltac:(lia)) as [[Hd1 _] Hp1].
    destruct (Zdigits2_bounds (Zpos m2) ltac:(lia)) as [[_ Hd2] Hp2].
    assert (Zdigits2 (Zpos m1) - 1 + e1 < 24 + gc + (Zdigits2 (Zpos m2) + e2)); [|lia].
    apply bpow_lt_inv.
    apply Rle_lt_trans with X1.
    { unfold X1. rewrite bpow_plus, bpow_Z by lia. pose proof (bpow_pos e1).
      apply Rmult_le_compat_r; [lra|]. apply IZR_le. exact Hd1. }
    apply Rle_lt_trans with (IZR j * bpow gc * X2)%R; [exact Hle|].
    rewrite (bpow_plus (24 + gc)).
    assert (X2 < bpow (Zdigits2 (Zpos m2) + e2))%R.
    { unfold X2. rewrite bpow_plus, (bpow_Z (Zdigits2 (Zpos m2))) by lia.
      pose proof (bpow_pos e2).
      apply Rmult_lt_compat_r; [lra|]. apply IZR_lt. exact Hd2. }
    assert (0 <= IZR j * bpow gc)%R.
    { pose proof (bpow_pos gc). assert (0 <= IZR j)%R by (apply IZR_le; lia). nra. }
    nra. }
  assert (Hr : rounds s1 (X1 / X2) (grid q e') (q / 2 ^ (grid q e' - e'))
                 (binary_round_aux 24 128 s1 q e' l)).
  { apply round_aux_rounds; [exact Hq | exact Hs | lia|].
    apply Rle_lt_trans with (IZR j * bpow gc)%R; [exact Hv|].
    apply Rlt_le_trans with (bpow (24 + gc)); [exact Hrep|]. apply bpow_le. lia. }
  split; [apply Hr|].
  apply (rounds_mono_up s1 _ _ _ _ j gc Hr); [|exact Hv].
  apply (grid_below q e' (X1 / X2)); [exact Hq | apply Hs | lra | lia | exact He'gc].
Qed.

(** The conversion of a positive [int] below [2^24] is exact. *)
Lemma of_int_exact (l : Z) :
  0 < l < 2 ^ 24 ->
  exists m e, F32.of_int l = S754_finite false m e
              /\ (IZR (Zpos m) * bpow e = IZR l)%R.
Proof.
  intros Hl. unfold F32.of_int.
  assert (Hv : (IZR (Z.abs l) * bpow 0 = IZR l * bpow 0)%R) by (rewrite Z.abs_eq by lia; reflexivity).
  destruct (normalize_spec l 0 ltac:(lia)) as (Hs & _ & _ & Hex).
  { rewrite Hv, bpow_0, Rmult_1_r. rewrite (bpow_Z 127) by lia. apply IZR_lt.
    change (2 ^ 24) with 16777216 in Hl.
    assert (16777216 < 2 ^ 127) by (vm_compute; reflexivity). lia. }
  specialize (Hex l 0 ltac:(lia) ltac:(lia) Hv).
  rewrite Hv, bpow_0, Rmult_1_r in Hex.
  replace (l <? 0) with false in Hs by (symmetry; apply Z.ltb_ge; lia).
  destruct Hs as [Hz | (m & e & Hf)].
  - rewrite Hz, absR_zero in Hex. apply eq_IZR in Hex. lia.
  - exists m, e. split; [exact Hf|]. rewrite Hf, absR_finite in Hex. exact Hex.
Qed.

Lemma of_int_zero : F32.of_int 0 = S754_zero false.
Proof. reflexivity. Qed.

(** The integer part of a positive finite value. *)
Lemma trunc_real (m : positive) (e : Z) :
  exists t, Float.trunc (S754_finite false m e) = Some t
            /\ 0 <= t
            /\ (IZR t <= IZR (Zpos m) * bpow e < IZR t + 1)%R.
Proof.
  unfold Float.trunc. cbn [cond_Zopp].
  destruct e as [|p|p].
  - exists (Zpos m * 2 ^ 0). split; [reflexivity|]. split; [lia|].
    rewrite bpow_0. change (2 ^ 0) with 1. rewrite Z.mul_1_r. lra.
  - exists (Zpos m * 2 ^ Zpos p). split; [reflexivity|].
    split; [pose proof (Z.pow_pos_nonneg 2 (Zpos p)); nia|].
    rewrite mult_IZR, <- bpow_Z by lia. lra.
  - exists (Zpos m / 2 ^ Zpos p). split; [reflexivity|].
    pose proof (Z.pow_pos_nonneg 2 (Zpos p) ltac:(lia) ltac:(lia)) as Hpp.
    split; [apply Z.div_pos; lia|].
    pose proof (Z.div_mod (Zpos m) (2 ^ Zpos p) ltac:(lia)) as Hdm.
    pose proof (Z.mod_pos_bound (Zpos m) (2 ^ Zpos p) Hpp) as Hmod.
    set (t := Zpos m / 2 ^ Zpos p) in *. set (u := Zpos m mod 2 ^ Zpos p) in *.
    assert (Hb : (bpow (Zneg p) * IZR (2 ^ Zpos p) = 1)%R).
    { rewrite <- bpow_Z by lia. rewrite <- bpow_plus.
      replace (Zneg p + Zpos p) with 0 by lia. apply bpow_0. }
    pose proof (bpow_pos (Zneg p)) as Hbp.
    assert (HP : (0 < IZR (2 ^ Zpos p))%R) by (apply IZR_lt; lia).
    rewrite Hdm, plus_IZR, mult_IZR.
    assert (Hu : (0 <= IZR u * bpow (Zneg p) < 1)%R).
    { assert (0 <= IZR u)%R by (apply IZR_le; lia).
      assert (IZR u < IZR (2 ^ Zpos p))%R by (apply IZR_lt; lia).
      split; [nra|]. rewrite <- Hb. nra. }
    replace ((IZR (2 ^ Zpos p) * IZR t + IZR u) * bpow (Zneg p))%R
      with (IZR t * (bpow (Zneg p) * IZR (2 ^ Zpos p)) + IZR u * bpow (Zneg p))%R by ring.
    rewrite Hb. lra.
Qed.

End OpFacts.

(** ** The interpolation of the line loop stays between its end points *)

Module AxisFacts.

Import Real Grid PowerFacts RoundFacts FaithFacts OpFacts.

Lemma valid_exponent (s : bool) (m : positive) (e : Z) :
  F32.valid (S754_finite s m e) = true -> -149 <= e.
Proof.
  unfold F32.valid, valid_binary, bounded, canonical_mantissa.
  intros Hv. apply andb_true_iff in Hv as [Hc _]. apply Z.eqb_eq in Hc.
  rewrite fexp_eq in Hc. lia.
Qed.

Lemma finite_pos (m : positive) (e : Z) : (0 < IZR (Zpos m) * bpow e)%R.
Proof.
  pose proof (bpow_pos e). assert (0 < IZR (Zpos m))%R by (apply IZR_lt; lia). nra.
Qed.

(** A coordinate within [n] is plain, and its value is below [n]. *)
Lemma within_plain (n : Z) (x : F32.float) :
  Image.within n x = true -> plain x /\ (absR x < IZR n)%R /\ 0 < n.
Proof.
  unfold Image.within. destruct x as [s | s | | [|] m e]; try discriminate.
  - intros Hn. apply Z.ltb_lt in Hn.
    split; [left; eauto|]. split; [|exact Hn]. rewrite absR_zero. apply IZR_lt, Hn.
  - intros H. apply andb_true_iff in H as [Hv Ht].
    destruct (trunc_real m e) as (t & Htr & Ht0 & Hlo & Hhi).
    rewrite Htr in Ht. apply Z.ltb_lt in Ht.
    split; [right; exists m, e; split; [reflexivity|]; split;
            [eapply TruncFacts.valid_mantissa, Hv | eapply valid_exponent, Hv]|].
    split; [|lia]. rewrite absR_finite.
    apply Rlt_le_trans with (IZR t + 1)%R; [exact Hhi|].
    rewrite <- plus_IZR. apply IZR_le. lia.
Qed.

(** A plain value is representable. *)
Lemma plain_repr (x : spec_float) :
  plain x -> exists j gc, 0 <= j < 2 ^ 24 /\ -149 <= gc
                          /\ absR x = (IZR j * bpow gc)%R.
Proof.
  intros [[s ->] | (m & e & -> & Hm & He)].
  - exists 0, 0. split; [lia|]. split; [lia|]. rewrite absR_zero. lra.
  - exists (Zpos m), e. split; [lia|]. split; [exact He|]. apply absR_finite.
Qed.

(** The exponent of a finite value below [2^b]. *)
Lemma exponent_lt (s : bool) (m : positive) (e : Z) (b : Z) :
  (absR (S754_finite s m e) <= bpow b)%R -> e <= b.
Proof.
  rewrite absR_finite. intros Hv.
  destruct (mag_bound m e (b + 1)) as [_ He]; [|lia].
  rewrite bpow_succ. pose proof (bpow_pos b). lra.
Qed.

(** Line 267: the difference of two plain coordinates below [2^20].
    [K * 2^g] is the difference rounded towards zero. *)
Lemma sub_spec (x2 x1 : F32.float) :
  plain x2 -> plain x1 ->
  (absR x2 < bpow 20)%R -> (absR x1 < bpow 20)%R ->
  let dx := F32.sub x2 x1 in
  exists sd K g,
    signed sd dx /\ 0 <= K < 2 ^ 24 /\ -149 <= g <= 103
    /\ (IZR K * bpow g
        <= (if sd then absR x1 - absR x2 else absR x2 - absR x1))%R
    /\ (absR dx = (IZR K * bpow g)%R
        \/ (absR dx = (IZR (K + 1) * bpow g)%R /\ 2 ^ 23 <= K))
    /\ (absR dx <= bpow 20)%R.
Proof.
  intros H2 H1 Hb2 Hb1 dx. pose proof (bpow_pos 20) as Hp20.
  destruct H2 as [[s2 ->] | (m2 & e2 & -> & Hm2 & He2)],
           H1 as [[s1 ->] | (m1 & e1 & -> & Hm1 & He1)].
  - (* zero - zero *)
    assert (Hz : exists s, dx = S754_zero s).
    { unfold dx, F32.sub, SFsub. destruct s2, s1; eauto. }
    destruct Hz as [s Hz]. exists s, 0, 0. rewrite Hz, !absR_zero.
    split; [left; reflexivity|]. split; [lia|]. split; [lia|].
    split; [destruct s; lra|]. split; [left; lra | lra].
  - (* zero - finite *)
    exists true, (Zpos m1), e1.
    assert (He1' := exponent_lt false m1 e1 20 ltac:(lra)).
    unfold dx, F32.sub, SFsub. cbn [negb].
    rewrite absR_zero in *. change (absR (S754_finite true m1 e1))
      with (absR (S754_finite false m1 e1)).
    split; [right; eauto|]. split; [lia|]. split; [lia|].
    rewrite absR_finite in *. split; [lra|]. split; [left; reflexivity | lra].
  - (* finite - zero *)
    exists false, (Zpos m2), e2.
    assert (He2' := exponent_lt false m2 e2 20 ltac:(lra)).
    unfold dx, F32.sub, SFsub.
    split; [right; eauto|]. split; [lia|]. split; [lia|].
    rewrite absR_zero, absR_finite in *. split; [lra|]. split; [left; reflexivity | lra].
  - (* finite - finite *)
    rewrite !absR_finite in *.
    unfold dx, F32.sub, SFsub, F32.prec, F32.emax. cbn [cond_Zopp].
    set (ez := Z.min e2 e1).
    destruct (shl_align_value m2 e2 ez) as (_ & _ & Hv2).
    destruct (shl_align_value m1 e1 ez) as (_ & _ & Hv1).
    replace (Z.min e2 ez) with ez in Hv2 by (unfold ez; lia).
    replace (Z.min e1 ez) with ez in Hv1 by (unfold ez; lia).
    set (M2 := Zpos (fst (shl_align m2 e2 ez))) in *.
    set (M1 := Zpos (fst (shl_align m1 e1 ez))) in *.
    set (X2 := (IZR (Zpos m2) * bpow e2)%R) in *.
    set (X1 := (IZR (Zpos m1) * bpow e1)%R) in *.
    pose proof (finite_pos m2 e2) as HX2. pose proof (finite_pos m1 e1) as HX1.
    fold X2 in HX2. fold X1 in HX1.
    assert (Hz : (IZR (M2 - M1) * bpow ez = X2 - X1)%R).
    { rewrite minus_IZR. lra. }
    destruct (Z.eq_dec (M2 - M1) 0) as [H0 | Hne].
    + rewrite H0 in *. cbn [binary_normalize]. exists false, 0, 0.
      rewrite absR_zero. split; [left; reflexivity|]. split; [lia|]. split; [lia|].
      split; [lra|]. split; [left; lra | lra].
    + assert (Habs : (IZR (Z.abs (M2 - M1)) * bpow ez
                      = if M2 - M1 <? 0 then X1 - X2 else X2 - X1)%R).
      { destruct (Z.ltb_spec (M2 - M1) 0).
        - rewrite Z.abs_neq, opp_IZR by lia. lra.
        - rewrite Z.abs_eq by lia. lra. }
      assert (Hlt : (IZR (Z.abs (M2 - M1)) * bpow ez < bpow 20)%R).
      { rewrite Habs. destruct (M2 - M1 <? 0); lra. }
      destruct (normalize_spec (M2 - M1) ez Hne) as (Hs & Hst & Hup & _).
      { apply Rlt_trans with (bpow 20); [exact Hlt|]. apply bpow_lt. lia. }
      destruct (Hst ltac:(unfold ez; lia)) as (g & K & Hg & HK & Hle & Hcases).
      exists (M2 - M1 <? 0), K, g.
      split; [exact Hs|]. split; [exact HK|]. split; [exact Hg|].
      split; [rewrite <- Habs; exact Hle|]. split; [exact Hcases|].
      replace (bpow 20) with (IZR 1 * bpow 20)%R by lra.
      apply Hup; [lia | lia | lra].
Qed.

(** Lines 282-283: the product [d * l], for a difference [d] that is
    [K * 2^g] or one unit above it, and a step [l] below [len]. *)
Lemma mul_step (dx : F32.float) (sd : bool) (K g l len : Z) :
  signed sd dx -> 0 <= K < 2 ^ 24 -> -149 <= g ->
  (absR dx = (IZR K * bpow g)%R
   \/ (absR dx = (IZR (K + 1) * bpow g)%R /\ 2 ^ 23 <= K)) ->
  (absR dx <= bpow 20)%R ->
  0 <= l < len -> len <= 2 ^ 20 ->
  let T := F32.mul dx (F32.of_int l) in
  signed sd T /\ (absR T <= IZR K * bpow g * IZR len)%R.
Proof.
  intros Hs HK Hg Hcases Hb Hl Hlen T.
  pose proof (bpow_pos g) as Hu.
  assert (HK0 : (0 <= IZR K)%R) by (apply IZR_le; lia).
  assert (Hlen0 : (IZR l + 1 <= IZR len)%R).
  { rewrite <- plus_IZR. apply IZR_le. lia. }
  assert (Hl0 : (0 <= IZR l)%R) by (apply IZR_le; lia).
  assert (Hl20 : (IZR l <= 1048576)%R) by (apply IZR_le; change (2 ^ 20) with 1048576 in Hlen; lia).
  assert (Hzero : (0 <= IZR K * bpow g * IZR len)%R).
  { apply Rmult_le_pos; [nra | lra]. }
  destruct (Z.eq_dec l 0) as [-> | Hl1].
  { assert (HT : T = S754_zero sd).
    { unfold T. rewrite of_int_zero.
      destruct Hs as [-> | (m & e & ->)]; unfold F32.mul, SFmul;
        rewrite xorb_false_r; reflexivity. }
    rewrite HT, absR_zero. split; [left; reflexivity | exact Hzero]. }
  destruct (of_int_exact l) as (ml & el & Hof & Hvl).
  { change (2 ^ 24) with 16777216. change (2 ^ 20) with 1048576 in Hlen. lia. }
  unfold T. rewrite Hof.
  destruct Hs as [-> | (md & ed & ->)].
  { unfold F32.mul, SFmul. rewrite xorb_false_r, absR_zero.
    split; [left; reflexivity | exact Hzero]. }
  assert (Hed := exponent_lt sd md ed 20 Hb).
  assert (Hel : el <= 20).
  { apply (exponent_lt false ml el 20). rewrite absR_finite, Hvl.
    rewrite (bpow_Z 20) by lia. apply IZR_le. lia. }
  rewrite absR_finite in Hcases, Hb.
  set (A := (IZR (Zpos md) * bpow ed)%R) in *.
  pose proof (finite_pos md ed) as HA. fold A in HA.
  assert (H20 : bpow 20 = 1048576%R) by (rewrite bpow_Z by lia; reflexivity).
  destruct (mul_spec sd md ed false ml el) as [Hsg Herr]; [lia | |].
  { fold A. rewrite Hvl. apply Rle_lt_trans with (bpow 20 * bpow 20)%R.
    - rewrite H20 in *. nra.
    - rewrite <- bpow_plus. apply bpow_lt. lia. }
  rewrite xorb_false_r in Hsg. split; [exact Hsg|].
  fold A in Herr. rewrite Hvl in Herr.
  assert (He23 : bpow (-23) = (/ 8388608)%R).
  { apply Rmult_eq_reg_r with (bpow 23); [|pose proof (bpow_pos 23); lra].
    rewrite <- bpow_plus. change (-23 + 23) with 0. rewrite bpow_0.
    rewrite (bpow_Z 23) by lia. change (IZR (2 ^ 23)) with 8388608%R. field. }
  assert (Heta : (bpow (-149) <= bpow g)%R) by (apply bpow_le; lia).
  set (u := bpow g) in *. set (L := IZR l) in *. set (c := (IZR K * u)%R).
  fold c in Hcases |- *.
  assert (Hc0 : (0 <= c)%R) by (unfold c; nra).
  apply Rle_trans with (c * (L + 1))%R; [|apply Rmult_le_compat_l; lra].
  destruct Hcases as [HAc | [HAc HK23]].
  - (* the difference was exact or rounded down *)
    assert (Hcu : (u <= c)%R).
    { unfold c. assert (1 <= IZR K)%R; [|nra].
      apply IZR_le. assert (0 < K); [|lia].
      apply lt_IZR. unfold c in HAc. nra. }
    rewrite HAc in Herr. destruct Herr as [Herr | Herr].
    + lra.
    + rewrite He23 in Herr.
      assert (c * L * / 8388608 <= c)%R; [|lra].
      assert (c * L <= c * 1048576)%R by (apply Rmult_le_compat_l; lra). lra.
  - (* the difference was rounded up *)
    assert (HAcu : A = (c + u)%R) by (rewrite HAc, plus_IZR; unfold c; ring).
    assert (Hcu : (8388608 * u <= c)%R).
    { unfold c. apply Rmult_le_compat_r; [lra|].
      change 8388608%R with (IZR (2 ^ 23)). apply IZR_le. exact HK23. }
    rewrite HAcu in Herr.
    assert (HuL : (u * L <= u * 1048576)%R) by (apply Rmult_le_compat_l; lra).
    assert (HcL : (c * L <= c * 1048576)%R) by (apply Rmult_le_compat_l; lra).
    destruct Herr as [Herr | Herr].
    + lra.
    + rewrite He23 in Herr. lra.
Qed.

(** Lines 282-283: the quotient by [len]. *)
Lemma div_step (T : F32.float) (sd : bool) (K g len : Z) :
  signed sd T -> 0 <= K < 2 ^ 24 -> -149 <= g <= 103 ->
  (absR T <= IZR K * bpow g * IZR len)%R ->
  0 < len < 2 ^ 24 ->
  let q := F32.div T (F32.of_int len) in
  signed sd q /\ (absR q <= IZR K * bpow g)%R.
Proof.
  intros Hs HK Hg Hle Hlen q.
  destruct (of_int_exact len Hlen) as (m2 & e2 & Hof & Hv2).
  unfold q. rewrite Hof.
  destruct Hs as [-> | (m1 & e1 & ->)].
  - unfold F32.div, SFdiv. rewrite xorb_false_r.
    split; [left; reflexivity|]. rewrite absR_zero.
    pose proof (bpow_pos g). assert (0 <= IZR K)%R by (apply IZR_le; lia). nra.
  - apply div_le; [exact HK | exact Hg|].
    rewrite absR_finite in Hle. rewrite Hv2. exact Hle.
Qed.

(** Lines 282-283: the sum of a plain coordinate and a step of sign
    [sd], when the real sum lies between zero and a representable
    value. *)
Lemma add_spec (x1 q : F32.float) (sd : bool) (j gc : Z) :
  plain x1 -> signed sd q -> 0 <= j < 2 ^ 24 -> -149 <= gc <= 100 ->
  let S := (if sd then absR x1 - absR q else absR x1 + absR q)%R in
  (0 <= S <= IZR j * bpow gc)%R ->
  let F := F32.add x1 q in
  (exists s, F = S754_zero s)
  \/ (exists m e, F = S754_finite false m e /\ (absR F <= IZR j * bpow gc)%R).
Proof.
  intros H1 Hq Hj Hgc S HS F.
  destruct H1 as [[s1 ->] | (m1 & e1 & -> & Hm1 & He1)],
           Hq as [-> | (mq & eq & ->)].
  - left. unfold F, F32.add, SFadd. destruct s1, sd; eauto.
  - right. unfold F, F32.add, SFadd. exists mq, eq.
    unfold S in HS. rewrite absR_zero, absR_finite in HS.
    pose proof (finite_pos mq eq).
    destruct sd; [lra|]. split; [reflexivity|]. rewrite absR_finite. lra.
  - right. unfold F, F32.add, SFadd. exists m1, e1.
    unfold S in HS. rewrite absR_zero in HS.
    split; [reflexivity|]. destruct sd; lra.
  - unfold S in HS. rewrite !absR_finite in HS.
    unfold F, F32.add, SFadd, F32.prec, F32.emax, cond_Zopp.
    set (ez := Z.min e1 eq).
    destruct (shl_align_value m1 e1 ez) as (_ & _ & Hv1).
    destruct (shl_align_value mq eq ez) as (_ & _ & Hvq).
    replace (Z.min e1 ez) with ez in Hv1 by (unfold ez; lia).
    replace (Z.min eq ez) with ez in Hvq by (unfold ez; lia).
    set (M1 := Zpos (fst (shl_align m1 e1 ez))) in *.
    set (Mq := Zpos (fst (shl_align mq eq ez))) in *.
    set (z := M1 + (if sd then - Mq else Mq)).
    assert (Hz : (IZR z * bpow ez
                  = if sd then IZR (Zpos m1) * bpow e1 - IZR (Zpos mq) * bpow eq
                    else IZR (Zpos m1) * bpow e1 + IZR (Zpos mq) * bpow eq)%R).
    { unfold z. destruct sd; rewrite plus_IZR, ?opp_IZR; lra. }
    rewrite <- Hz in HS. pose proof (bpow_pos ez) as Hpz.
    assert (Hz0 : 0 <= z).
    { apply le_IZR. nra. }
    destruct (Z.eq_dec z 0) as [H0 | Hne].
    + left. rewrite H0. cbn [binary_normalize]. eauto.
    + pose proof (repr_lt j gc ltac:(lia)) as Hrep.
      destruct (normalize_spec z ez Hne) as (Hs & _ & Hup & _).
      { rewrite Z.abs_eq by lia.
        apply Rle_lt_trans with (IZR j * bpow gc)%R; [lra|].
        apply Rlt_le_trans with (bpow (24 + gc)); [exact Hrep|]. apply bpow_le. lia. }
      replace (z <? 0) with false in Hs by (symmetry; apply Z.ltb_ge; lia).
      specialize (Hup j gc ltac:(lia) ltac:(lia)).
      rewrite Z.abs_eq in Hup by lia. specialize (Hup ltac:(lra)).
      destruct Hs as [Hs | (m & e & Hs)]; [left; eauto|].
      right. exists m, e. split; [exact Hs | exact Hup].
Qed.

(** The conversion to [int] of a zero or of a positive value below
    [n]. *)
Lemma to_int_below (F : F32.float) (n : Z) (C : R) :
  0 < n <= 2 ^ 20 -> (C < IZR n)%R ->
  (exists s, F = S754_zero s)
  \/ (exists m e, F = S754_finite false m e /\ (absR F <= C)%R) ->
  exists x, Float.to_int F = Some x /\ 0 <= x < n.
Proof.
  intros Hn HC [[s ->] | (m & e & -> & Hle)].
  - exists 0. split; [reflexivity | lia].
  - destruct (trunc_real m e) as (t & Htr & Ht0 & Hlo & Hhi).
    rewrite absR_finite in Hle.
    assert (Ht : t < n) by (apply lt_IZR; lra).
    exists t. unfold Float.to_int. rewrite Htr. cbn [mbind option_bind].
    replace (Int32.in_rangeb t) with true; [split; [reflexivity | lia]|].
    symmetry. apply Int32Facts.in_rangeb_spec.
    change (2 ^ 20) with 1048576 in Hn.
    unfold Int32.in_range, Int32.min_int, Int32.max_int. lia.
Qed.

(** Lines 282-283 for one coordinate: between two coordinates within
    [n], every interpolated coordinate is within [n]. *)
Lemma interp_within (n : Z) (x1 x2 : F32.float) (len l : Z) :
  n <= 2 ^ 20 ->
  Image.within n x1 = true -> Image.within n x2 = true ->
  0 <= l < len -> len <= 2 ^ 20 ->
  exists x, Renderer.interp x1 (F32.sub x2 x1) l len = Some x /\ 0 <= x < n.
Proof.
  intros Hn Hw1 Hw2 Hl Hlen.
  destruct (within_plain n x1 Hw1) as (Hp1 & Hb1 & Hn0).
  destruct (within_plain n x2 Hw2) as (Hp2 & Hb2 & _).
  assert (Hn20 : (IZR n <= bpow 20)%R).
  { rewrite bpow_Z by lia. apply IZR_le. exact Hn. }
  destruct (sub_spec x2 x1 Hp2 Hp1 ltac:(lra) ltac:(lra))
    as (sd & K & g & Hsd & HK & Hg & Hc & Hcases & Hb).
  destruct (mul_step _ sd K g l len Hsd HK ltac:(lia) Hcases Hb Hl Hlen)
    as [HsT HT].
  destruct (div_step _ sd K g len HsT HK Hg HT) as [Hsq Hq].
  { change (2 ^ 24) with 16777216. change (2 ^ 20) with 1048576 in Hlen. lia. }
  unfold Renderer.interp.
  set (q := F32.div (F32.mul (F32.sub x2 x1) (F32.of_int l)) (F32.of_int len)) in *.
  pose proof (absR_nonneg q) as Hq0.
  pose proof (absR_nonneg x1) as H10. pose proof (absR_nonneg x2) as H20.
  assert (Hrepr : forall x, plain x -> (absR x < bpow 20)%R ->
            exists j gc, 0 <= j < 2 ^ 24 /\ -149 <= gc <= 100
                         /\ absR x = (IZR j * bpow gc)%R).
  { intros x [[s ->] | (m & e & -> & Hm & He)] Hx.
    - exists 0, 0. split; [lia|]. split; [lia|]. rewrite absR_zero. lra.
    - exists (Zpos m), e. split; [lia|].
      pose proof (exponent_lt false m e 20 ltac:(lra)).
      split; [lia|]. apply absR_finite. }
  destruct sd.
  - (* towards smaller coordinates *)
    destruct (Hrepr x1 Hp1 ltac:(lra)) as (j & gc & Hj & Hgc & Hx1).
    apply (to_int_below _ n (absR x1)); [lia | exact Hb1|].
    rewrite Hx1. apply (add_spec x1 q true j gc Hp1 Hsq Hj Hgc).
    rewrite <- Hx1. lra.
  - (* towards larger coordinates *)
    destruct (Hrepr x2 Hp2 ltac:(lra)) as (j & gc & Hj & Hgc & Hx2).
    apply (to_int_below _ n (absR x2)); [lia | exact Hb2|].
    rewrite Hx2. apply (add_spec x1 q false j gc Hp1 Hsq Hj Hgc).
    rewrite <- Hx2. lra.
Qed.

End AxisFacts.

Module InsideFacts.

Import Real Grid PowerFacts RoundFacts FaithFacts OpFacts AxisFacts.

(** Line 267-268: a difference of coordinates within the image is a
    zero or a finite value of magnitude at most [2^20]. *)
Lemma difference_small (n : Z) (x1 x2 : F32.float) :
  n <= 2 ^ 20 -> Image.within n x1 = true -> Image.within n x2 = true ->
  exists sd, signed sd (F32.sub x2 x1) /\ (absR (F32.sub x2 x1) <= bpow 20)%R.
Proof.
  intros Hn Hw1 Hw2.
  destruct (within_plain n x1 Hw1) as (Hp1 & Hb1 & Hn0).
  destruct (within_plain n x2 Hw2) as (Hp2 & Hb2 & _).
  assert (Hn20 : (IZR n <= bpow 20)%R).
  { rewrite bpow_Z by lia. apply IZR_le. exact Hn. }
  destruct (sub_spec x2 x1 Hp2 Hp1 ltac:(lra) ltac:(lra))
    as (sd & K & g & Hsd & _ & _ & _ & _ & Hb).
  exists sd. split; [exact Hsd | exact Hb].
Qed.

Lemma to_int_abs (d : F32.float) (sd : bool) :
  signed sd d -> (absR d <= bpow 20)%R ->
  exists t, Float.to_int (F32.abs d) = Some t /\ 0 <= t <= 2 ^ 20.
Proof.
  intros [-> | (m & e & ->)] Hb.
  - exists 0. split; [reflexivity | lia].
  - unfold F32.abs, SFabs.
    destruct (trunc_real m e) as (t & Htr & Ht0 & Hlo & Hhi).
    rewrite absR_finite in Hb. rewrite (bpow_Z 20) in Hb by lia.
    assert (Ht : t <= 2 ^ 20) by (apply le_IZR; lra).
    exists t. unfold Float.to_int. rewrite Htr. cbn [mbind option_bind].
    replace (Int32.in_rangeb t) with true; [split; [reflexivity | lia]|].
    symmetry. apply Int32Facts.in_rangeb_spec.
    change (2 ^ 20) with 1048576 in Ht.
    unfold Int32.in_range, Int32.min_int, Int32.max_int. lia.
Qed.

(** Line 280: the number of steps between two positions inside the
    image is at most [2^20]. *)
Lemma line_len_small (w h : Z) (p1 p2 : SiftPoint) :
  w <= 2 ^ 20 -> h <= 2 ^ 20 ->
  Image.inside w h p1 = true -> Image.inside w h p2 = true ->
  exists len,
    Renderer.line_len (F32.sub (xpos p2) (xpos p1)) (F32.sub (ypos p2) (ypos p1))
    = Some len
    /\ 0 <= len <= 2 ^ 20.
Proof.
  intros Hw Hh H1 H2. unfold Image.inside in H1, H2.
  apply andb_true_iff in H1 as [Hx1 Hy1]. apply andb_true_iff in H2 as [Hx2 Hy2].
  destruct (difference_small w _ _ Hw Hx1 Hx2) as (sx & Hsx & Hbx).
  destruct (difference_small h _ _ Hh Hy1 Hy2) as (sy & Hsy & Hby).
  unfold Renderer.line_len.
  destruct (F32.ltb _ _).
  - exact (to_int_abs _ sx Hsx Hbx).
  - exact (to_int_abs _ sy Hsy Hby).
Qed.

(** One iteration of the loop of lines 281-285 between two positions
    inside the image stores inside the buffer. *)
Lemma line_step_inside (w h : Z) (p1 p2 : SiftPoint) (len l : Z) :
  w <= 2 ^ 20 -> h <= 2 ^ 20 -> w * h <= Int32.max_int ->
  Image.inside w h p1 = true -> Image.inside w h p2 = true ->
  0 <= l < len -> len <= 2 ^ 20 ->
  exists x y,
    0 <= x < w /\ 0 <= y < h
    /\ Renderer.line_step w p1 (F32.sub (xpos p2) (xpos p1))
         (F32.sub (ypos p2) (ypos p1)) len l
       = Some (y * w + x, F32.c255)
    /\ 0 <= y * w + x < w * h.
Proof.
  intros Hw Hh Hwh H1 H2 Hl Hlen. unfold Image.inside in H1, H2.
  apply andb_true_iff in H1 as [Hx1 Hy1]. apply andb_true_iff in H2 as [Hx2 Hy2].
  destruct (interp_within w _ _ len l Hw Hx1 Hx2 Hl Hlen) as (x & Hx & Hxr).
  destruct (interp_within h _ _ len l Hh Hy1 Hy2 Hl Hlen) as (y & Hy & Hyr).
  destruct (LineFacts.offset_in_buffer w h x y ltac:(lia) ltac:(lia) Hwh Hxr Hyr)
    as [Hoff Hin].
  exists x, y. split; [exact Hxr|]. split; [exact Hyr|]. split; [|exact Hin].
  unfold Renderer.line_step. rewrite Hx, Hy. cbn [mbind option_bind].
  rewrite Hoff. reflexivity.
Qed.

End InsideFacts.

(** C3, as the code has it.  The loop of lines 280-285 neither clamps
    nor skips: it makes one store per step.  When the feature and its
    match both lie inside the image, in an image of at most [2^20]
    columns and [2^20] rows whose [width * height] pixels can be counted
    in an [int], the loop has defined behaviour and every store it
    makes is the store of 255 at an offset within
    [[0, width * height)]: every interpolated position is rounded
    between the two end points. *)
Theorem line_inside_image (w h : Z) (p1 p2 : SiftPoint) :
  w <= Image.size_limit -> h <= Image.size_limit ->
  w * h <= Int32.max_int ->
  Image.inside w h p1 = true -> Image.inside w h p2 = true ->
  exists len ws,
    Renderer.line_len (F32.sub (xpos p2) (xpos p1)) (F32.sub (ypos p2) (ypos p1))
    = Some len
    /\ Renderer.line_writes w p1 p2 = Some ws
    /\ length ws = Z.to_nat len
    /\ Forall (fun wr => Spec.in_buffer w h wr /\ wr.2 = F32.c255) ws.
Proof.
  unfold Image.size_limit. intros Hw Hh Hwh H1 H2.
  destruct (InsideFacts.line_len_small w h p1 p2 Hw Hh H1 H2) as (len & Hlen & Hr).
  assert (Hsteps : Forall (fun l =>
            exists wr, Renderer.line_step w p1 (F32.sub (xpos p2) (xpos p1))
                         (F32.sub (ypos p2) (ypos p1)) len l = Some wr
                       /\ Spec.in_buffer w h wr /\ wr.2 = F32.c255)
            (Int32.upto len)).
  { apply Forall_forall. intros l Hl. apply Int32Facts.elem_of_upto in Hl.
    destruct (InsideFacts.line_step_inside w h p1 p2 len l Hw Hh Hwh H1 H2 Hl
                ltac:(lia)) as (x & y & _ & _ & Hstep & Hin).
    exists (y * w + x, F32.c255). split; [exact Hstep|]. split; [exact Hin | reflexivity]. }
  assert (Hsome : is_Some (Renderer.line_writes w p1 p2)).
  { unfold Renderer.line_writes. rewrite Hlen. cbn [mbind option_bind].
    apply mapM_is_Some_2. eapply Forall_impl; [exact Hsteps|].
    intros l (wr & Hwr & _). cbn. rewrite Hwr. eauto. }
  destruct Hsome as [ws Hws]. exists len, ws.
  split; [exact Hlen|]. split; [exact Hws|].
  unfold Renderer.line_writes in Hws. rewrite Hlen in Hws. cbn [mbind option_bind] in Hws.
  split.
  - rewrite <- (length_mapM _ _ _ Hws). apply Int32Facts.length_upto.
  - apply mapM_Some in Hws. apply Forall_forall. intros wr Hwr.
    apply list_elem_of_lookup in Hwr as [i Hi].
    destruct (Forall2_lookup_r _ _ _ _ _ Hws Hi) as (l & Hli & Hstep).
    apply list_elem_of_lookup_2 in Hli.
    rewrite Forall_forall in Hsteps.
    destruct (Hsteps l Hli) as (wr' & Hwr' & Hin).
    rewrite Hstep in Hwr'. injection Hwr' as <-. exact Hin.
Qed.

(** The line from (3, 7) to (90, 40) in an image of 100 x 50 pixels. *)
Lemma line_inside_image_witness :
  exists len ws,
    Renderer.line_len (F32.sub (F32.of_int 90) (F32.of_int 3))
                      (F32.sub (F32.of_int 40) (F32.of_int 7)) = Some len
    /\ Renderer.line_writes 100 (Scenario.feature 3 7 1 0 1)
                            (Scenario.feature 90 40 1 0 1) = Some ws
    /\ length ws = Z.to_nat len
    /\ Forall (fun wr => Spec.in_buffer 100 50 wr /\ wr.2 = F32.c255) ws.
Proof.
  apply (line_inside_image 100 50 (Scenario.feature 3 7 1 0 1)
           (Scenario.feature 90 40 1 0 1)).
  - vm_compute. discriminate.
  - vm_compute. discriminate.
  - vm_compute. discriminate.
  - vm_compute. reflexivity.
  - vm_compute. reflexivity.
Defined.

(** End points inside the image do not suffice in a large image.  In
    an image of 4 columns and 268435441 rows, whose pixels an [int] can
    count, the step [l = len - 1] is converted to the [float] [len], and
    the last step of the line from [(0.25 + 3 * 2^-23, 0)] to
    [(4 - 2^-22, 268435440)] is rounded to column 4 of the last row: the
    store is at offset [width * height], one past the buffer. *)
Lemma line_rounds_past_large_image :
  let dx := F32.sub (xpos Large.target) (xpos Large.source) in
  let dy := F32.sub (ypos Large.target) (ypos Large.source) in
  Large.w * Large.h <= Int32.max_int
  /\ Image.inside Large.w Large.h Large.source = true
  /\ Image.inside Large.w Large.h Large.target = true
  /\ Renderer.line_len dx dy = Some 268435440
  /\ F32.of_int 268435439 = F32.of_int 268435440
  /\ Renderer.interp (xpos Large.source) dx 268435439 268435440 = Some Large.w
  /\ Renderer.line_step Large.w Large.source dx dy 268435440 268435439
     = Some (Large.w * Large.h, F32.c255)
  /\ ~ Spec.in_buffer Large.w Large.h (Large.w * Large.h, F32.c255).
Proof.
  cbv zeta. repeat split; try (vm_compute; reflexivity).
  - vm_compute. discriminate.
  - unfold Spec.in_buffer. cbn [fst]. lia.
Qed.
